(** * OneTV film core: extraction engine and script bridge

    A shallow embedding of the native layer of the film module:
    - [spider-bridge.cpp]: the pattern based extractor [SimpleSpiderEngine]
      and the JNI entry points [nativeParse], [nativeExtractPlayUrls],
      [nativeValidatePlayUrl];
    - [quickjs-android.cpp]: the context registry, the evaluation boundary
      and the HTTP functions installed in every script context.

    [std::string] is [string] (a sequence of bytes), [std::vector] is [list],
    [std::map] is [gmap], a C++ exception is the [Throw] case of [res].
    The standard library's [std::regex] (ECMAScript grammar) is embedded as a
    parser from the pattern text to a syntax tree and a backtracking matcher
    over it, so that every pattern below is the pattern text of the source. *)

From Stdlib Require Import String Ascii ZArith List Lia Bool Arith DecimalString.
From stdpp Require Import base option list gmap strings.

Local Open Scope nat_scope.
#[local] Arguments String.append !_ _ / : simpl nomatch.

(** ** Part I. Definitions *)

(** *** C++ exceptions *)

Module Cxx.

(** [std::regex_constants::error_type], the codes the parser below can raise.
    [error_unsupported] marks pattern syntax outside the embedded fragment;
    no pattern of the sources reaches it. *)
Inductive error_type :=
| error_paren | error_brack | error_escape | error_badrepeat | error_unsupported.

(** The exceptions derived from [std::exception] that the modelled code can
    meet. *)
Inductive exn :=
| regex_error (code : error_type)
| system_error (msg : string)
| bad_alloc.

(** [e.what()], with the texts of libc++ (the Android NDK's library). *)
Definition what (e : exn) : string :=
  match e with
  | regex_error error_paren => "The expression contained mismatched ( and )."
  | regex_error error_brack => "The expression contained mismatched [ and ]."
  | regex_error error_escape =>
      "The expression contained an invalid escaped character, or a trailing escape."
  | regex_error error_badrepeat =>
      "One of *?+{ was not preceded by a valid regular expression."
  | regex_error error_unsupported => "An unknown error occurred."
  | system_error msg => msg
  | bad_alloc => "std::bad_alloc"
  end.

Inductive res (A : Type) : Type :=
| Ok (a : A)
| Throw (e : exn).
Arguments Ok {A} a.
Arguments Throw {A} e.

Definition bind {A B : Type} (m : res A) (f : A -> res B) : res B :=
  match m with
  | Ok a => f a
  | Throw e => Throw e
  end.

(** [try { body } catch (const std::exception& e) { handler }] *)
Definition try_catch {A : Type} (body : res A) (handler : exn -> A) : A :=
  match body with
  | Ok a => a
  | Throw e => handler e
  end.

(** Building a container from an initializer list: the elements are
    constructed in order, the first exception leaves the construction. *)
Fixpoint sequence {A : Type} (l : list (res A)) : res (list A) :=
  match l with
  | [] => Ok []
  | m :: l' =>
      match m with
      | Throw e => Throw e
      | Ok a => match sequence l' with
                | Throw e => Throw e
                | Ok r => Ok (a :: r)
                end
      end
  end.

End Cxx.
Import Cxx.

Notation "'do' x <- m ; k" := (bind m (fun x => k))
  (at level 10, x pattern, m at level 100, k at level 200).

(** *** std::string *)

Module Str.

(** The double quote character, which a string literal cannot hold. *)
Definition DQ : string := String (ascii_of_nat 34) EmptyString.

Definition TAB : ascii := ascii_of_nat 9.
Definition LF : ascii := ascii_of_nat 10.
Definition CR : ascii := ascii_of_nat 13.

(** The set of blank, tab, carriage return and line feed. *)
Definition whitespace : string :=
  String " " (String TAB (String CR (String LF EmptyString))).

Definition is_empty (s : string) : bool :=
  match s with EmptyString => true | String _ _ => false end.

(** [s.find(sub) == 0] *)
Definition starts_with (sub s : string) : bool := String.prefix sub s.

(** [s.find(sub)]: the index of the first occurrence, [None] for [npos]. *)
Fixpoint find (s sub : string) : option nat :=
  if String.prefix sub s then Some 0
  else match s with
       | EmptyString => None
       | String _ s' => option_map S (find s' sub)
       end.

Definition mem_char (c : ascii) (set : string) : bool :=
  existsb (Ascii.eqb c) (list_ascii_of_string set).

(** [s.find_first_not_of(set)] *)
Fixpoint find_first_not_of (s set : string) : option nat :=
  match s with
  | EmptyString => None
  | String c s' =>
      if mem_char c set then option_map S (find_first_not_of s' set) else Some 0
  end.

(** [s.find_last_not_of(set)] *)
Fixpoint find_last_not_of (s set : string) : option nat :=
  match s with
  | EmptyString => None
  | String c s' =>
      match find_last_not_of s' set with
      | Some i => Some (S i)
      | None => if mem_char c set then None else Some 0
      end
  end.

(** [s.find_last_of(c)] *)
Fixpoint find_last_of (s : string) (c : ascii) : option nat :=
  match s with
  | EmptyString => None
  | String x s' =>
      match find_last_of s' c with
      | Some i => Some (S i)
      | None => if Ascii.eqb x c then Some 0 else None
      end
  end.

(** [s.substr(pos, n)] for [pos <= s.size()] *)
Definition substr (s : string) (pos n : nat) : string := String.substring pos n s.

(** [s] holds [sub] somewhere. *)
Definition contains (sub s : string) : Prop :=
  exists pre post, s = pre +:+ sub +:+ post.

(** Every character of [s] is in [set]. *)
Definition all_in (set s : string) : bool :=
  forallb (fun c => mem_char c set) (list_ascii_of_string s).

(** Every character of [s] satisfies [p]. *)
Definition all_chars (p : ascii -> bool) (s : string) : bool :=
  forallb p (list_ascii_of_string s).

Definition first_char (s : string) : option ascii :=
  match s with
  | EmptyString => None
  | String c _ => Some c
  end.

Fixpoint last_char (s : string) : option ascii :=
  match s with
  | EmptyString => None
  | String c EmptyString => Some c
  | String _ s' => last_char s'
  end.

(** [x] without its leading blanks and tabs and its trailing white
    space is [k]. *)
Definition stripped_of (x k : string) : Prop :=
  exists l r, x = l +:+ k +:+ r /\
    all_in (String " " (String TAB EmptyString)) l = true /\
    all_in whitespace r = true /\
    (forall c, first_char k = Some c ->
       mem_char c (String " " (String TAB EmptyString)) = false) /\
    (forall c, last_char k = Some c -> mem_char c whitespace = false).

(** The entries of a [std::map<std::string, std::string>] in the order
    of its iteration, by ascending key. *)
Fixpoint insert_sorted (p : string * string) (l : list (string * string))
  : list (string * string) :=
  match l with
  | [] => [p]
  | q :: l' => if String.leb (fst p) (fst q) then p :: l else q :: insert_sorted p l'
  end.

Definition in_key_order (m : gmap string string) : list (string * string) :=
  foldr insert_sorted [] (map_to_list m).

End Str.
Import Str.

(** *** std::regex: syntax *)

Module Regex.

(** The members of a bracket expression. *)
Inductive class_item :=
| CChar (c : ascii)
| CRange (lo hi : ascii)
| CSpace (positive : bool)      (* \s and \S *)
| CDigit (positive : bool)      (* \d and \D *)
| CWord (positive : bool).      (* \w and \W *)

(** The syntax tree of a pattern. [a+] is [Seq a (Star a)] and [a?] is
    [Alt a Empty], as the ECMAScript semantics defines them; all
    quantifiers of the fragment are greedy. *)
Inductive node :=
| Empty
| Char (c : ascii)
| Any
| Class (negated : bool) (items : list class_item)
| AssertEnd
| Seq (a b : node)
| Alt (a b : node)
| Group (index : nat) (a : node)
| Star (a : node).

Definition Plus (a : node) : node := Seq a (Star a).
Definition Opt (a : node) : node := Alt a Empty.

(** [std::regex_constants::syntax_option_type], the one flag the sources
    use. *)
Record flags := { icase : bool }.
Definition ECMAScript : flags := {| icase := false |}.
Definition icase_flag : flags := {| icase := true |}.

Record regex := { re_node : node; re_flags : flags; mark_count : nat }.

(** **** The pattern parser (the constructor of [std::regex]) *)

Definition is_alpha (c : ascii) : bool :=
  let n := nat_of_ascii c in
  ((65 <=? n) && (n <=? 90)) || ((97 <=? n) && (n <=? 122)).
Definition is_digit (c : ascii) : bool :=
  let n := nat_of_ascii c in (48 <=? n) && (n <=? 57).

(** A backslash escape outside or inside a bracket expression: a class
    escape, a control escape or an identity escape of a character that is
    no letter and no digit. *)
Inductive escape :=
| EClass (item : class_item)
| ELit (c : ascii).

Definition parse_escape (c : ascii) : res escape :=
  match c with
  | "s"%char => Ok (EClass (CSpace true))
  | "S"%char => Ok (EClass (CSpace false))
  | "d"%char => Ok (EClass (CDigit true))
  | "D"%char => Ok (EClass (CDigit false))
  | "w"%char => Ok (EClass (CWord true))
  | "W"%char => Ok (EClass (CWord false))
  | "t"%char => Ok (ELit (ascii_of_nat 9))
  | "n"%char => Ok (ELit (ascii_of_nat 10))
  | "v"%char => Ok (ELit (ascii_of_nat 11))
  | "f"%char => Ok (ELit (ascii_of_nat 12))
  | "r"%char => Ok (ELit (ascii_of_nat 13))
  | _ => if is_alpha c || is_digit c
         then Throw (regex_error error_unsupported)
         else Ok (ELit c)
  end.

(** The inside of a bracket expression, after the opening bracket and the
    optional caret, up to the closing bracket. *)
Fixpoint parse_class_items (fuel : nat) (s : string)
  : res (list class_item * string) :=
  match fuel with
  | 0 => Throw (regex_error error_unsupported)
  | S fuel =>
      match s with
      | EmptyString => Throw (regex_error error_brack)
      | String "]" s' => Ok ([], s')
      | String "\" EmptyString => Throw (regex_error error_escape)
      | String "\" (String c s') =>
          do e <- parse_escape c;
          do r <- parse_class_items fuel s';
          Ok ((match e with EClass i => i | ELit x => CChar x end) :: fst r,
              snd r)
      | String "[" (String ":" _) | String "[" (String "." _)
      | String "[" (String "=" _) => Throw (regex_error error_unsupported)
      | String lo (String "-" (String hi s')) =>
          if Ascii.eqb hi "]" then
            do r <- parse_class_items fuel (String "-" (String hi s'));
            Ok (CChar lo :: fst r, snd r)
          else if Ascii.eqb hi "\" then Throw (regex_error error_unsupported)
          else
            do r <- parse_class_items fuel s';
            Ok (CRange lo hi :: fst r, snd r)
      | String c s' =>
          do r <- parse_class_items fuel s';
          Ok (CChar c :: fst r, snd r)
      end
  end.

Definition parse_class (s : string) : res (node * string) :=
  match s with
  | String "^" (String "]" _) | String "]" _ =>
      Throw (regex_error error_unsupported)
  | String "^" s' =>
      do r <- parse_class_items (String.length s) s';
      Ok (Class true (fst r), snd r)
  | _ =>
      do r <- parse_class_items (String.length s) s;
      Ok (Class false (fst r), snd r)
  end.

(** A quantifier after an atom. *)
Definition parse_quantifier (a : node) (s : string) : res (node * string) :=
  match s with
  | String "*" (String "?" _) | String "+" (String "?" _)
  | String "?" (String "?" _) | String "{" _ =>
      Throw (regex_error error_unsupported)
  | String "*" s' => Ok (Star a, s')
  | String "+" s' => Ok (Plus a, s')
  | String "?" s' => Ok (Opt a, s')
  | _ => Ok (a, s)
  end.

(** The parse state threads the rest of the pattern and the number of
    groups opened so far; a group takes its index when its parenthesis
    opens. *)
Fixpoint parse_alternative (fuel : nat) (s : string) (groups : nat)
  : res (node * string * nat) :=
  match fuel with
  | 0 => Throw (regex_error error_unsupported)
  | S fuel =>
      do r <- parse_sequence fuel s groups;
      let '(a, s1, g1) := r in
      match s1 with
      | String "|" s2 =>
          do r' <- parse_alternative fuel s2 g1;
          let '(b, s3, g2) := r' in
          Ok (Alt a b, s3, g2)
      | _ => Ok (a, s1, g1)
      end
  end
with parse_sequence (fuel : nat) (s : string) (groups : nat)
  : res (node * string * nat) :=
  match fuel with
  | 0 => Throw (regex_error error_unsupported)
  | S fuel =>
      match s with
      | EmptyString | String "|" _ | String ")" _ => Ok (Empty, s, groups)
      | _ =>
          do r <- parse_term fuel s groups;
          let '(a, s1, g1) := r in
          do r' <- parse_sequence fuel s1 g1;
          let '(b, s2, g2) := r' in
          Ok (Seq a b, s2, g2)
      end
  end
with parse_term (fuel : nat) (s : string) (groups : nat)
  : res (node * string * nat) :=
  match fuel with
  | 0 => Throw (regex_error error_unsupported)
  | S fuel =>
      match s with
      | EmptyString => Ok (Empty, s, groups)
      | String "(" (String "?" _) => Throw (regex_error error_unsupported)
      | String "(" s1 =>
          do r <- parse_alternative fuel s1 (S groups);
          let '(a, s2, g1) := r in
          match s2 with
          | String ")" s3 =>
              do q <- parse_quantifier (Group (S groups) a) s3;
              Ok (fst q, snd q, g1)
          | _ => Throw (regex_error error_paren)
          end
      | String "[" s1 =>
          do c <- parse_class s1;
          do q <- parse_quantifier (fst c) (snd c);
          Ok (fst q, snd q, groups)
      | String "\" EmptyString => Throw (regex_error error_escape)
      | String "\" (String c s1) =>
          do e <- parse_escape c;
          do q <- parse_quantifier
                    (match e with
                     | EClass i => Class false [i]
                     | ELit x => Char x
                     end) s1;
          Ok (fst q, snd q, groups)
      | String "*" _ | String "+" _ | String "?" _ =>
          Throw (regex_error error_badrepeat)
      | String "{" _ | String "^" _ => Throw (regex_error error_unsupported)
      | String "$" s1 => Ok (AssertEnd, s1, groups)
      | String "." s1 =>
          do q <- parse_quantifier Any s1; Ok (fst q, snd q, groups)
      | String c s1 =>
          do q <- parse_quantifier (Char c) s1; Ok (fst q, snd q, groups)
      end
  end.

(** [std::regex(pattern, flags)]: the whole pattern must be consumed; what
    is left can only start with a closing parenthesis that nothing
    opened. *)
Definition std_regex (pattern : string) (f : flags) : res regex :=
  do r <- parse_alternative (3 * String.length pattern + 3) pattern 0;
  let '(a, s, g) := r in
  match s with
  | EmptyString => Ok {| re_node := a; re_flags := f; mark_count := g |}
  | _ => Throw (regex_error error_paren)
  end.

(** **** The matcher *)

Definition tolower (c : ascii) : ascii :=
  let n := nat_of_ascii c in
  if (65 <=? n) && (n <=? 90) then ascii_of_nat (n + 32) else c.
Definition toupper (c : ascii) : ascii :=
  let n := nat_of_ascii c in
  if (97 <=? n) && (n <=? 122) then ascii_of_nat (n - 32) else c.

(** [std::isspace] in the C locale: blank and the controls 9 to 13. *)
Definition is_space (c : ascii) : bool :=
  let n := nat_of_ascii c in (n =? 32) || ((9 <=? n) && (n <=? 13)).
Definition is_word (c : ascii) : bool :=
  is_alpha c || is_digit c || Ascii.eqb c "_".
Definition is_line_terminator (c : ascii) : bool :=
  let n := nat_of_ascii c in (n =? 10) || (n =? 13).

(** [traits.translate] or [traits.translate_nocase]. *)
Definition translate (f : flags) (c : ascii) : ascii :=
  if icase f then tolower c else c.

Definition char_matches (f : flags) (c x : ascii) : bool :=
  Ascii.eqb (translate f c) (translate f x).

Definition in_range (lo hi x : ascii) : bool :=
  (nat_of_ascii lo <=? nat_of_ascii x) && (nat_of_ascii x <=? nat_of_ascii hi).

Definition item_matches (f : flags) (i : class_item) (x : ascii) : bool :=
  match i with
  | CChar c => char_matches f c x
  | CRange lo hi =>
      in_range lo hi x
      || (icase f && (in_range lo hi (tolower x) || in_range lo hi (toupper x)))
  | CSpace b => Bool.eqb b (is_space x)
  | CDigit b => Bool.eqb b (is_digit x)
  | CWord b => Bool.eqb b (is_word x)
  end.

Definition class_matches (f : flags) (negated : bool) (items : list class_item)
    (x : ascii) : bool :=
  xorb negated (existsb (fun i => item_matches f i x) items).

(** The state of one match attempt: the input still to read and the
    sub-matches set so far. *)
Record mstate := { rest : string; caps : gmap nat string }.

Definition advance (st : mstate) (tl : string) : mstate :=
  {| rest := tl; caps := caps st |}.

(** One character against a predicate. *)
Definition step (p : ascii -> bool) (k : mstate -> option mstate) (st : mstate)
  : option mstate :=
  match rest st with
  | String x tl => if p x then k (advance st tl) else None
  | EmptyString => None
  end.

(** What was read between two states of one attempt. *)
Definition consumed (from to : mstate) : string :=
  substr (rest from) 0 (String.length (rest from) - String.length (rest to)).

Definition set_cap (i : nat) (from to : mstate) : mstate :=
  {| rest := rest to; caps := <[i := consumed from to]> (caps to) |}.

Fixpoint groups (r : node) : list nat :=
  match r with
  | Seq a b | Alt a b => groups a ++ groups b
  | Group i a => i :: groups a
  | Star a => groups a
  | _ => []
  end.

Definition clear_caps (gs : list nat) (st : mstate) : mstate :=
  {| rest := rest st; caps := foldr delete (caps st) gs |}.

(** The iterations of a star, at most [n] of them: one more iteration of
    the body [body], which must read something and starts with the
    sub-matches [gs] of the body unset, and then the rest of the star;
    when that fails, what follows the star. *)
Fixpoint star_loop (body : (mstate -> option mstate) -> mstate -> option mstate)
    (gs : list nat) (k : mstate -> option mstate) (n : nat) (st : mstate)
  : option mstate :=
  match n with
  | 0 => k st
  | S n' =>
      match body
              (fun st' =>
                 if String.length (rest st') <? String.length (rest st)
                 then star_loop body gs k n' st' else None)
              (clear_caps gs st) with
      | Some r => Some r
      | None => k st
      end
  end.

(** The backtracking matcher in continuation passing style: [k] is what
    has to match after [r]. Alternatives are tried left to right, a star
    takes as many iterations as it can before it gives one back, and the
    first success is the result. *)
Fixpoint m_node (f : flags) (r : node) (k : mstate -> option mstate)
    (st : mstate) {struct r} : option mstate :=
  match r with
  | Empty => k st
  | Char c => step (char_matches f c) k st
  | Any => step (fun x => negb (is_line_terminator x)) k st
  | Class negated items => step (class_matches f negated items) k st
  | AssertEnd => if is_empty (rest st) then k st else None
  | Seq a b => m_node f a (m_node f b k) st
  | Alt a b =>
      match m_node f a k st with
      | Some r => Some r
      | None => m_node f b k st
      end
  | Group i a => m_node f a (fun st' => k (set_cap i st st')) st
  | Star a => star_loop (m_node f a) (groups a) k (String.length (rest st)) st
  end.

(** The words of a pattern, declaratively: [Matches f r w s] when [r]
    can read [w] in front of [s]. *)
Inductive Matches (f : flags) : node -> string -> string -> Prop :=
| M_Empty s : Matches f Empty EmptyString s
| M_Char c x s :
    char_matches f c x = true -> Matches f (Char c) (String x EmptyString) s
| M_Any x s :
    is_line_terminator x = false -> Matches f Any (String x EmptyString) s
| M_Class negated items x s :
    class_matches f negated items x = true ->
    Matches f (Class negated items) (String x EmptyString) s
| M_AssertEnd : Matches f AssertEnd EmptyString EmptyString
| M_Seq a b w1 w2 s :
    Matches f a w1 (w2 +:+ s) -> Matches f b w2 s ->
    Matches f (Seq a b) (w1 +:+ w2) s
| M_AltL a b w s : Matches f a w s -> Matches f (Alt a b) w s
| M_AltR a b w s : Matches f b w s -> Matches f (Alt a b) w s
| M_Group i a w s : Matches f a w s -> Matches f (Group i a) w s
| M_Star0 a s : Matches f (Star a) EmptyString s
| M_StarS a w1 w2 s :
    Matches f a w1 (w2 +:+ s) -> Matches f (Star a) w2 s ->
    Matches f (Star a) (w1 +:+ w2) s.

(** [std::smatch]: [prefix()], [match[0]], the sub-matches and
    [suffix()]. *)
Record smatch := {
  m_prefix : string;
  m_whole : string;
  m_sub : gmap nat string;
  m_suffix : string
}.

(** [m[i].str()]: an unset sub-match reads as the empty string. *)
Definition m_str (m : smatch) (i : nat) : string :=
  match i with
  | 0 => m_whole m
  | _ => default EmptyString (m_sub m !! i)
  end.

(** One attempt at the start of [s]; with [not_null] (the flag
    [match_not_null]) an empty match does not count. *)
Definition match_at (re : regex) (not_null : bool) (s : string) : option smatch :=
  let start := {| rest := s; caps := ∅ |} in
  match m_node (re_flags re) (re_node re)
          (fun st => if not_null && (String.length (rest st) =? String.length s)
                     then None else Some st) start with
  | Some st => Some {| m_prefix := EmptyString; m_whole := consumed start st;
                       m_sub := caps st; m_suffix := rest st |}
  | None => None
  end.

Definition with_prefix (c : ascii) (m : smatch) : smatch :=
  {| m_prefix := String c (m_prefix m); m_whole := m_whole m;
     m_sub := m_sub m; m_suffix := m_suffix m |}.

(** [std::regex_search(s, m, re)]: the attempt is made at each position
    from the left, the end of [s] included. *)
Fixpoint regex_search (re : regex) (s : string) : option smatch :=
  match match_at re false s with
  | Some m => Some m
  | None =>
      match s with
      | EmptyString => None
      | String c s' => with_prefix c <$> regex_search re s'
      end
  end.

(** [std::sregex_iterator(s.begin(), s.end(), re)] run to the end: each
    search starts where the match before ended; after an empty match a
    non-empty match is tried at the same place and the search moves one
    character on when there is none. *)
Fixpoint regex_iterator (fuel : nat) (re : regex) (after_empty : bool)
    (s : string) : list smatch :=
  match fuel with
  | 0 => []
  | S fuel =>
      if after_empty then
        match s with
        | EmptyString => []
        | String c s' =>
            match match_at re true s with
            | Some m => m :: regex_iterator fuel re false (m_suffix m)
            | None =>
                match regex_search re s' with
                | Some m =>
                    with_prefix c m
                      :: regex_iterator fuel re (is_empty (m_whole m)) (m_suffix m)
                | None => []
                end
            end
        end
      else
        match regex_search re s with
        | Some m => m :: regex_iterator fuel re (is_empty (m_whole m)) (m_suffix m)
        | None => []
        end
  end.

Definition sregex_iterator (re : regex) (s : string) : list smatch :=
  regex_iterator (2 * String.length s + 3) re false s.

(** [std::regex_replace(s, re, fmt)] for a format without dollar signs. *)
Definition regex_replace (s : string) (re : regex) (fmt : string) : string :=
  match sregex_iterator re s with
  | [] => s
  | ms =>
      foldr (fun m acc => m_prefix m +:+ fmt +:+ acc) EmptyString ms
        +:+ default EmptyString (m_suffix <$> last ms)
  end.

(** What a matcher for [r] has to satisfy: when it succeeds from [st],
    it has read a word of [r] and what follows succeeded after it. *)
Definition sound_for (f : flags) (r : node)
    (m : (mstate -> option mstate) -> mstate -> option mstate) : Prop :=
  forall k st res, m k st = Some res ->
    exists w st', rest st = w +:+ rest st' /\ Matches f r w (rest st') /\
                  k st' = Some res.

(** A match that a search or an iteration yields is, up to its prefix,
    the match of one attempt. *)
Definition from_attempt (re : regex) (m : smatch) : Prop :=
  exists not_null s m', match_at re not_null s = Some m' /\
    m_whole m = m_whole m' /\ m_sub m = m_sub m' /\ m_suffix m = m_suffix m'.

(** The runs of a pattern with their sub-matches: [Run f r st st'] when
    [r] can take an attempt from the state [st] to the state [st']. A
    group records what its body read; an iteration of a star starts with
    the sub-matches of its body unset. *)
Inductive Run (f : flags) : node -> mstate -> mstate -> Prop :=
| R_Empty st : Run f Empty st st
| R_Char c x tl st :
    rest st = String x tl -> char_matches f c x = true ->
    Run f (Char c) st (advance st tl)
| R_Any x tl st :
    rest st = String x tl -> is_line_terminator x = false ->
    Run f Any st (advance st tl)
| R_Class negated items x tl st :
    rest st = String x tl -> class_matches f negated items x = true ->
    Run f (Class negated items) st (advance st tl)
| R_AssertEnd st : rest st = EmptyString -> Run f AssertEnd st st
| R_Seq a b st st1 st2 :
    Run f a st st1 -> Run f b st1 st2 -> Run f (Seq a b) st st2
| R_AltL a b st st' : Run f a st st' -> Run f (Alt a b) st st'
| R_AltR a b st st' : Run f b st st' -> Run f (Alt a b) st st'
| R_Group i a st st' : Run f a st st' -> Run f (Group i a) st (set_cap i st st')
| R_Star0 a st : Run f (Star a) st st
| R_StarS a st st1 st2 :
    Run f a (clear_caps (groups a) st) st1 -> Run f (Star a) st1 st2 ->
    Run f (Star a) st st2.

(** The sub-matches [c] are pieces of the text [s0]. *)
Definition caps_within (s0 : string) (c : gmap nat string) : Prop :=
  forall i w, c !! i = Some w -> contains w s0.

(** The 256 characters. *)
Definition all_ascii : list ascii := ascii_of_nat <$> seq 0 256.

(** Every character that a leaf of [r] accepts satisfies [p]. *)
Fixpoint reads (f : flags) (p : ascii -> bool) (r : node) : bool :=
  match r with
  | Empty | AssertEnd => true
  | Char c => forallb (fun x => implb (char_matches f c x) (p x)) all_ascii
  | Any => forallb (fun x => implb (negb (is_line_terminator x)) (p x)) all_ascii
  | Class negated items =>
      forallb (fun x => implb (class_matches f negated items x) (p x)) all_ascii
  | Seq a b | Alt a b => reads f p a && reads f p b
  | Group _ a | Star a => reads f p a
  end.

(** [r] reads at least one character. *)
Fixpoint never_empty (r : node) : bool :=
  match r with
  | Char _ | Any | Class _ _ => true
  | Empty | AssertEnd | Star _ => false
  | Seq a b => never_empty a || never_empty b
  | Alt a b => never_empty a && never_empty b
  | Group _ a => never_empty a
  end.

(** Two continuations that succeed on the same inputs, whatever the
    sub-matches are. *)
Definition equi (k1 k2 : mstate -> option mstate) : Prop :=
  forall s s', rest s = rest s' -> (is_Some (k1 s) <-> is_Some (k2 s')).

(** [re] has a word somewhere in [s]. *)
Definition occurs_in (re : regex) (s : string) : Prop :=
  exists pre w post,
    s = pre +:+ w +:+ post /\ Matches (re_flags re) (re_node re) w post.

(** [r] has no star. *)
Fixpoint star_free (r : node) : bool :=
  match r with
  | Star _ => false
  | Seq a b | Alt a b => star_free a && star_free b
  | Group _ a => star_free a
  | _ => true
  end.

(** The body of the group [i] when it stands in the sequence of [r]
    itself, so that every run of [r] goes through it, and nothing after it
    names [i] again. *)
Fixpoint set_body (i : nat) (r : node) : option node :=
  match r with
  | Group j a => if i =? j then Some a else None
  | Seq a b =>
      match set_body i b with
      | Some body => Some body
      | None => if existsb (Nat.eqb i) (groups b) then None else set_body i a
      end
  | _ => None
  end.

(** [traits.translate] on every character. *)
Fixpoint translate_all (f : flags) (s : string) : string :=
  match s with
  | EmptyString => EmptyString
  | String c s' => String (translate f c) (translate_all f s')
  end.

(** The words of a pattern made of literals, sequences, alternatives and
    groups only, as written in the pattern. *)
Fixpoint words_of (r : node) : option (list string) :=
  match r with
  | Empty => Some [EmptyString]
  | Char c => Some [String c EmptyString]
  | Seq a b =>
      match words_of a, words_of b with
      | Some la, Some lb =>
          Some (concat ((fun x => (fun y => x +:+ y) <$> lb) <$> la))
      | _, _ => None
      end
  | Alt a b =>
      match words_of a, words_of b with
      | Some la, Some lb => Some (la ++ lb)
      | _, _ => None
      end
  | Group _ a => words_of a
  | _ => None
  end.

(** The sequence [r] starts with the characters [t], one literal after
    the other. *)
Fixpoint begins_with_lits (t : list ascii) (r : node) : bool :=
  match t with
  | [] => true
  | c :: t' =>
      match r with
      | Seq (Char c') r' => Ascii.eqb c c' && begins_with_lits t' r'
      | _ => false
      end
  end.

(** The sequence [r] spells the text [t] somewhere on its way, so that
    every word of [r] holds a text that matches [t] character by
    character. *)
Fixpoint spells (t : string) (r : node) : bool :=
  begins_with_lits (list_ascii_of_string t) r
  || match r with
     | Seq _ b => spells t b
     | _ => false
     end.

(** The text [t] as literals in front of [r]. *)
Fixpoint lits (t : string) (r : node) : node :=
  match t with
  | EmptyString => r
  | String c t' => Seq (Char c) (lits t' r)
  end.

(** The last thing [r] reads is a star over a class that accepts every
    character [p] accepts. *)
Fixpoint greedy_end (f : flags) (p : ascii -> bool) (r : node) : bool :=
  match r with
  | Star (Class negated items) =>
      forallb (fun c => implb (p c) (class_matches f negated items c)) all_ascii
  | Group _ a => greedy_end f p a
  | Seq a Empty => greedy_end f p a
  | Seq _ b => greedy_end f p b
  | _ => false
  end.

(** The group [i] is the last element of the sequence [r]. *)
Fixpoint group_last (i : nat) (r : node) : bool :=
  match r with
  | Seq (Group j _) Empty => i =? j
  | Seq _ b => group_last i b
  | _ => false
  end.

(** A continuation that accepts whatever state it is given. *)
Definition accepting (k : mstate -> option mstate) : Prop :=
  forall s, exists s', k s = Some s' /\ rest s' = rest s.

(** [s] begins with the text [t], which is in lower case, in any
    case; [s] holds such a text somewhere. *)
Fixpoint starts_ci (t s : string) : bool :=
  match t with
  | EmptyString => true
  | String c t' =>
      match s with
      | EmptyString => false
      | String x s' => Ascii.eqb (translate icase_flag x) c && starts_ci t' s'
      end
  end.

Fixpoint holds_ci (t s : string) : bool :=
  starts_ci t s
  || match s with
     | EmptyString => false
     | String _ s' => holds_ci t s'
     end.

End Regex.
Import Regex.

(** *** spider-bridge.cpp *)

Module Spider.

(** [struct SpiderResult]; a default constructed one has empty strings and
    containers. *)
Record SpiderResult := {
  url : string;
  title : string;
  content : string;
  thumbnail : string;
  metadata : gmap string string;
  playUrls : list string;
  downloadUrls : list string;
  parseTime : Z;
  error : string
}.

(** The sentinel title, the UTF-8 text of the source. *)
Definition unknown_title : string := "未知标题".

(** [std::find(urls.begin(), urls.end(), url) == urls.end()] *)
Definition not_found (urls : list string) (url : string) : bool :=
  negb (existsb (String.eqb url) urls).

(** The step of the loops: push unless found. *)
Definition push (urls : list string) (u : string) : list string :=
  if not_found urls u then urls ++ [u] else urls.

Section Engine.

(** The members of [SimpleSpiderEngine]. *)
Variable html : string.
Variable baseUrl : string.

(** The pattern lists, each pattern the text of its raw string literal. *)
Definition playUrl_patterns : list (res regex) := [
  std_regex ("(https?://[^" +:+ DQ +:+ "'\s]+\.m3u8[^" +:+ DQ +:+ "'\s]*)") ECMAScript;
  std_regex ("(https?://[^" +:+ DQ +:+ "'\s]+\.mp4[^" +:+ DQ +:+ "'\s]*)") ECMAScript;
  std_regex ("(https?://[^" +:+ DQ +:+ "'\s]+\.flv[^" +:+ DQ +:+ "'\s]*)") ECMAScript;
  std_regex ("(https?://[^" +:+ DQ +:+ "'\s]+\.avi[^" +:+ DQ +:+ "'\s]*)") ECMAScript;
  std_regex ("(https?://[^" +:+ DQ +:+ "'\s]+\.mkv[^" +:+ DQ +:+ "'\s]*)") ECMAScript;
  std_regex ("src=[" +:+ DQ +:+ "']([^" +:+ DQ +:+ "']+\.m3u8[^" +:+ DQ +:+ "']*)") ECMAScript;
  std_regex ("src=[" +:+ DQ +:+ "']([^" +:+ DQ +:+ "']+\.mp4[^" +:+ DQ +:+ "']*)") ECMAScript;
  std_regex ("url[" +:+ DQ +:+ "\s]*[:=][" +:+ DQ +:+ "\s]*[" +:+ DQ +:+ "']([^"
             +:+ DQ +:+ "']+\.m3u8[^" +:+ DQ +:+ "']*)") ECMAScript;
  std_regex ("url[" +:+ DQ +:+ "\s]*[:=][" +:+ DQ +:+ "\s]*[" +:+ DQ +:+ "']([^"
             +:+ DQ +:+ "']+\.mp4[^" +:+ DQ +:+ "']*)") ECMAScript
].

Definition title_patterns : list (res regex) := [
  std_regex "<title[^>]*>([^<]+)</title>" icase_flag;
  std_regex "<h1[^>]*>([^<]+)</h1>" icase_flag;
  std_regex "<h2[^>]*>([^<]+)</h2>" icase_flag;
  std_regex ("title[" +:+ DQ +:+ "\s]*[:=][" +:+ DQ +:+ "\s]*[" +:+ DQ +:+ "']([^"
             +:+ DQ +:+ "']+)") icase_flag;
  std_regex ("name[" +:+ DQ +:+ "\s]*[:=][" +:+ DQ +:+ "\s]*[" +:+ DQ +:+ "']([^"
             +:+ DQ +:+ "']+)") icase_flag
].

Definition thumbnail_patterns : list (res regex) := [
  std_regex ("<img[^>]+src=[" +:+ DQ +:+ "']([^" +:+ DQ +:+ "']+)") icase_flag;
  std_regex ("poster=[" +:+ DQ +:+ "']([^" +:+ DQ +:+ "']+)") icase_flag;
  std_regex ("thumbnail[" +:+ DQ +:+ "\s]*[:=][" +:+ DQ +:+ "\s]*[" +:+ DQ
             +:+ "']([^" +:+ DQ +:+ "']+)") icase_flag;
  std_regex ("cover[" +:+ DQ +:+ "\s]*[:=][" +:+ DQ +:+ "\s]*[" +:+ DQ
             +:+ "']([^" +:+ DQ +:+ "']+)") icase_flag
].

Definition metadata_pattern (key : string) : res regex :=
  std_regex (key +:+ "[" +:+ DQ +:+ "\s]*[:=][" +:+ DQ +:+ "\s]*[" +:+ DQ
             +:+ "']?([^" +:+ DQ +:+ "',\s]+)") icase_flag.

Definition metadata_keys : list string :=
  ["duration"; "quality"; "format"; "size"; "bitrate"; "fps"].

(** The patterns of [extractDownloadUrls]. The raw string literals of the
    three [href] patterns end after the star: their group is opened and
    never closed. *)
Definition downloadUrl_patterns : list (res regex) := [
  std_regex ("download[" +:+ DQ +:+ "\s]*[:=][" +:+ DQ +:+ "\s]*[" +:+ DQ
             +:+ "']([^" +:+ DQ +:+ "']+)") icase_flag;
  std_regex ("href=[" +:+ DQ +:+ "']([^" +:+ DQ +:+ "']+\.mp4[^" +:+ DQ +:+ "']*") icase_flag;
  std_regex ("href=[" +:+ DQ +:+ "']([^" +:+ DQ +:+ "']+\.avi[^" +:+ DQ +:+ "']*") icase_flag;
  std_regex ("href=[" +:+ DQ +:+ "']([^" +:+ DQ +:+ "']+\.mkv[^" +:+ DQ +:+ "']*") icase_flag
].

(** [stripHtmlTags] *)
Definition stripHtmlTags (s : string) : res string :=
  do tagRegex <- std_regex "<[^>]*>" ECMAScript;
  Ok (regex_replace s tagRegex EmptyString).

(** [trim] *)
Definition trim (str : string) : string :=
  match find_first_not_of str whitespace with
  | None => EmptyString
  | Some start =>
      match find_last_not_of str whitespace with
      | Some e => substr str start (e - start + 1)
      | None => EmptyString
      end
  end.

(** [isImageUrl] *)
Definition isImageUrl (u : string) : res bool :=
  do imageRegex <- std_regex "\.(jpg|jpeg|png|gif|bmp|webp)(\?|$)" icase_flag;
  Ok (bool_decide (is_Some (regex_search imageRegex u))).

(** [makeAbsoluteUrl] *)
Definition makeAbsoluteUrl (u : string) : res string :=
  if starts_with "http" u then Ok u
  else if starts_with "//" u then Ok ("https:" +:+ u)
  else
    do domain <-
      (if starts_with "/" u then
         do domainRegex <- std_regex "https?://[^/]+" ECMAScript;
         Ok (regex_search domainRegex baseUrl)
       else Ok None);
    match domain with
    | Some m => Ok (m_str m 0 +:+ u)
    | None =>
        match find_last_of baseUrl "/" with
        | Some lastSlash => Ok (substr baseUrl 0 (lastSlash + 1) +:+ u)
        | None => Ok u
        end
    end.

(** The loop of [extractPlayUrls] over the matches of one pattern. *)
Definition collect_play (urls : list string) (ms : list smatch) : list string :=
  foldl (fun urls m => push urls (m_str m 1)) urls ms.

(** [extractPlayUrls] *)
Definition extractPlayUrls : res (list string) :=
  do patterns <- sequence playUrl_patterns;
  Ok (foldl (fun urls pattern => collect_play urls (sregex_iterator pattern html))
        [] patterns).

(** The loop of [extractTitle] over the patterns. *)
Fixpoint first_title (patterns : list regex) : res string :=
  match patterns with
  | [] => Ok unknown_title
  | pattern :: patterns' =>
      match regex_search pattern html with
      | Some m =>
          do stripped <- stripHtmlTags (m_str m 1);
          let t := trim stripped in
          if negb (is_empty t) && (2 <? String.length t) then Ok t
          else first_title patterns'
      | None => first_title patterns'
      end
  end.

(** [extractTitle] *)
Definition extractTitle : res string :=
  do patterns <- sequence title_patterns;
  first_title patterns.

(** The loop of [extractThumbnail] over the patterns. *)
Fixpoint first_thumbnail (patterns : list regex) : res string :=
  match patterns with
  | [] => Ok EmptyString
  | pattern :: patterns' =>
      match regex_search pattern html with
      | Some m =>
          do image <- isImageUrl (m_str m 1);
          if image then makeAbsoluteUrl (m_str m 1)
          else first_thumbnail patterns'
      | None => first_thumbnail patterns'
      end
  end.

(** [extractThumbnail] *)
Definition extractThumbnail : res string :=
  do patterns <- sequence thumbnail_patterns;
  first_thumbnail patterns.

(** [extractMetadata] *)
Definition extractMetadata : res (gmap string string) :=
  do patterns <- sequence (metadata_pattern <$> metadata_keys);
  Ok (foldl (fun (md : gmap string string) (p : string * regex) =>
               match regex_search (snd p) html with
               | Some m => <[fst p := m_str m 1]> md
               | None => md
               end) ∅ (zip metadata_keys patterns)).

(** The loop of [extractDownloadUrls] over the matches of one pattern: the
    membership test is on the captured text, the element pushed is its
    resolution. *)
Fixpoint collect_download (urls : list string) (ms : list smatch)
  : res (list string) :=
  match ms with
  | [] => Ok urls
  | m :: ms' =>
      let u := m_str m 1 in
      if not_found urls u then
        do a <- makeAbsoluteUrl u;
        collect_download (urls ++ [a]) ms'
      else collect_download urls ms'
  end.

Fixpoint collect_download_all (urls : list string) (patterns : list regex)
  : res (list string) :=
  match patterns with
  | [] => Ok urls
  | pattern :: patterns' =>
      do urls' <- collect_download urls (sregex_iterator pattern html);
      collect_download_all urls' patterns'
  end.

(** [extractDownloadUrls] *)
Definition extractDownloadUrls : res (list string) :=
  do patterns <- sequence downloadUrl_patterns;
  collect_download_all [] patterns.

End Engine.

(** [nativeParse], up to the serialisation [spiderResultToJson] of the
    record it builds. [elapsed] is the duration the clock measures. The
    handler fills a default constructed record, whose strings and
    containers are empty, with the URL, the error text and the duration.
    It reads the URL from [urlStr] after [ReleaseStringUTFChars] has given
    the characters back: what it finds there is not defined by the
    program, it is the argument [released]. The text of [e.what()] is the
    standard library's: [what_of] gives it. *)
Definition nativeParse_with (what_of : exn -> string) (urlStr htmlStr : string)
    (elapsed : Z) (released : string) : SpiderResult :=
  try_catch
    (do t <- extractTitle htmlStr;
     do th <- extractThumbnail htmlStr urlStr;
     do pl <- extractPlayUrls htmlStr;
     do dl <- extractDownloadUrls htmlStr urlStr;
     do md <- extractMetadata htmlStr;
     Ok {| url := urlStr; title := t; content := htmlStr; thumbnail := th;
           metadata := md; playUrls := pl; downloadUrls := dl;
           parseTime := elapsed; error := EmptyString |})
    (fun e =>
       {| url := released; title := EmptyString; content := EmptyString;
          thumbnail := EmptyString; metadata := ∅; playUrls := [];
          downloadUrls := []; parseTime := elapsed; error := what_of e |}).

(** [nativeParse] with the texts of libc++. *)
Definition nativeParse : string -> string -> Z -> string -> SpiderResult :=
  nativeParse_with what.

(** [nativeExtractPlayUrls], up to the serialisation of the list. *)
Definition nativeExtractPlayUrls (urlStr htmlStr : string) : list string :=
  try_catch (extractPlayUrls htmlStr) (fun _ => []).

(** [nativeValidatePlayUrl] *)
Definition nativeValidatePlayUrl (urlString : string) : bool :=
  starts_with "http" urlString
  && (bool_decide (is_Some (find urlString ".m3u8"))
      || bool_decide (is_Some (find urlString ".mp4"))
      || bool_decide (is_Some (find urlString ".flv"))
      || bool_decide (is_Some (find urlString ".avi"))
      || bool_decide (is_Some (find urlString ".mkv"))).

(** **** The vocabulary of the properties *)

(** The candidates of an extractor: what the first group of each pattern
    captures, pattern after pattern and match after match. *)
Definition captures (re : regex) (html : string) : list string :=
  (fun m => m_str m 1) <$> sregex_iterator re html.

Definition candidates (ps : list regex) (html : string) : list string :=
  concat ((fun re => captures re html) <$> ps).

Definition compiled (l : list (res regex)) : list regex :=
  match sequence l with Ok ps => ps | Throw _ => [] end.

Definition play_candidates (html : string) : list string :=
  candidates (compiled playUrl_patterns) html.

(** A sequence cut down to the first occurrence of each of its values. *)
Fixpoint first_occurrences (l : list string) : list string :=
  match l with
  | [] => []
  | x :: l' => x :: filter (fun y => y <> x) (first_occurrences l')
  end.

(** An absolute URL begins with the scheme and its separator. *)
Definition absolute (u : string) : Prop :=
  starts_with "http://" u = true \/ starts_with "https://" u = true.

(** The syntax tree of [https?://] in front of [tail]. *)
Definition scheme_then (tail : node) : node :=
  Seq (Char "h") (Seq (Char "t") (Seq (Char "t") (Seq (Char "p")
    (Seq (Alt (Char "s") Empty)
       (Seq (Char ":") (Seq (Char "/") (Seq (Char "/") tail))))))).

Definition bare_candidates (html : string) : list string :=
  candidates (take 5 (compiled playUrl_patterns)) html.

Definition attribute_candidates (html : string) : list string :=
  candidates (drop 5 (compiled playUrl_patterns)) html.

(** Neither a double nor a single quote. *)
Definition no_quote (c : ascii) : bool :=
  negb (Ascii.eqb c (ascii_of_nat 34)) && negb (Ascii.eqb c "'").

(** What the class of a metadata value accepts: no quote, no comma and no
    white space. *)
Definition value_char (c : ascii) : bool :=
  no_quote c && negb (Ascii.eqb c ",") && negb (is_space c).

(** What the class of a bare play URL accepts: no quote and no white
    space. *)
Definition url_char (c : ascii) : bool := no_quote c && negb (is_space c).

(** [u] stands in the page [html] and [p] rejects the character after
    it, if there is one. *)
Definition ends_in (p : ascii -> bool) (u html : string) : Prop :=
  exists a b, html = a +:+ u +:+ b /\
    forall c, first_char b = Some c -> p c = false.

(** What [isImageUrl] looks for: a dot and one of six extensions, in any
    case, and then a question mark or the end of the string. *)
Definition image_extensions : list string :=
  [".jpg"; ".jpeg"; ".png"; ".gif"; ".bmp"; ".webp"].

Definition image_url (u : string) : Prop :=
  exists pre ext post, u = pre +:+ ext +:+ post /\
    translate_all icase_flag ext ∈ image_extensions /\
    (post = EmptyString \/ first_char post = Some "?"%char).

(** The extensions of the play URL patterns. *)
Definition play_extensions : list string :=
  [".m3u8"; ".mp4"; ".flv"; ".avi"; ".mkv"].

(** The class of the bare play URL patterns: anything but a quote or
    white space. *)
Definition url_class : node :=
  Class true [CChar (ascii_of_nat 34); CChar "'"; CSpace true].

(** The syntax tree of the bare play URL pattern for the extension
    [ext]. *)
Definition bare_node (ext : string) : node :=
  Seq (Group 1
         (scheme_then
            (Seq (Seq url_class (Star url_class))
               (lits ext (Seq (Star url_class) Empty)))))
    Empty.

(** A bare play URL: a scheme, a host part that is not empty, one of
    the five extensions and a tail, nowhere a quote or white space. *)
Definition bare_play_url (u : string) : Prop :=
  all_chars url_char u = true /\
  exists scheme host ext tail,
    u = scheme +:+ host +:+ ext +:+ tail /\
    scheme ∈ ["http://"; "https://"] /\ host <> EmptyString /\
    ext ∈ play_extensions.

(** Between [pre] and [post] a URL stands on its own: [pre] does not end
    and [post] does not begin with a character of a URL. *)
Definition stands_alone (pre post : string) : bool :=
  match last_char pre with Some c => negb (url_char c) | None => true end
  && match first_char post with Some c => negb (url_char c) | None => true end.

(** The classes of the metadata patterns and the syntax tree of the
    pattern for the name [key]. *)
Definition gap_class : node := Class false [CChar (ascii_of_nat 34); CSpace true].
Definition value_class : node :=
  Class true [CChar (ascii_of_nat 34); CChar "'"; CChar ","; CSpace true].

Definition metadata_node (key : string) : node :=
  lits key
    (Seq (Star gap_class)
       (Seq (Class false [CChar ":"; CChar "="])
          (Seq (Star gap_class)
             (Seq (Alt (Class false [CChar (ascii_of_nat 34); CChar "'"]) Empty)
                (Seq (Group 1 (Seq (Seq value_class (Star value_class)) Empty))
                   Empty))))).

(** What may stand between the name, the separator and the value of a
    metadata entry: double quotes and white space. *)
Definition gap_char (c : ascii) : bool :=
  Ascii.eqb c (ascii_of_nat 34) || is_space c.

(** A metadata entry for the name [key] with the value [v]: the name in
    any case, a colon or an equals sign, and the value, with gaps
    between them. *)
Definition metadata_entry (key v e : string) : Prop :=
  exists name gap1 sep gap2,
    e = name +:+ gap1 +:+ sep +:+ gap2 +:+ v /\
    translate_all icase_flag name = key /\
    all_chars gap_char gap1 = true /\ sep ∈ [":"; "="] /\
    all_chars gap_char gap2 = true /\
    v <> EmptyString /\ all_chars value_char v = true.

Definition not_lt (c : ascii) : bool := negb (Ascii.eqb c "<").
Definition not_gt (c : ascii) : bool := negb (Ascii.eqb c ">").

(** The syntax tree of the first title pattern. *)
Definition title_node : node :=
  lits "<title"
    (Seq (Star (Class true [CChar ">"]))
       (Seq (Char ">")
          (Seq (Group 1
                  (Seq (Seq (Class true [CChar "<"]) (Star (Class true [CChar "<"])))
                     Empty))
             (lits "</title>" Empty)))).

(** A title element with the text [t]: the opening tag in any case and
    with any attributes, the text, which holds no opening angle
    bracket, and the closing tag in any case. *)
Definition title_element (t e : string) : Prop :=
  exists name attrs close,
    e = name +:+ attrs +:+ ">" +:+ t +:+ close /\
    translate_all icase_flag name = "<title" /\
    all_chars not_gt attrs = true /\
    all_chars not_lt t = true /\
    translate_all icase_flag close = "</title>".

(** The syntax tree of the pattern of [stripHtmlTags]. *)
Definition tag_node : node :=
  Seq (Char "<") (Seq (Star (Class true [CChar ">"])) (Seq (Char ">") Empty)).

(** A piece of markup as [stripHtmlTags] sees it: an opening angle
    bracket, anything but a closing one, and a closing one. *)
Definition is_tag (t : string) : Prop :=
  exists body, t = "<" +:+ body +:+ ">" /\
    all_chars (fun c => negb (Ascii.eqb c ">")) body = true.

(** [s] holds a tag somewhere: an opening angle bracket with a closing
    one after it. *)
Fixpoint holds_tag (s : string) : bool :=
  match s with
  | EmptyString => false
  | String c s' => (Ascii.eqb c "<" && mem_char ">" s') || holds_tag s'
  end.

(** [Strips s r]: [r] is [s] with some of its tags taken out and the rest
    in place. *)
Inductive Strips : string -> string -> Prop :=
| Strips_done s : Strips s s
| Strips_tag pre t s r :
    is_tag t -> Strips s r -> Strips (pre +:+ t +:+ s) (pre +:+ r).

(** The pages the properties below are run on. *)
Definition demo_html : string :=
  "<title>Demo</title><video src=" +:+ DQ +:+ "https://cdn.test/v.m3u8" +:+ DQ
  +:+ "></video>".

Definition plain_html : string := "<p>nothing to see</p>".

Definition relative_video_html : string :=
  "<video src=" +:+ DQ +:+ "/v/a.m3u8" +:+ DQ +:+ "></video>".

Definition repeated_download_html : string :=
  "<a download=" +:+ DQ +:+ "/a.mp4" +:+ DQ +:+ ">1</a><a download=" +:+ DQ
  +:+ "/a.mp4" +:+ DQ +:+ ">2</a>".

End Spider.

(** *** quickjs-android.cpp *)

Module QuickJS.

(** [s.c_str()] read back as a C string: the bytes before the first NUL. *)
Fixpoint c_str (s : string) : string :=
  match s with
  | EmptyString => EmptyString
  | String c s' => if Ascii.eqb c zero then EmptyString else String c (c_str s')
  end.

(** Conversion to a two's complement integer of [w] bits. *)
Definition wrap (w : Z) (z : Z) : Z :=
  ((z + 2 ^ (w - 1)) mod 2 ^ w - 2 ^ (w - 1))%Z.

Definition INT64_MAX : Z := (2 ^ 63 - 1)%Z.

(** **** The values of the script engine

    What the bridge builds are plain objects with string keyed data
    properties; every other heap value of the engine (a function, an error
    object) is a reference the engine alone interprets. *)
#[local] Set Warnings "-register-all".
Inductive JSValue :=
| JS_UNDEFINED
| JS_NULL
| JS_EXCEPTION
| JS_Bool (b : bool)
| JS_Int32 (n : Z)
| JS_String (s : string)
| JS_Object (props : list (string * JSValue))
| JS_Ref (handle : N).

Definition JS_IsException (v : JSValue) : bool :=
  match v with JS_EXCEPTION => true | _ => false end.
Definition JS_IsUndefined (v : JSValue) : bool :=
  match v with JS_UNDEFINED => true | _ => false end.
Definition JS_IsObject (v : JSValue) : bool :=
  match v with JS_Object _ | JS_Ref _ => true | _ => false end.

Definition JS_NewObject : JSValue := JS_Object [].
Definition JS_NewInt32 (z : Z) : JSValue := JS_Int32 (wrap 32 z).
Definition JS_NewString (s : string) : JSValue := JS_String (c_str s).

Fixpoint set_prop (props : list (string * JSValue)) (k : string) (v : JSValue)
  : list (string * JSValue) :=
  match props with
  | [] => [(k, v)]
  | (k', v') :: props' =>
      if String.eqb k' k then (k, v) :: props' else (k', v') :: set_prop props' k v
  end.

(** [JS_SetPropertyStr] on an object the bridge has just made. *)
Definition JS_SetPropertyStr (obj : JSValue) (k : string) (v : JSValue) : JSValue :=
  match obj with
  | JS_Object props => JS_Object (set_prop props (c_str k) v)
  | _ => obj
  end.

(** The own data property [k] of a plain object. *)
Definition own_property (obj : JSValue) (k : string) : option JSValue :=
  match obj with
  | JS_Object props => snd <$> List.find (fun p => String.eqb (fst p) k) props
  | _ => None
  end.

(** **** The engine (quickjs.h), an external collaborator

    A context is a state the operations read and change. The operations
    that can run script code or report an exception return the new
    state. *)
Record Engine := {
  JSContext : Type;
  JSAtom : Type;
  JS_Eval : string -> JSContext -> JSValue * JSContext;
  JS_ParseJSON : string -> JSContext -> JSValue * JSContext;
  JS_Call : JSValue -> JSValue -> list JSValue -> JSContext -> JSValue * JSContext;
  JS_GetException : JSContext -> JSValue * JSContext;
  JS_GetGlobalObject : JSContext -> JSValue;
  JS_GetPropertyStr : JSValue -> string -> JSContext -> JSValue * JSContext;
  JS_GetProperty : JSValue -> JSAtom -> JSContext -> JSValue * JSContext;
  JS_GetOwnPropertyNames : JSValue -> JSContext -> option (list JSAtom) * JSContext;
  JS_AtomToString : JSAtom -> JSContext -> JSValue * JSContext;
  JS_ToCString : JSValue -> JSContext -> option string * JSContext;
  JS_ToInt32 : JSValue -> JSContext -> option Z * JSContext;
  (** The state after [JS_ThrowTypeError] and [JS_ThrowInternalError], which
      return [JS_EXCEPTION]. *)
  JS_ThrowTypeError : string -> JSContext -> JSContext;
  JS_ThrowInternalError : string -> JSContext -> JSContext
}.

(** **** HTTP *)

Module HttpResponse.
Record t := {
  data : string;
  responseCode : Z;
  contentType : string;
  headers : gmap string string
}.
(** [HttpResponse() : responseCode(0) {}] *)
Definition init : t :=
  {| data := EmptyString; responseCode := 0; contentType := EmptyString;
     headers := ∅ |}.
End HttpResponse.

Module HttpRequest.
Record t := {
  url : string;
  method : string;
  data : string;
  headers : gmap string string;
  timeout : Z
}.
(** [HttpRequest() : method("GET"), timeout(15000) {}] *)
Definition init : t :=
  {| url := EmptyString; method := "GET"; data := EmptyString; headers := ∅;
     timeout := 15000 |}.
End HttpRequest.

(** [s.erase(0, s.find_first_not_of(set))] *)
Definition erase_front (s set : string) : string :=
  match find_first_not_of s set with
  | Some i => substr s i (String.length s - i)
  | None => EmptyString
  end.

(** [s.erase(s.find_last_not_of(set) + 1)] *)
Definition erase_back (s set : string) : string :=
  match find_last_not_of s set with
  | Some i => substr s 0 (i + 1)
  | None => EmptyString
  end.

(** [WriteCallback] *)
Definition WriteCallback (contents : string) (response : HttpResponse.t)
  : HttpResponse.t :=
  {| HttpResponse.data := HttpResponse.data response +:+ contents;
     HttpResponse.responseCode := HttpResponse.responseCode response;
     HttpResponse.contentType := HttpResponse.contentType response;
     HttpResponse.headers := HttpResponse.headers response |}.

(** [HeaderCallback] *)
Definition HeaderCallback (buffer : string) (response : HttpResponse.t)
  : HttpResponse.t :=
  match find buffer ":" with
  | None => response
  | Some colonPos =>
      let blank := String " " (String TAB EmptyString) in
      let key :=
        erase_back (erase_front (substr buffer 0 colonPos) blank) whitespace in
      let value :=
        erase_back
          (erase_front
             (substr buffer (colonPos + 1) (String.length buffer - (colonPos + 1)))
             blank) whitespace in
      {| HttpResponse.data := HttpResponse.data response;
         HttpResponse.responseCode := HttpResponse.responseCode response;
         HttpResponse.contentType :=
           if String.eqb key "Content-Type" || String.eqb key "content-type"
           then value else HttpResponse.contentType response;
         HttpResponse.headers := <[key := value]> (HttpResponse.headers response) |}
  end.

(** The content type of a response is empty or the value stored under
    one of the two spellings of the header. *)
Definition content_type_inv (r : HttpResponse.t) : Prop :=
  HttpResponse.contentType r = EmptyString
  \/ HttpResponse.headers r !! "Content-Type" = Some (HttpResponse.contentType r)
  \/ HttpResponse.headers r !! "content-type" = Some (HttpResponse.contentType r).

(** What [curl_easy_perform] hands to the two callbacks while it runs. *)
Inductive curl_event :=
| HeaderLine (buffer : string)
| BodyChunk (contents : string).

Definition deliver (response : HttpResponse.t) (ev : curl_event) : HttpResponse.t :=
  match ev with
  | HeaderLine buffer => HeaderCallback buffer response
  | BodyChunk contents => WriteCallback contents response
  end.

Definition CURLE_OK : Z := 0.

(** libcurl, the external transport: whether [curl_easy_init] gives a
    handle; what [curl_easy_perform] delivers to the callbacks for a
    request and the code it returns, or the exception that leaves the
    [try] block around it; the response code [curl_easy_getinfo] reports;
    the text of an error code. *)
Record Curl := {
  curl_easy_init : bool;
  curl_easy_perform : HttpRequest.t -> list curl_event * res Z;
  CURLINFO_RESPONSE_CODE : HttpRequest.t -> Z;
  curl_easy_strerror : Z -> string
}.

Definition failed (response : HttpResponse.t) (text : string) : HttpResponse.t :=
  {| HttpResponse.data := text;
     HttpResponse.responseCode := -1;
     HttpResponse.contentType := HttpResponse.contentType response;
     HttpResponse.headers := HttpResponse.headers response |}.

(** [performHttpRequest], the build with libcurl. *)
Definition performHttpRequest (curl : Curl) (request : HttpRequest.t)
  : HttpResponse.t :=
  if negb (curl_easy_init curl) then
    failed HttpResponse.init "ERROR: Failed to initialize CURL"
  else
    let '(events, result) := curl_easy_perform curl request in
    let response := foldl deliver HttpResponse.init events in
    match result with
    | Throw e => failed response ("ERROR: " +:+ what e)
    | Ok code =>
        if negb (code =? CURLE_OK)%Z then
          failed response ("ERROR: " +:+ curl_easy_strerror curl code)
        else
          {| HttpResponse.data := HttpResponse.data response;
             HttpResponse.responseCode := CURLINFO_RESPONSE_CODE curl request;
             HttpResponse.contentType := HttpResponse.contentType response;
             HttpResponse.headers := HttpResponse.headers response |}
    end.

(** A transport fault: no handle, an exception, or a result other than
    [CURLE_OK]. *)
Definition transport_fails (curl : Curl) (request : HttpRequest.t) : bool :=
  negb (curl_easy_init curl)
  || match snd (curl_easy_perform curl request) with
     | Throw _ => true
     | Ok code => negb (code =? CURLE_OK)%Z
     end.

(** The body chunks of a transfer, one after the other, and its header
    lines. *)
Definition body_of (events : list curl_event) : string :=
  foldr (fun ev acc =>
           match ev with
           | BodyChunk contents => contents +:+ acc
           | HeaderLine _ => acc
           end) EmptyString events.

Definition header_lines (events : list curl_event) : list curl_event :=
  List.filter (fun ev => match ev with HeaderLine _ => true | BodyChunk _ => false end)
    events.

(** [performHttpRequest], the build without libcurl. *)
Definition performHttpRequest_stub (request : HttpRequest.t) : HttpResponse.t :=
  let nl := String LF "        " in
  {| HttpResponse.data :=
       "{" +:+ nl +:+ DQ +:+ "error" +:+ DQ +:+ ": " +:+ DQ +:+ "HTTP_NOT_SUPPORTED"
       +:+ DQ +:+ "," +:+ nl +:+ DQ +:+ "message" +:+ DQ +:+ ": " +:+ DQ
       +:+ "libcurl not available. Please install libcurl to enable HTTP functionality."
       +:+ DQ +:+ "," +:+ nl +:+ DQ +:+ "url" +:+ DQ +:+ ": " +:+ DQ
       +:+ HttpRequest.url request +:+ DQ +:+ "," +:+ nl +:+ DQ +:+ "method" +:+ DQ
       +:+ ": " +:+ DQ +:+ HttpRequest.method request +:+ DQ
       +:+ String LF "    }";
     HttpResponse.responseCode := 200;
     HttpResponse.contentType := "application/json";
     HttpResponse.headers := ∅ |}.

(** The two builds as what the HTTP functions call: neither lets an
    exception out. *)
Definition with_curl (curl : Curl) (request : HttpRequest.t) : res HttpResponse.t :=
  Ok (performHttpRequest curl request).

Definition without_curl (request : HttpRequest.t) : res HttpResponse.t :=
  Ok (performHttpRequest_stub request).

(** **** The HTTP functions of a context *)

Section Bridge.

Variable E : Engine.

(** The [performHttpRequest] of the build; [Throw] is an exception that
    leaves it and reaches the handler of the calling function. *)
Variable perform : HttpRequest.t -> res HttpResponse.t.

(** What a native function hands back to the engine: the value it
    returns and the context it leaves. *)
Definition returned : Type := JSValue * JSContext E.

Definition with_headers (request : HttpRequest.t) (hs : gmap string string)
  : HttpRequest.t :=
  {| HttpRequest.url := HttpRequest.url request;
     HttpRequest.method := HttpRequest.method request;
     HttpRequest.data := HttpRequest.data request;
     HttpRequest.headers := hs;
     HttpRequest.timeout := HttpRequest.timeout request |}.

(** The loop over the own properties of the header argument. *)
Fixpoint add_headers (props : list (JSAtom E)) (obj : JSValue)
    (hs : gmap string string) (ctx : JSContext E)
  : gmap string string * JSContext E :=
  match props with
  | [] => (hs, ctx)
  | atom :: props' =>
      let '(key, ctx) := JS_AtomToString E atom ctx in
      let '(value, ctx) := JS_GetProperty E obj atom ctx in
      let '(keyStr, ctx) := JS_ToCString E key ctx in
      let '(valueStr, ctx) := JS_ToCString E value ctx in
      add_headers props' obj
        (match keyStr, valueStr with
         | Some k, Some v => <[k := v]> hs
         | _, _ => hs
         end) ctx
  end.

(** The optional header argument, when it is there and is an object. *)
Definition parse_headers (arg : option JSValue) (request : HttpRequest.t)
    (ctx : JSContext E) : HttpRequest.t * JSContext E :=
  match arg with
  | Some obj =>
      if JS_IsObject obj then
        match JS_GetOwnPropertyNames E obj ctx with
        | (Some props, ctx) =>
            let '(hs, ctx) := add_headers props obj (HttpRequest.headers request) ctx in
            (with_headers request hs, ctx)
        | (None, ctx) => (request, ctx)
        end
      else (request, ctx)
  | None => (request, ctx)
  end.

(** The object of the response headers: the loop over the [std::map]
    sets one property per header, by ascending key. *)
Definition headers_object (hs : gmap string string) : JSValue :=
  foldl (fun obj h => JS_SetPropertyStr obj (fst h) (JS_NewString (snd h)))
    JS_NewObject (in_key_order hs).

(** The response objects: with status, data, content type and headers;
    with status and data; with status and headers. *)
Definition full_response (response : HttpResponse.t) : JSValue :=
  let obj := JS_NewObject in
  let obj := JS_SetPropertyStr obj "status"
               (JS_NewInt32 (HttpResponse.responseCode response)) in
  let obj := JS_SetPropertyStr obj "data"
               (JS_NewString (HttpResponse.data response)) in
  let obj := JS_SetPropertyStr obj "contentType"
               (JS_NewString (HttpResponse.contentType response)) in
  JS_SetPropertyStr obj "headers" (headers_object (HttpResponse.headers response)).

Definition data_response (response : HttpResponse.t) : JSValue :=
  let obj := JS_NewObject in
  let obj := JS_SetPropertyStr obj "status"
               (JS_NewInt32 (HttpResponse.responseCode response)) in
  JS_SetPropertyStr obj "data" (JS_NewString (HttpResponse.data response)).

Definition head_response (response : HttpResponse.t) : JSValue :=
  let obj := JS_NewObject in
  let obj := JS_SetPropertyStr obj "status"
               (JS_NewInt32 (HttpResponse.responseCode response)) in
  JS_SetPropertyStr obj "headers" (headers_object (HttpResponse.headers response)).

Definition throw_type_error (msg : string) (ctx : JSContext E) : returned :=
  (JS_EXCEPTION, JS_ThrowTypeError E msg ctx).

(** The end of each function: the response object of the request, or
    the internal error its handler raises for an exception. *)
Definition respond (object : HttpResponse.t -> JSValue) (failure : string)
    (request : HttpRequest.t) (ctx : JSContext E) : returned :=
  match perform request with
  | Ok response => (object response, ctx)
  | Throw e => (JS_EXCEPTION, JS_ThrowInternalError E (failure +:+ what e) ctx)
  end.

Definition default_accept : string := "application/json, text/plain, */*".
Definition default_language : string := "zh-CN,zh;q=0.9,en;q=0.8".
Definition default_content_type : string := "application/json; charset=UTF-8".

(** [js_http_get] *)
Definition js_http_get (argv : list JSValue) (ctx : JSContext E) : returned :=
  match argv with
  | [] => throw_type_error "httpGet requires at least 1 argument" ctx
  | arg0 :: _ =>
      match JS_ToCString E arg0 ctx with
      | (None, ctx) => throw_type_error "URL must be a string" ctx
      | (Some url, ctx) =>
          let request :=
            {| HttpRequest.url := url; HttpRequest.method := "GET";
               HttpRequest.data := EmptyString;
               HttpRequest.headers :=
                 <["Accept-Language" := default_language]>
                   (<["Accept" := default_accept]> ∅);
               HttpRequest.timeout := 15000 |} in
          let '(request, ctx) := parse_headers (argv !! 1) request ctx in
          respond full_response "HTTP request failed: " request ctx
      end
  end.

(** [js_http_post] *)
Definition js_http_post (argv : list JSValue) (ctx : JSContext E) : returned :=
  match argv with
  | arg0 :: arg1 :: _ =>
      let '(url, ctx) := JS_ToCString E arg0 ctx in
      let '(data, ctx) := JS_ToCString E arg1 ctx in
      match url, data with
      | Some url, Some data =>
          let request :=
            {| HttpRequest.url := url; HttpRequest.method := "POST";
               HttpRequest.data := data;
               HttpRequest.headers :=
                 <["Accept-Language" := default_language]>
                   (<["Content-Type" := default_content_type]>
                      (<["Accept" := default_accept]> ∅));
               HttpRequest.timeout := 15000 |} in
          let '(request, ctx) := parse_headers (argv !! 2) request ctx in
          respond full_response "HTTP POST request failed: " request ctx
      | _, _ => throw_type_error "URL and data must be strings" ctx
      end
  | _ => throw_type_error "httpPost requires at least 2 arguments" ctx
  end.

(** [js_http_put] *)
Definition js_http_put (argv : list JSValue) (ctx : JSContext E) : returned :=
  match argv with
  | arg0 :: arg1 :: _ =>
      let '(url, ctx) := JS_ToCString E arg0 ctx in
      let '(data, ctx) := JS_ToCString E arg1 ctx in
      match url, data with
      | Some url, Some data =>
          let request :=
            {| HttpRequest.url := url; HttpRequest.method := "PUT";
               HttpRequest.data := data;
               HttpRequest.headers :=
                 <["Content-Type" := default_content_type]>
                   (<["Accept" := default_accept]> ∅);
               HttpRequest.timeout := 15000 |} in
          respond data_response "HTTP PUT request failed: " request ctx
      | _, _ => throw_type_error "URL and data must be strings" ctx
      end
  | _ => throw_type_error "httpPut requires at least 2 arguments" ctx
  end.

(** [js_http_delete] *)
Definition js_http_delete (argv : list JSValue) (ctx : JSContext E) : returned :=
  match argv with
  | [] => throw_type_error "httpDelete requires at least 1 argument" ctx
  | arg0 :: _ =>
      match JS_ToCString E arg0 ctx with
      | (None, ctx) => throw_type_error "URL must be a string" ctx
      | (Some url, ctx) =>
          let request :=
            {| HttpRequest.url := url; HttpRequest.method := "DELETE";
               HttpRequest.data := EmptyString; HttpRequest.headers := ∅;
               HttpRequest.timeout := 15000 |} in
          respond data_response "HTTP DELETE request failed: " request ctx
      end
  end.

(** [js_http_head] *)
Definition js_http_head (argv : list JSValue) (ctx : JSContext E) : returned :=
  match argv with
  | [] => throw_type_error "httpHead requires at least 1 argument" ctx
  | arg0 :: _ =>
      match JS_ToCString E arg0 ctx with
      | (None, ctx) => throw_type_error "URL must be a string" ctx
      | (Some url, ctx) =>
          let request :=
            {| HttpRequest.url := url; HttpRequest.method := "HEAD";
               HttpRequest.data := EmptyString; HttpRequest.headers := ∅;
               HttpRequest.timeout := 15000 |} in
          respond head_response "HTTP HEAD request failed: " request ctx
      end
  end.

(** [js_http_request] *)
Definition js_http_request (argv : list JSValue) (ctx : JSContext E) : returned :=
  match argv with
  | [] => throw_type_error "httpRequest requires an options object" ctx
  | options :: _ =>
      if negb (JS_IsObject options) then
        throw_type_error "httpRequest requires an options object" ctx
      else
        let '(urlVal, ctx) := JS_GetPropertyStr E options "url" ctx in
        let '(methodVal, ctx) := JS_GetPropertyStr E options "method" ctx in
        let '(dataVal, ctx) := JS_GetPropertyStr E options "data" ctx in
        let '(headersVal, ctx) := JS_GetPropertyStr E options "headers" ctx in
        let '(timeoutVal, ctx) := JS_GetPropertyStr E options "timeout" ctx in
        match JS_ToCString E urlVal ctx with
        | (None, ctx) => throw_type_error "URL is required" ctx
        | (Some url, ctx) =>
            let '(method, ctx) := JS_ToCString E methodVal ctx in
            let '(data, ctx) := JS_ToCString E dataVal ctx in
            let '(timeout, ctx) := JS_ToInt32 E timeoutVal ctx in
            let request :=
              {| HttpRequest.url := url;
                 HttpRequest.method :=
                   default (HttpRequest.method HttpRequest.init) method;
                 HttpRequest.data := default EmptyString data;
                 HttpRequest.headers := ∅;
                 HttpRequest.timeout :=
                   match timeout with
                   | Some t => if (0 <? wrap 32 t)%Z then wrap 32 t
                               else HttpRequest.timeout HttpRequest.init
                   | None => HttpRequest.timeout HttpRequest.init
                   end |} in
            let '(request, ctx) := parse_headers (Some headersVal) request ctx in
            respond full_response "HTTP request failed: " request ctx
        end
  end.

(** [js_http_get_async] *)
Definition js_http_get_async (argv : list JSValue) (ctx : JSContext E) : returned :=
  js_http_get argv ctx.

(** [js_http_post_async] *)
Definition js_http_post_async (argv : list JSValue) (ctx : JSContext E) : returned :=
  js_http_post argv ctx.

(** [initHttp]: the global names and the native function behind each. *)
Inductive http_name :=
| httpGet | httpPost | httpPut | httpDelete | httpHead | httpRequest
| httpGetAsync | httpPostAsync.

Definition initHttp (name : http_name) : list JSValue -> JSContext E -> returned :=
  match name with
  | httpGet => js_http_get
  | httpPost => js_http_post
  | httpPut => js_http_put
  | httpDelete => js_http_delete
  | httpHead => js_http_head
  | httpRequest => js_http_request
  | httpGetAsync => js_http_get_async
  | httpPostAsync => js_http_post_async
  end.

End Bridge.

(** The three shapes of a response object. *)
Inductive response_shape := FullResponse | DataResponse | HeadResponse.

Definition shape_of (name : http_name) : response_shape :=
  match name with
  | httpPut | httpDelete => DataResponse
  | httpHead => HeadResponse
  | _ => FullResponse
  end.

Definition response_object (sh : response_shape) (r : HttpResponse.t) : JSValue :=
  match sh with
  | FullResponse => full_response r
  | DataResponse => data_response r
  | HeadResponse => head_response r
  end.

(** The method of the request a function makes; [httpRequest] takes it
    from its options. *)
Definition verb (name : http_name) : option string :=
  match name with
  | httpGet | httpGetAsync => Some "GET"
  | httpPost | httpPostAsync => Some "POST"
  | httpPut => Some "PUT"
  | httpDelete => Some "DELETE"
  | httpHead => Some "HEAD"
  | httpRequest => None
  end.

(** The headers a function sets before it reads those of the caller. *)
Definition default_keys (name : http_name) : list string :=
  match name with
  | httpGet | httpGetAsync => ["Accept"; "Accept-Language"]
  | httpPost | httpPostAsync => ["Accept"; "Content-Type"; "Accept-Language"]
  | httpPut => ["Accept"; "Content-Type"]
  | httpDelete | httpHead | httpRequest => []
  end.

(** The text in front of [e.what()] in the internal error of a
    function. *)
Definition failure_text (name : http_name) : string :=
  match name with
  | httpGet | httpGetAsync | httpRequest => "HTTP request failed: "
  | httpPost | httpPostAsync => "HTTP POST request failed: "
  | httpPut => "HTTP PUT request failed: "
  | httpDelete => "HTTP DELETE request failed: "
  | httpHead => "HTTP HEAD request failed: "
  end.

(** **** The registry of contexts and the evaluation boundary *)

Section Registry.

Variable E : Engine.

(** [struct QuickJSContextWrapper]: the engine state behind the [runtime]
    and [context] pointers, and the flag. The mutex is not part of the
    sequential model. *)
Record QuickJSContextWrapper := {
  context : JSContext E;
  isValid : bool
}.

(** The globals [g_contexts] and [g_next_context_id]. *)
Record Registry := {
  g_contexts : gmap Z QuickJSContextWrapper;
  g_next_context_id : Z
}.

Definition initial : Registry :=
  {| g_contexts := ∅; g_next_context_id := 1 |}.

(** What [std::make_unique<QuickJSContextWrapper>()] gives under the lock:
    an exception, a wrapper whose constructor gave up ([None], [isValid]
    false), or a context with the console and HTTP functions installed. *)
Definition construction : Type := res (option (JSContext E)).

(** [createJSContext]; the increment of the 64 bit counter is written
    with its wrap-around. *)
Definition createJSContext (made : construction) (reg : Registry) : Z * Registry :=
  try_catch
    (do made <- made;
     match made with
     | None => Ok (0%Z, reg)
     | Some ctx =>
         let contextId := g_next_context_id reg in
         Ok (contextId,
             {| g_contexts :=
                  <[contextId := {| context := ctx; isValid := true |}]>
                    (g_contexts reg);
                g_next_context_id := wrap 64 (contextId + 1) |})
     end)
    (fun _ => (0%Z, reg)).

(** [destroyJSContext]; [lock] is the construction of the lock guard,
    which throws when the mutex cannot be taken: the handler logs the
    exception and the function returns with the registry as it was. *)
Definition destroyJSContext (lock : res unit) (context_id : Z) (reg : Registry)
  : Registry :=
  try_catch
    (do _ <- lock;
     match g_contexts reg !! context_id with
     | Some _ =>
         Ok {| g_contexts := delete context_id (g_contexts reg);
               g_next_context_id := g_next_context_id reg |}
     | None => Ok reg
     end)
    (fun _ => reg).

(** The wrapper of [context_id] with the state a call has left. *)
Definition store (context_id : Z) (ctx : JSContext E) (reg : Registry) : Registry :=
  {| g_contexts :=
       <[context_id := {| context := ctx; isValid := true |}]> (g_contexts reg);
     g_next_context_id := g_next_context_id reg |}.

(** [nativeEvaluateScript]; [lock] is the construction of the lock
    guards, which throws when the mutex cannot be taken. *)
Definition nativeEvaluateScript (lock : res unit) (context_id : Z)
    (scriptStr : string) (reg : Registry) : string * Registry :=
  try_catch
    (do _ <- lock;
     match g_contexts reg !! context_id with
     | None => Ok ("ERROR: Context not found", reg)
     | Some contextWrapper =>
         if negb (isValid contextWrapper) then Ok ("ERROR: Context is invalid", reg)
         else
           let '(result, ctx) := JS_Eval E scriptStr (context contextWrapper) in
           let '(resultStr, ctx) :=
             if JS_IsException result then
               let '(exception, ctx) := JS_GetException E ctx in
               let '(errorStr, ctx) := JS_ToCString E exception ctx in
               (match errorStr with
                | Some e => "ERROR: " +:+ e
                | None => "ERROR: Unknown JavaScript error"
                end, ctx)
             else if JS_IsUndefined result then (EmptyString, ctx)
             else
               let '(resultCStr, ctx) := JS_ToCString E result ctx in
               (default EmptyString resultCStr, ctx) in
           Ok (c_str resultStr, store context_id ctx reg)
     end)
    (fun e => (c_str ("ERROR: " +:+ what e), reg)).

(** [nativeCallFunction] *)
Definition nativeCallFunction (lock : res unit) (context_id : Z)
    (funcName argsStr : string) (reg : Registry) : string * Registry :=
  try_catch
    (do _ <- lock;
     match g_contexts reg !! context_id with
     | None => Ok ("ERROR: Context not found", reg)
     | Some contextWrapper =>
         if negb (isValid contextWrapper) then Ok ("ERROR: Context is invalid", reg)
         else
           let ctx := context contextWrapper in
           let global := JS_GetGlobalObject E ctx in
           let '(func, ctx) := JS_GetPropertyStr E global funcName ctx in
           if JS_IsUndefined func then
             Ok (c_str ("ERROR: Function not found: " +:+ funcName),
                 store context_id ctx reg)
           else
             let '(args, ctx) := JS_ParseJSON E argsStr ctx in
             if JS_IsException args then
               Ok ("ERROR: Invalid JSON arguments", store context_id ctx reg)
             else
               let '(result, ctx) := JS_Call E func JS_UNDEFINED [args] ctx in
               let '(resultStr, ctx) :=
                 if JS_IsException result then
                   let '(exception, ctx) := JS_GetException E ctx in
                   let '(errorStr, ctx) := JS_ToCString E exception ctx in
                   (match errorStr with
                    | Some e => "ERROR: " +:+ e
                    | None => "ERROR: Unknown function call error"
                    end, ctx)
                 else
                   let '(resultCStr, ctx) := JS_ToCString E result ctx in
                   (default EmptyString resultCStr, ctx) in
               Ok (c_str resultStr, store context_id ctx reg)
     end)
    (fun e => (c_str ("ERROR: " +:+ what e), reg)).

(** The conditions under which the boundary reports a fault. *)
Definition evaluate_fault (lock : res unit) (context_id : Z) (scriptStr : string)
    (reg : Registry) : Prop :=
  (exists e, lock = Throw e)
  \/ g_contexts reg !! context_id = None
  \/ (exists w, g_contexts reg !! context_id = Some w /\
        (isValid w = false
         \/ JS_IsException (fst (JS_Eval E scriptStr (context w))) = true)).

Definition call_fault (lock : res unit) (context_id : Z) (funcName argsStr : string)
    (reg : Registry) : Prop :=
  (exists e, lock = Throw e)
  \/ g_contexts reg !! context_id = None
  \/ (exists w, g_contexts reg !! context_id = Some w /\
        (isValid w = false
         \/ let ctx := context w in
            let found := JS_GetPropertyStr E (JS_GetGlobalObject E ctx) funcName ctx in
            JS_IsUndefined (fst found) = true
            \/ let parsed := JS_ParseJSON E argsStr (snd found) in
               JS_IsException (fst parsed) = true
               \/ JS_IsException
                    (fst (JS_Call E (fst found) JS_UNDEFINED [fst parsed] (snd parsed)))
                  = true)).

(** The invariant of the registry while the counter is at most [n]: the
    counter is positive, every identity in use is positive and below the
    counter, and every wrapper in the map is valid. *)
Definition registry_inv (reg : Registry) (n : Z) : Prop :=
  (1 <= g_next_context_id reg <= n)%Z /\
  forall id w, g_contexts reg !! id = Some w ->
    (1 <= id < g_next_context_id reg)%Z /\ isValid w = true.

(** The two entries of the boundary as one: what is asked of a context,
    the string that comes back, and the fault conditions. *)
Inductive request :=
| Script (scriptStr : string)
| Invoke (funcName argsStr : string).

Definition boundary (lock : res unit) (context_id : Z) (rq : request)
    (reg : Registry) : string * Registry :=
  match rq with
  | Script scriptStr => nativeEvaluateScript lock context_id scriptStr reg
  | Invoke funcName argsStr =>
      nativeCallFunction lock context_id funcName argsStr reg
  end.

Definition boundary_fault (lock : res unit) (context_id : Z) (rq : request)
    (reg : Registry) : Prop :=
  match rq with
  | Script scriptStr => evaluate_fault lock context_id scriptStr reg
  | Invoke funcName argsStr => call_fault lock context_id funcName argsStr reg
  end.

(** What a call on the context [id] may do to the registry: the counter
    stays, [id] is in the map after the call exactly when it was before,
    and every other entry is as it was. *)
Definition touches_only (id : Z) (reg reg' : Registry) : Prop :=
  g_next_context_id reg' = g_next_context_id reg /\
  (is_Some (g_contexts reg' !! id) <-> is_Some (g_contexts reg !! id)) /\
  forall id', id' <> id -> g_contexts reg' !! id' = g_contexts reg !! id'.

(** [nativeHasFunction] *)
Definition nativeHasFunction (lock : res unit) (context_id : Z)
    (funcName : string) (reg : Registry) : bool * Registry :=
  try_catch
    (do _ <- lock;
     match g_contexts reg !! context_id with
     | None => Ok (false, reg)
     | Some contextWrapper =>
         if negb (isValid contextWrapper) then Ok (false, reg)
         else
           let ctx := context contextWrapper in
           let global := JS_GetGlobalObject E ctx in
           let '(func, ctx) := JS_GetPropertyStr E global funcName ctx in
           let exists_ := negb (JS_IsUndefined func) in
           Ok (exists_, store context_id ctx reg)
     end)
    (fun _ => (false, reg)).

(** [JS_ComputeMemoryUsage] of quickjs.h, as the [memory_used_size] it
    fills in for the runtime of a context. *)
Variable JS_ComputeMemoryUsage : JSContext E -> Z.






End Registry.

(** **** A small engine and transport to run the definitions on

    The context is the list of the global functions defined so far; a
    script is either a definition [def NAME], the statement [throw] or an
    expression that evaluates to its own text. *)
Definition toy_eval (script : string) (ctx : list string) : JSValue * list string :=
  if String.eqb script "throw" then (JS_EXCEPTION, ctx)
  else if String.prefix "def " script
       then (JS_UNDEFINED, substr script 4 (String.length script - 4) :: ctx)
       else (JS_String script, ctx).

Definition toy_to_cstring (v : JSValue) (ctx : list string) : option string * list string :=
  match v with
  | JS_String s => (Some s, ctx)
  | JS_UNDEFINED => (Some "undefined", ctx)
  | JS_NULL => (Some "null", ctx)
  | JS_Object _ => (Some "[object Object]", ctx)
  | _ => (None, ctx)
  end.

Definition toy : Engine :=
  {| JSContext := list string;
     JSAtom := string;
     JS_Eval := toy_eval;
     JS_ParseJSON := fun text ctx =>
       if String.eqb text "[]" then (JS_Object [], ctx) else (JS_EXCEPTION, ctx);
     JS_Call := fun func this args ctx =>
       match func with
       | JS_String "fail" => (JS_EXCEPTION, ctx)
       | JS_String name => (JS_String (name +:+ " called"), ctx)
       | _ => (JS_EXCEPTION, ctx)
       end;
     JS_GetException := fun ctx => (JS_String "Error: thrown", ctx);
     JS_GetGlobalObject := fun ctx => JS_Ref 0;
     JS_GetPropertyStr := fun obj name ctx =>
       match obj with
       | JS_Object _ => (default JS_UNDEFINED (own_property obj name), ctx)
       | _ => if existsb (String.eqb name) ctx then (JS_String name, ctx)
              else (JS_UNDEFINED, ctx)
       end;
     JS_GetProperty := fun obj atom ctx =>
       (default JS_UNDEFINED (own_property obj atom), ctx);
     JS_GetOwnPropertyNames := fun obj ctx =>
       match obj with
       | JS_Object props => (Some (fst <$> props), ctx)
       | _ => (None, ctx)
       end;
     JS_AtomToString := fun atom ctx => (JS_String atom, ctx);
     JS_ToCString := toy_to_cstring;
     JS_ToInt32 := fun v ctx =>
       match v with JS_Int32 n => (Some n, ctx) | _ => (Some 0%Z, ctx) end;
     JS_ThrowTypeError := fun msg ctx => ctx;
     JS_ThrowInternalError := fun msg ctx => ctx |}.

(** A transport on which every request times out, and one on which the
    requests to one host time out and the others are answered with 200 and
    a body. *)
Definition curl_timeout : Curl :=
  {| curl_easy_init := true;
     curl_easy_perform := fun _ => ([], Ok 28%Z);
     CURLINFO_RESPONSE_CODE := fun _ => 0%Z;
     curl_easy_strerror := fun _ => "Timeout was reached" |}.

(** A transport that completes every transfer and reports no response
    code, as libcurl does for a transfer that is not HTTP. *)
Definition curl_no_status : Curl :=
  {| curl_easy_init := true;
     curl_easy_perform := fun _ => ([BodyChunk "hello"], Ok CURLE_OK);
     CURLINFO_RESPONSE_CODE := fun _ => 0%Z;
     curl_easy_strerror := fun _ => "No error" |}.

(** A transport that answers with four header lines and a body. *)
Definition curl_headers : Curl :=
  {| curl_easy_init := true;
     curl_easy_perform := fun _ =>
       ([HeaderLine "HTTP/1.1 200 OK"; HeaderLine "Server: nginx";
         HeaderLine "Connection: close"; HeaderLine "Content-Length: 2";
         HeaderLine "Date: today"; BodyChunk "ok"], Ok CURLE_OK);
     CURLINFO_RESPONSE_CODE := fun _ => 200%Z;
     curl_easy_strerror := fun _ => "No error" |}.

Definition curl_flaky : Curl :=
  {| curl_easy_init := true;
     curl_easy_perform := fun request =>
       if String.eqb (HttpRequest.url request) "https://down.test/"
       then ([], Ok 28%Z)
       else ([HeaderLine "Content-Type: text/plain"; BodyChunk "hello"], Ok CURLE_OK);
     CURLINFO_RESPONSE_CODE := fun _ => 200%Z;
     curl_easy_strerror := fun _ => "Timeout was reached" |}.

End QuickJS.

(** *** spider-bridge.cpp: the texts handed back to the caller *)

Module Json.

Import Spider.

(** A string between double quotes, written as it is: nothing is
    escaped. *)
Definition quoted (s : string) : string := DQ +:+ s +:+ DQ.

(** The loop that writes the elements of an array of strings, with a
    comma in front of every element but the first. *)
Fixpoint json_elements (first : bool) (l : list string) : string :=
  match l with
  | [] => EmptyString
  | x :: l' =>
      (if first then EmptyString else ",") +:+ quoted x +:+ json_elements false l'
  end.

Definition json_array (l : list string) : string :=
  "[" +:+ json_elements true l +:+ "]".

(** The loop that writes the members of the metadata object. *)
Fixpoint json_members (first : bool) (l : list (string * string)) : string :=
  match l with
  | [] => EmptyString
  | meta :: l' =>
      (if first then EmptyString else ",") +:+ quoted (fst meta) +:+ ":"
      +:+ quoted (snd meta) +:+ json_members false l'
  end.

(** [operator<<] for a [long]. *)
Definition decimal (z : Z) : string := NilZero.string_of_int (Z.to_int z).

(** [spiderResultToJson] *)
Definition spiderResultToJson (result : SpiderResult) : string :=
  "{"
  +:+ quoted "url" +:+ ":" +:+ quoted (url result) +:+ ","
  +:+ quoted "title" +:+ ":" +:+ quoted (title result) +:+ ","
  +:+ quoted "content" +:+ ":" +:+ quoted (content result) +:+ ","
  +:+ quoted "thumbnail" +:+ ":" +:+ quoted (thumbnail result) +:+ ","
  +:+ quoted "parseTime" +:+ ":" +:+ decimal (parseTime result) +:+ ","
  +:+ quoted "error" +:+ ":" +:+ quoted (error result) +:+ ","
  +:+ quoted "playUrls" +:+ ":" +:+ json_array (playUrls result) +:+ ","
  +:+ quoted "downloadUrls" +:+ ":" +:+ json_array (downloadUrls result) +:+ ","
  +:+ quoted "metadata" +:+ ":{"
  +:+ json_members true (in_key_order (metadata result)) +:+ "}"
  +:+ "}".

(** The text [nativeParse] returns: [NewStringUTF] reads the serialised
    record as a C string. *)
Definition nativeParse_text_with (what_of : exn -> string) (urlStr htmlStr : string)
    (elapsed : Z) (released : string) : string :=
  QuickJS.c_str
    (spiderResultToJson (nativeParse_with what_of urlStr htmlStr elapsed released)).

Definition nativeParse_text : string -> string -> Z -> string -> string :=
  nativeParse_text_with what.

(** The text [nativeExtractPlayUrls] returns. *)
Definition nativeExtractPlayUrls_text (urlStr htmlStr : string) : string :=
  QuickJS.c_str
    (try_catch
       (do playUrls <- extractPlayUrls htmlStr; Ok (json_array playUrls))
       (fun _ => "[]")).

(** No NUL character. *)
Definition no_nul (c : ascii) : bool := negb (Ascii.eqb c zero).

End Json.

(** ** Part II. Properties *)

Import Spider.
Import QuickJS.

(** *** Strings *)

Lemma prefix_app (p s : string) :
  String.prefix p s = true <-> exists post, s = p +:+ post.
Proof.
  revert s. induction p as [|c p IH]; intros s.
  - split; [intros _; exists s; reflexivity|]. intros _. destruct s; reflexivity.
  - destruct s as [|d s]; simpl.
    + split; [discriminate|]. intros [post H]. discriminate.
    + destruct (ascii_dec c d) as [->|Hne].
      * rewrite IH. split; intros [post H]; exists post; simpl in *; congruence.
      * split; [discriminate|]. intros [post H]. simpl in H. congruence.
Qed.

Lemma starts_with_spec (p s : string) :
  starts_with p s = true <-> exists post, s = p +:+ post.
Proof. apply prefix_app. Qed.

Lemma find_unfold (s sub : string) :
  find s sub =
  if String.prefix sub s then Some 0
  else match s with
       | EmptyString => None
       | String _ s' => option_map S (find s' sub)
       end.
Proof. destruct s; reflexivity. Qed.

Lemma find_is_Some (s sub : string) : is_Some (find s sub) <-> contains sub s.
Proof.
  unfold contains. induction s as [|c s IH]; rewrite find_unfold.
  - destruct (String.prefix sub EmptyString) eqn:Hp.
    + split; [|eauto]. intros _. apply prefix_app in Hp as [post Hp].
      exists EmptyString, post. exact Hp.
    + split; [intros [x Hx]; discriminate|].
      intros (pre & post & H). exfalso.
      destruct pre; [|discriminate]. simpl in H.
      assert (String.prefix sub EmptyString = true) as Ht
        by (apply prefix_app; eauto).
      congruence.
  - destruct (String.prefix sub (String c s)) eqn:Hp.
    + split; [|eauto]. intros _. apply prefix_app in Hp as [post Hp].
      exists EmptyString, post. exact Hp.
    + split.
      * intros Hs. destruct (find s sub) eqn:Hf; [|destruct Hs; discriminate].
        destruct IH as [IH _]. destruct IH as (pre & post & H); [eauto|].
        exists (String c pre), post. simpl. congruence.
      * intros (pre & post & H). destruct pre as [|d pre]; simpl in H.
        -- assert (String.prefix sub (String c s) = true) as Ht
             by (apply prefix_app; eauto).
           congruence.
        -- injection H as -> ->.
           destruct IH as [_ IH]. destruct IH as [i Hi]; [eauto|].
           rewrite Hi. simpl. eauto.
Qed.

(** *** C10: the validation of a play URL *)

(** C10. [nativeValidatePlayUrl] answers true exactly for the strings
    that begin with the four characters [http] and hold one of [.m3u8],
    [.mp4], [.flv], [.avi], [.mkv] anywhere: nothing asks for [://] after
    the prefix or for the extension to end the path. *)
Theorem C10_validate_play_url (s : string) :
  nativeValidatePlayUrl s = true <->
  (exists rest, s = "http" +:+ rest) /\
  (contains ".m3u8" s \/ contains ".mp4" s \/ contains ".flv" s
   \/ contains ".avi" s \/ contains ".mkv" s).
Proof.
  unfold nativeValidatePlayUrl.
  rewrite andb_true_iff, !orb_true_iff, !bool_decide_eq_true, !find_is_Some.
  rewrite starts_with_spec. tauto.
Qed.

Example validate_without_scheme : nativeValidatePlayUrl "httpx.mp4y" = true.
Proof. reflexivity. Qed.

Example validate_needs_prefix : nativeValidatePlayUrl "ftp://a/b.mp4" = false.
Proof. reflexivity. Qed.

(** *** C8: URL resolution *)

(** C8. [makeAbsoluteUrl] (the resolver; the base URL is the engine's
    member, the first argument here) satisfies the four equations: a
    root-relative candidate takes scheme and host of the base, a relative
    one the base up to its last slash, a protocol-relative one the scheme
    [https:] whatever the base, and an absolute one is unchanged whatever
    the base. *)
Theorem C8_resolution_equations :
  makeAbsoluteUrl "https://x.com/c/d" "/a/b.mp4" = Ok "https://x.com/a/b.mp4" /\
  makeAbsoluteUrl "https://x.com/c/d/" "e.mp4" = Ok "https://x.com/c/d/e.mp4" /\
  (forall base, makeAbsoluteUrl base "//cdn.com/f.mp4" = Ok "https://cdn.com/f.mp4") /\
  (forall base, makeAbsoluteUrl base "https://y.com/g.mp4" = Ok "https://y.com/g.mp4").
Proof.
  split; [vm_compute; reflexivity|].
  split; [vm_compute; reflexivity|].
  split; intros base; reflexivity.
Qed.

(** *** The patterns of the extractor *)

Lemma playUrl_patterns_compile :
  exists ps, sequence playUrl_patterns = Ok ps /\ length ps = 9.
Proof. vm_compute. eexists; split; reflexivity. Qed.

Lemma title_patterns_compile :
  exists ps, sequence title_patterns = Ok ps /\ length ps = 5.
Proof. vm_compute. eexists; split; reflexivity. Qed.

Lemma thumbnail_patterns_compile :
  exists ps, sequence thumbnail_patterns = Ok ps /\ length ps = 4.
Proof. vm_compute. eexists; split; reflexivity. Qed.

Lemma metadata_patterns_compile :
  exists ps, sequence (metadata_pattern <$> metadata_keys) = Ok ps /\ length ps = 6.
Proof. vm_compute. eexists; split; reflexivity. Qed.

(** The first download pattern compiles; each of the three [href]
    patterns throws, a sibling with its parenthesis closed (the [src]
    pattern of the play URLs) does not. *)
Lemma href_patterns_throw :
  map (fun r => match r with Ok _ => None | Throw e => Some e end)
    downloadUrl_patterns
  = [None; Some (regex_error error_paren); Some (regex_error error_paren);
     Some (regex_error error_paren)].
Proof. vm_compute. reflexivity. Qed.

Lemma downloadUrl_patterns_throw :
  sequence downloadUrl_patterns = Throw (regex_error error_paren).
Proof. vm_compute. reflexivity. Qed.

Lemma extractDownloadUrls_throws (html base : string) :
  extractDownloadUrls html base = Throw (regex_error error_paren).
Proof.
  unfold extractDownloadUrls. rewrite downloadUrl_patterns_throw. reflexivity.
Qed.

Lemma stripHtmlTags_ok (s : string) : exists r, stripHtmlTags s = Ok r.
Proof.
  unfold stripHtmlTags.
  destruct (std_regex "<[^>]*>" ECMAScript) as [re|e] eqn:H;
    [cbn [bind]; eauto | vm_compute in H; discriminate].
Qed.

Lemma isImageUrl_ok (u : string) : exists b, isImageUrl u = Ok b.
Proof.
  unfold isImageUrl.
  destruct (std_regex "\.(jpg|jpeg|png|gif|bmp|webp)(\?|$)" icase_flag)
    as [re|e] eqn:H; [cbn [bind]; eauto | vm_compute in H; discriminate].
Qed.

Lemma makeAbsoluteUrl_ok (base u : string) : exists r, makeAbsoluteUrl base u = Ok r.
Proof.
  unfold makeAbsoluteUrl.
  destruct (starts_with "http" u); [eauto|].
  destruct (starts_with "//" u); [eauto|].
  destruct (starts_with "/" u).
  - destruct (std_regex "https?://[^/]+" ECMAScript) as [re|e] eqn:H;
      [|vm_compute in H; discriminate].
    cbn [bind]. destruct (regex_search re base); [eauto|].
    destruct (find_last_of base "/"); eauto.
  - cbn [bind]. destruct (find_last_of base "/"); eauto.
Qed.

Lemma first_title_ok (html : string) (ps : list regex) :
  exists t, first_title html ps = Ok t.
Proof.
  induction ps as [|p ps IH]; cbn [first_title]; [eauto|].
  destruct (regex_search p html) as [m|]; [|exact IH].
  destruct (stripHtmlTags_ok (m_str m 1)) as [r ->]. cbn [bind].
  destruct (_ && _); eauto.
Qed.

Lemma extractTitle_ok (html : string) : exists t, extractTitle html = Ok t.
Proof.
  unfold extractTitle. destruct title_patterns_compile as (ps & -> & _).
  cbn [bind]. apply first_title_ok.
Qed.

Lemma first_thumbnail_ok (html base : string) (ps : list regex) :
  exists t, first_thumbnail html base ps = Ok t.
Proof.
  induction ps as [|p ps IH]; cbn [first_thumbnail]; [eauto|].
  destruct (regex_search p html) as [m|]; [|exact IH].
  destruct (isImageUrl_ok (m_str m 1)) as [b ->]. cbn [bind].
  destruct b; [apply makeAbsoluteUrl_ok | exact IH].
Qed.

Lemma extractThumbnail_ok (html base : string) :
  exists t, extractThumbnail html base = Ok t.
Proof.
  unfold extractThumbnail. destruct thumbnail_patterns_compile as (ps & -> & _).
  cbn [bind]. apply first_thumbnail_ok.
Qed.

Lemma extractPlayUrls_ok (html : string) : exists l, extractPlayUrls html = Ok l.
Proof.
  unfold extractPlayUrls. destruct playUrl_patterns_compile as (ps & -> & _).
  cbn [bind]. eauto.
Qed.

(** A page on which no pattern of the four working extractors matches:
    the title is the sentinel and the other fields are empty. *)
Lemma first_title_miss (html : string) (ps : list regex) :
  (forall re, re ∈ ps -> regex_search re html = None) ->
  first_title html ps = Ok unknown_title.
Proof.
  induction ps as [|p ps IH]; intros H; cbn [first_title]; [reflexivity|].
  rewrite (H p) by apply list_elem_of_here.
  apply IH. intros re Hre. apply H, list_elem_of_further, Hre.
Qed.

Lemma first_thumbnail_miss (html base : string) (ps : list regex) :
  (forall re, re ∈ ps -> regex_search re html = None) ->
  first_thumbnail html base ps = Ok EmptyString.
Proof.
  induction ps as [|p ps IH]; intros H; cbn [first_thumbnail]; [reflexivity|].
  rewrite (H p) by apply list_elem_of_here.
  apply IH. intros re Hre. apply H, list_elem_of_further, Hre.
Qed.

Lemma sregex_iterator_miss (re : regex) (html : string) :
  regex_search re html = None -> sregex_iterator re html = [].
Proof.
  intros H. unfold sregex_iterator.
  replace (2 * String.length html + 3) with (S (2 * String.length html + 2)) by lia.
  cbn [regex_iterator]. rewrite H. reflexivity.
Qed.

Lemma extractors_soft_miss (html base : string) :
  (forall re,
     re ∈ compiled title_patterns ++ compiled thumbnail_patterns
          ++ compiled playUrl_patterns
          ++ compiled (metadata_pattern <$> metadata_keys) ->
     regex_search re html = None) ->
  extractTitle html = Ok unknown_title /\
  extractThumbnail html base = Ok EmptyString /\
  extractPlayUrls html = Ok [] /\
  extractMetadata html = Ok ∅.
Proof.
  intros H. unfold compiled in H.
  unfold extractTitle, extractThumbnail, extractPlayUrls, extractMetadata.
  destruct title_patterns_compile as (ts & Hts & _).
  destruct thumbnail_patterns_compile as (hs & Hhs & _).
  destruct playUrl_patterns_compile as (ps & Hps & _).
  destruct metadata_patterns_compile as (ms & Hms & _).
  rewrite Hts, Hhs, Hps, Hms in *. cbn [bind].
  split; [apply first_title_miss; intros re Hre; apply H;
          rewrite !elem_of_app; tauto|].
  split; [apply first_thumbnail_miss; intros re Hre; apply H;
          rewrite !elem_of_app; tauto|].
  split.
  - f_equal.
    assert (forall re, re ∈ ps -> regex_search re html = None) as Hp
      by (intros re Hre; apply H; rewrite !elem_of_app; tauto).
    clear - Hp. induction ps as [|p ps IH]; [reflexivity|]. cbn [foldl].
    rewrite sregex_iterator_miss by apply Hp, list_elem_of_here.
    apply IH. intros re Hre. apply Hp, list_elem_of_further, Hre.
  - f_equal.
    assert (forall re, re ∈ ms -> regex_search re html = None) as Hm
      by (intros re Hre; apply H; rewrite !elem_of_app; tauto).
    clear - Hm. generalize metadata_keys as ks.
    induction ms as [|m ms IH]; intros ks; [destruct ks; reflexivity|].
    destruct ks as [|k ks]; [reflexivity|]. cbn [zip zip_with foldl snd fst].
    rewrite (Hm m) by apply list_elem_of_here.
    apply IH. intros re Hre. apply Hm, list_elem_of_further, Hre.
Qed.

(** Every call of [nativeParse] ends in its handler, with the exception
    of the pattern list of [extractDownloadUrls], whatever the texts of
    the standard library. *)
Lemma nativeParse_with_faults (what_of : exn -> string) (url html : string)
    (elapsed : Z) (released : string) :
  nativeParse_with what_of url html elapsed released =
  {| Spider.url := released; title := EmptyString; content := EmptyString;
     thumbnail := EmptyString; metadata := ∅; playUrls := [];
     downloadUrls := []; parseTime := elapsed;
     error := what_of (regex_error error_paren) |}.
Proof.
  unfold nativeParse_with.
  destruct (extractTitle_ok html) as [t ->].
  destruct (extractThumbnail_ok html url) as [th ->].
  destruct (extractPlayUrls_ok html) as [pl ->].
  cbn [bind]. rewrite extractDownloadUrls_throws. reflexivity.
Qed.

Lemma nativeParse_faults (url html : string) (elapsed : Z) (released : string) :
  nativeParse url html elapsed released =
  {| Spider.url := released; title := EmptyString; content := EmptyString;
     thumbnail := EmptyString; metadata := ∅; playUrls := [];
     downloadUrls := []; parseTime := elapsed;
     error := what (regex_error error_paren) |}.
Proof. apply nativeParse_with_faults. Qed.

(** *** C1 and C2: what [nativeParse] returns *)

(** C1. On a page with none of the recognised patterns the extractors of
    title, thumbnail, play URLs and metadata degrade to the sentinel and to
    empty values, but [extractDownloadUrls] throws while it builds its
    patterns, so [nativeParse] returns its fault record: the title is empty,
    not the sentinel, and the error field is set. *)
Theorem C1_plain_page_reports_a_fault (released : string) :
  extractTitle plain_html = Ok unknown_title /\
  extractThumbnail plain_html "https://x.com/" = Ok EmptyString /\
  extractPlayUrls plain_html = Ok [] /\
  extractMetadata plain_html = Ok ∅ /\
  extractDownloadUrls plain_html "https://x.com/" = Throw (regex_error error_paren) /\
  title (nativeParse "https://x.com/" plain_html 0 released) = EmptyString /\
  title (nativeParse "https://x.com/" plain_html 0 released) <> unknown_title /\
  error (nativeParse "https://x.com/" plain_html 0 released)
    = "The expression contained mismatched ( and )." /\
  error (nativeParse "https://x.com/" plain_html 0 released) <> EmptyString.
Proof.
  rewrite nativeParse_faults, extractDownloadUrls_throws.
  repeat split; try (vm_compute; reflexivity); discriminate.
Qed.

(** C2. On the demo page the title extractor gives [Demo] and the play
    URL extractor the one m3u8 address, but [nativeParse] returns its fault
    record, with an empty title and no play URL, because
    [extractDownloadUrls] throws. *)
Theorem C2_demo_page_reports_a_fault (url : string) (elapsed : Z)
    (released : string) :
  extractTitle demo_html = Ok "Demo" /\
  extractPlayUrls demo_html = Ok ["https://cdn.test/v.m3u8"] /\
  extractDownloadUrls demo_html url = Throw (regex_error error_paren) /\
  title (nativeParse url demo_html elapsed released) = EmptyString /\
  playUrls (nativeParse url demo_html elapsed released) = [] /\
  error (nativeParse url demo_html elapsed released) <> EmptyString.
Proof.
  rewrite nativeParse_faults, extractDownloadUrls_throws.
  repeat split; try (vm_compute; reflexivity); discriminate.
Qed.

(** *** C9: the functions with async in their name *)

(** A call of an HTTP function raises a type error for its arguments,
    or makes one request, whose outcome it returns: the request and the
    context it leaves do not depend on the transport. *)
Lemma initHttp_one_request (E : Engine) (name : http_name) (argv : list JSValue)
    (ctx : JSContext E) :
  (exists msg ctx', forall perform,
     initHttp E perform name argv ctx = throw_type_error E msg ctx')
  \/ exists rq ctx', forall perform,
       initHttp E perform name argv ctx
       = respond E perform (response_object (shape_of name)) (failure_text name)
           rq ctx'.
Proof.
  destruct name; cbn [initHttp shape_of response_object failure_text];
    unfold js_http_get_async, js_http_post_async, js_http_get, js_http_post,
      js_http_put, js_http_delete, js_http_head, js_http_request.
  all: repeat
    match goal with
    | |- context [match ?l with [] => _ | _ :: _ => _ end] =>
        destruct l; [left; eexists _, _; intros; reflexivity|]
    | |- context [match ?l with [] => _ | _ :: _ => _ end] =>
        destruct l; [|left; eexists _, _; intros; reflexivity]
    | |- context [JS_ToCString _ ?v ?c] =>
        destruct (JS_ToCString _ v c) as [[?|] ?]
    | |- context [JS_GetPropertyStr _ ?v ?k ?c] =>
        destruct (JS_GetPropertyStr _ v k c) as [? ?]
    | |- context [JS_ToInt32 _ ?v ?c] =>
        destruct (JS_ToInt32 _ v c) as [? ?]
    | |- context [parse_headers ?e ?a ?r ?c] =>
        destruct (parse_headers e a r c) as [? ?]
    | |- context [negb (JS_IsObject ?v)] => destruct (JS_IsObject v); cbn [negb]
    end;
    try (left; eexists _, _; intros; reflexivity);
    try (right; eexists _, _; intros; reflexivity).
Qed.

(** C9. For every engine, argument list and context state, and whatever
    the transport: [httpGetAsync] returns what [httpGet] returns and
    [httpPostAsync] what [httpPost] returns, the same value or the same
    raised error and the same context afterwards. Each of the two runs in
    the call itself: it raises the type error for its arguments, or it
    makes one request and returns only with its outcome, the response
    object that holds the status, data, content type and headers of the
    finished transfer, or the internal error when the transport throws;
    nothing is put off to a later time. *)
Theorem C9_async_is_sync (E : Engine) (argv : list JSValue) (ctx : JSContext E) :
  (forall perform,
     initHttp E perform httpGetAsync argv ctx = initHttp E perform httpGet argv ctx) /\
  (forall perform,
     initHttp E perform httpPostAsync argv ctx = initHttp E perform httpPost argv ctx) /\
  forall name, name = httpGetAsync \/ name = httpPostAsync ->
    (exists msg ctx', forall perform,
       initHttp E perform name argv ctx = (JS_EXCEPTION, JS_ThrowTypeError E msg ctx'))
    \/ exists rq ctx', forall perform,
         initHttp E perform name argv ctx
         = match perform rq with
           | Ok response =>
               (JS_Object
                  [("status", JS_Int32 (wrap 32 (HttpResponse.responseCode response)));
                   ("data", JS_String (c_str (HttpResponse.data response)));
                   ("contentType", JS_String (c_str (HttpResponse.contentType response)));
                   ("headers", headers_object (HttpResponse.headers response))],
                ctx')
           | Throw e =>
               (JS_EXCEPTION,
                JS_ThrowInternalError E (failure_text name +:+ what e) ctx')
           end.
Proof.
  split; [intros perform; reflexivity|]. split; [intros perform; reflexivity|].
  intros name Hname.
  destruct (initHttp_one_request E name argv ctx)
    as [(msg & ctx' & H)|(rq & ctx' & H)].
  - left. exists msg, ctx'. exact H.
  - right. exists rq, ctx'. intros perform. rewrite H. unfold respond.
    destruct (perform rq) as [response|e]; [|reflexivity].
    destruct Hname as [-> | ->]; reflexivity.
Qed.

(** *** C6: context identities *)

Lemma wrap_small (z : Z) :
  (- 2 ^ 63 <= z < 2 ^ 63)%Z -> wrap 64 z = z.
Proof.
  intros H. unfold wrap.
  change (2 ^ (64 - 1))%Z with (2 ^ 63)%Z.
  change (2 ^ 64)%Z with (2 * 2 ^ 63)%Z.
  rewrite Z.mod_small; lia.
Qed.

Section RegistryFacts.

Variable E : Engine.


Lemma initial_inv : registry_inv E (initial E) 1.
Proof.
  split; [simpl; lia|]. intros id w H. simpl in H.
  rewrite lookup_empty in H. discriminate.
Qed.


Lemma createJSContext_success (ctx : JSContext E) (reg : Registry E) :
  createJSContext E (Ok (Some ctx)) reg =
  (g_next_context_id E reg,
   {| g_contexts :=
        <[g_next_context_id E reg := {| context := ctx; isValid := true |}]>
          (g_contexts E reg);
      g_next_context_id := wrap 64 (g_next_context_id E reg + 1) |}).
Proof. reflexivity. Qed.


(** [destroyJSContext] takes the entry of the identity out when it has
    the lock, and changes nothing when it has not. *)
Lemma destroyJSContext_taken (id : Z) (reg : Registry E) :
  destroyJSContext E (Ok tt) id reg
  = {| g_contexts := delete id (g_contexts E reg);
       g_next_context_id := g_next_context_id E reg |}.
Proof.
  unfold destroyJSContext. cbn [bind]. destruct (g_contexts E reg !! id) eqn:Hid;
    cbn [try_catch]; [reflexivity|].
  rewrite delete_id by exact Hid. destruct reg; reflexivity.
Qed.

Lemma destroyJSContext_cases (lock : res unit) (id : Z) (reg : Registry E) :
  match lock with
  | Ok _ => destroyJSContext E lock id reg = destroyJSContext E (Ok tt) id reg
  | Throw _ => destroyJSContext E lock id reg = reg
  end.
Proof. destruct lock as [[]|e]; reflexivity. Qed.

Lemma destroyJSContext_counter (lock : res unit) (id : Z) (reg : Registry E) :
  g_next_context_id E (destroyJSContext E lock id reg) = g_next_context_id E reg.
Proof.
  destruct lock as [[]|e]; [rewrite destroyJSContext_taken|]; reflexivity.
Qed.


(** A call through the boundary leaves the registry as it was or stores
    the new state of a context that is in the map. *)
Lemma nativeEvaluateScript_registry lock id script (reg : Registry E) :
  snd (nativeEvaluateScript E lock id script reg) = reg \/
  exists w ctx, g_contexts E reg !! id = Some w /\
    snd (nativeEvaluateScript E lock id script reg) = store E id ctx reg.
Proof.
  unfold nativeEvaluateScript.
  destruct lock as [[]|e]; cbn [bind try_catch snd]; [|left; reflexivity].
  destruct (g_contexts E reg !! id) as [w|] eqn:Hw; [|left; reflexivity].
  destruct (isValid E w); cbn [negb]; [|left; reflexivity].
  right. exists w.
  destruct (JS_Eval E script (context E w)) as [result ctx].
  destruct (JS_IsException result).
  - destruct (JS_GetException E ctx) as [exception ctx1].
    destruct (JS_ToCString E exception ctx1) as [errorStr ctx2].
    cbn [snd]. eauto.
  - destruct (JS_IsUndefined result); cbn [snd]; [eauto|].
    destruct (JS_ToCString E result ctx) as [resultCStr ctx1].
    cbn [snd]. eauto.
Qed.

Lemma nativeCallFunction_registry lock id f args (reg : Registry E) :
  snd (nativeCallFunction E lock id f args reg) = reg \/
  exists w ctx, g_contexts E reg !! id = Some w /\
    snd (nativeCallFunction E lock id f args reg) = store E id ctx reg.
Proof.
  unfold nativeCallFunction.
  destruct lock as [[]|e]; cbn [bind try_catch snd]; [|left; reflexivity].
  destruct (g_contexts E reg !! id) as [w|] eqn:Hw; [|left; reflexivity].
  destruct (isValid E w); cbn [negb]; [|left; reflexivity].
  right. exists w. cbv zeta.
  destruct (JS_GetPropertyStr E _ f (context E w)) as [func ctx].
  destruct (JS_IsUndefined func); [cbn [snd]; eauto|].
  destruct (JS_ParseJSON E args ctx) as [parsed ctx1].
  destruct (JS_IsException parsed); [cbn [snd]; eauto|].
  destruct (JS_Call E func JS_UNDEFINED [parsed] ctx1) as [result ctx2].
  destruct (JS_IsException result).
  - destruct (JS_GetException E ctx2) as [exception ctx3].
    destruct (JS_ToCString E exception ctx3) as [errorStr ctx4].
    cbn [snd]. eauto.
  - destruct (JS_ToCString E result ctx2) as [resultCStr ctx3].
    cbn [snd]. eauto.
Qed.

Lemma nativeHasFunction_registry lock id f (reg : Registry E) :
  snd (nativeHasFunction E lock id f reg) = reg \/
  exists w ctx, g_contexts E reg !! id = Some w /\
    snd (nativeHasFunction E lock id f reg) = store E id ctx reg.
Proof.
  unfold nativeHasFunction.
  destruct lock as [[]|e]; cbn [bind try_catch snd]; [|left; reflexivity].
  destruct (g_contexts E reg !! id) as [w|] eqn:Hw; [|left; reflexivity].
  destruct (isValid E w); cbn [negb]; [|left; reflexivity].
  right. exists w. cbv zeta.
  destruct (JS_GetPropertyStr E _ f (context E w)) as [func ctx].
  cbn [snd]. eauto.
Qed.



End RegistryFacts.




(** *** C5: the evaluation boundary *)

Lemma c_str_error (s : string) :
  starts_with "ERROR:" (c_str ("ERROR: " +:+ s)) = true.
Proof. reflexivity. Qed.

Section BoundaryFacts.

Variable E : Engine.

Lemma nativeEvaluateScript_fault lock id script (reg : Registry E) :
  evaluate_fault E lock id script reg ->
  starts_with "ERROR:" (fst (nativeEvaluateScript E lock id script reg)) = true.
Proof.
  intros Hfault. unfold nativeEvaluateScript.
  destruct lock as [[]|e]; cbn [bind try_catch fst]; [|apply c_str_error].
  destruct Hfault as [[e He]|[Hnone|(w & Hw & Hcase)]]; [discriminate| |].
  - rewrite Hnone. reflexivity.
  - rewrite Hw. destruct (isValid E w); cbn [negb]; [|reflexivity].
    destruct Hcase as [Hinv|Hexc]; [discriminate|].
    destruct (JS_Eval E script (context E w)) as [result ctx].
    cbn [fst] in Hexc. rewrite Hexc.
    destruct (JS_GetException E ctx) as [exception ctx1].
    destruct (JS_ToCString E exception ctx1) as [[e|] ctx2]; reflexivity.
Qed.

Lemma nativeCallFunction_fault lock id f args (reg : Registry E) :
  call_fault E lock id f args reg ->
  starts_with "ERROR:" (fst (nativeCallFunction E lock id f args reg)) = true.
Proof.
  intros Hfault. unfold nativeCallFunction.
  destruct lock as [[]|e]; cbn [bind try_catch fst]; [|apply c_str_error].
  destruct Hfault as [[e He]|[Hnone|(w & Hw & Hcase)]]; [discriminate| |].
  - rewrite Hnone. reflexivity.
  - rewrite Hw. destruct (isValid E w); cbn [negb]; [|reflexivity].
    destruct Hcase as [Hinv|Hcase]; [discriminate|]. cbv zeta in Hcase |- *.
    destruct (JS_GetPropertyStr E _ f (context E w)) as [func ctx].
    cbn [fst snd] in Hcase.
    destruct (JS_IsUndefined func); [reflexivity|].
    destruct Hcase as [Hundef|Hcase]; [discriminate|].
    destruct (JS_ParseJSON E args ctx) as [parsed ctx1].
    cbn [fst snd] in Hcase.
    destruct (JS_IsException parsed); [reflexivity|].
    destruct Hcase as [Hparse|Hcall]; [discriminate|].
    destruct (JS_Call E func JS_UNDEFINED [parsed] ctx1) as [result ctx2].
    cbn [fst] in Hcall. rewrite Hcall.
    destruct (JS_GetException E ctx2) as [exception ctx3].
    destruct (JS_ToCString E exception ctx3) as [[e|] ctx4]; reflexivity.
Qed.

End BoundaryFacts.

(** C5. For every engine, registry, context identity and request (a
    script to evaluate, or a function name with its JSON arguments): when
    the identity is unknown, the context is invalid, the evaluation or the
    call raises a script exception, the function is not defined, the
    arguments do not parse, or a C++ exception is thrown inside the call,
    the string the boundary returns begins with [ERROR:]. The boundary is a
    total function to a string, no exception leaves it. *)
Theorem C5_boundary_reports_faults (E : Engine) (lock : res unit) (id : Z)
    (rq : request) (reg : Registry E) :
  boundary_fault E lock id rq reg ->
  starts_with "ERROR:" (fst (boundary E lock id rq reg)) = true.
Proof.
  destruct rq as [script|f args]; cbn [boundary_fault boundary].
  - apply nativeEvaluateScript_fault.
  - apply nativeCallFunction_fault.
Qed.

(** C5 on a registry with one context: a script that throws, a function
    that is not defined, and an identity that is not in use. *)
Lemma C5_boundary_reports_faults_witness :
  let reg := snd (createJSContext toy (Ok (Some [])) (initial toy)) in
  boundary_fault toy (Ok tt) 1 (Script "throw") reg /\
  boundary_fault toy (Ok tt) 1 (Invoke "main" "[]") reg /\
  boundary_fault toy (Ok tt) 7 (Script "1") reg /\
  fst (boundary toy (Ok tt) 1 (Script "throw") reg) = "ERROR: Error: thrown" /\
  starts_with "ERROR:" (fst (boundary toy (Ok tt) 1 (Invoke "main" "[]") reg)) = true /\
  starts_with "ERROR:" (fst (boundary toy (Ok tt) 7 (Script "1") reg)) = true.
Proof.
  intros reg.
  assert (boundary_fault toy (Ok tt) 1 (Script "throw") reg) as H1.
  { right; right. eexists. split; [vm_compute; reflexivity|]. right. reflexivity. }
  assert (boundary_fault toy (Ok tt) 1 (Invoke "main" "[]") reg) as H2.
  { right; right. eexists. split; [vm_compute; reflexivity|]. right. left.
    reflexivity. }
  assert (boundary_fault toy (Ok tt) 7 (Script "1") reg) as H3.
  { right; left. vm_compute. reflexivity. }
  refine (conj H1 (conj H2 (conj H3 (conj _ (conj _ _))))).
  - vm_compute. reflexivity.
  - exact (C5_boundary_reports_faults toy (Ok tt) 1 (Invoke "main" "[]") reg H2).
  - exact (C5_boundary_reports_faults toy (Ok tt) 7 (Script "1") reg H3).
Defined.

(** *** C7: transport faults in the HTTP functions *)

Lemma wrap32_small (z : Z) : (- 2 ^ 31 <= z < 2 ^ 31)%Z -> wrap 32 z = z.
Proof.
  intros H. unfold wrap.
  change (2 ^ (32 - 1))%Z with (2 ^ 31)%Z.
  change (2 ^ 32)%Z with (2 * 2 ^ 31)%Z.
  rewrite Z.mod_small; lia.
Qed.

Lemma performHttpRequest_fault (curl : Curl) (rq : HttpRequest.t) :
  transport_fails curl rq = true ->
  HttpResponse.responseCode (performHttpRequest curl rq) = (-1)%Z /\
  exists text,
    HttpResponse.data (performHttpRequest curl rq) = "ERROR: " +:+ text.
Proof.
  unfold transport_fails, performHttpRequest.
  destruct (curl_easy_init curl); cbn [negb orb].
  - destruct (curl_easy_perform curl rq) as [events [code|e]]; cbn [snd].
    + intros ->. split; [reflexivity|]. eexists. reflexivity.
    + intros _. split; [reflexivity|]. eexists. reflexivity.
  - intros _. split; [reflexivity|]. exists "Failed to initialize CURL".
    reflexivity.
Qed.

Lemma performHttpRequest_answer (curl : Curl) (rq : HttpRequest.t) :
  transport_fails curl rq = false ->
  HttpResponse.responseCode (performHttpRequest curl rq)
  = CURLINFO_RESPONSE_CODE curl rq.
Proof.
  unfold transport_fails, performHttpRequest.
  destruct (curl_easy_init curl); cbn [negb orb]; [|discriminate].
  destruct (curl_easy_perform curl rq) as [events [code|e]]; cbn [snd];
    [|discriminate].
  intros ->. reflexivity.
Qed.

Lemma response_status (sh : response_shape) (r : HttpResponse.t) :
  own_property (response_object sh r) "status"
  = Some (JS_NewInt32 (HttpResponse.responseCode r)).
Proof. destruct sh; reflexivity. Qed.

Lemma response_data (sh : response_shape) (r : HttpResponse.t) :
  own_property (response_object sh r) "data"
  = match sh with
    | HeadResponse => None
    | _ => Some (JS_NewString (HttpResponse.data r))
    end.
Proof. destruct sh; reflexivity. Qed.

Lemma response_error (sh : response_shape) (r : HttpResponse.t) :
  own_property (response_object sh r) "error" = None.
Proof. destruct sh; reflexivity. Qed.

Lemma response_object_not_exception (sh : response_shape) (r : HttpResponse.t) :
  JS_IsException (response_object sh r) = false.
Proof. destruct sh; reflexivity. Qed.

(** C7, counterexample. With the transport down, [httpHead] returns an
    object that has the status and the (empty) headers and neither a data
    nor an error property: there is no descriptive text in it. On a
    transport that completes the transfer and reports no response code,
    [httpGet] returns the status 0, which is not above 0 although nothing
    failed. In the build without libcurl, where nothing is transferred,
    [httpGet] returns the status 200. *)
Lemma C7_status_and_text_do_not_tell :
  let v := fst (initHttp toy (with_curl curl_timeout) httpHead
                  [JS_String "https://down.test/"] []) in
  let w := fst (initHttp toy (with_curl curl_no_status) httpGet
                  [JS_String "file:///etc/hosts"] []) in
  let s := fst (initHttp toy without_curl httpGet
                  [JS_String "https://down.test/"] []) in
  (forall rq, transport_fails curl_timeout rq = true) /\
  v = JS_Object [("status", JS_Int32 (-1)); ("headers", JS_Object [])] /\
  own_property v "data" = None /\
  own_property v "error" = None /\
  (forall rq, transport_fails curl_no_status rq = false) /\
  own_property w "status" = Some (JS_Int32 0) /\
  own_property w "data" = Some (JS_String "hello") /\
  own_property s "status" = Some (JS_Int32 200).
Proof.
  cbv zeta. split; [intros rq; reflexivity|].
  split; [vm_compute; reflexivity|].
  split; [vm_compute; reflexivity|].
  split; [vm_compute; reflexivity|].
  split; [intros rq; reflexivity|].
  repeat split; vm_compute; reflexivity.
Qed.

(** C7, amended. For each HTTP function installed in a context
    ([httpGet], [httpPost], [httpPut], [httpDelete], [httpHead],
    [httpRequest], [httpGetAsync], [httpPostAsync]): whether the call
    raises a script error depends on the arguments alone, never on the
    transport or on the build; and when it does not raise, the returned
    object is the response to one request and has no error property. In
    the build with libcurl, on a transport fault the status is -1 and the
    data property is a text that begins with [ERROR: ], except for
    [httpHead], whose object has no data property; and without a fault the
    status is the response code libcurl reports, as a 32 bit number, which
    is positive when that code is positive and below 2^31. In the build
    without libcurl the status is 200. *)
Theorem C7_transport_faults (E : Engine) (curl : Curl) (name : http_name)
    (argv : list JSValue) (ctx : JSContext E) :
  let v := fst (initHttp E (with_curl curl) name argv ctx) in
  let w := fst (initHttp E without_curl name argv ctx) in
  (forall curl',
     JS_IsException (fst (initHttp E (with_curl curl') name argv ctx))
     = JS_IsException v) /\
  JS_IsException w = JS_IsException v /\
  (JS_IsException v = false ->
   (exists rq,
      v = response_object (shape_of name) (performHttpRequest curl rq) /\
      own_property v "error" = None /\
      if transport_fails curl rq then
        own_property v "status" = Some (JS_Int32 (-1)) /\
        match name with
        | httpHead => own_property v "data" = None
        | _ => exists text, own_property v "data" = Some (JS_String text) /\
                 starts_with "ERROR: " text = true
        end
      else
        own_property v "status"
        = Some (JS_Int32 (wrap 32 (CURLINFO_RESPONSE_CODE curl rq))) /\
        ((0 < CURLINFO_RESPONSE_CODE curl rq < 2 ^ 31)%Z ->
         (0 < wrap 32 (CURLINFO_RESPONSE_CODE curl rq))%Z)) /\
   own_property w "status" = Some (JS_Int32 200) /\
   own_property w "error" = None).
Proof.
  intros v w.
  destruct (initHttp_one_request E name argv ctx)
    as [(msg & ctx' & H)|(rq & ctx' & H)].
  - subst v w. rewrite !H. cbn [throw_type_error fst JS_IsException].
    split; [intros curl'; rewrite H; reflexivity|].
    split; [reflexivity|discriminate].
  - assert (forall curl',
              fst (initHttp E (with_curl curl') name argv ctx)
              = response_object (shape_of name) (performHttpRequest curl' rq)) as Hrq
      by (intros curl'; rewrite H; reflexivity).
    assert (w = response_object (shape_of name) (performHttpRequest_stub rq)) as Hw
      by (subst w; rewrite H; reflexivity).
    assert (v = response_object (shape_of name) (performHttpRequest curl rq)) as Hv
      by apply Hrq.
    clearbody v w. subst v w.
    split; [intros curl'; rewrite Hrq, !response_object_not_exception;
            reflexivity|].
    split; [rewrite !response_object_not_exception; reflexivity|].
    intros _. rewrite !response_status, !response_error.
    split; [|split; reflexivity].
    exists rq. split; [reflexivity|]. split; [reflexivity|].
    destruct (transport_fails curl rq) eqn:Hfail.
    + destruct (performHttpRequest_fault curl rq Hfail) as [Hstatus [text Htext]].
      rewrite Hstatus. split; [reflexivity|].
      assert (own_property (response_object (shape_of name)
                              (performHttpRequest curl rq)) "data"
              = match shape_of name with
                | HeadResponse => None
                | _ => Some (JS_String (c_str ("ERROR: " +:+ text)))
                end) as Hdata.
      { rewrite response_data, Htext. destruct (shape_of name); reflexivity. }
      destruct name; cbn [shape_of] in Hdata |- *; try exact Hdata;
        (eexists; split;
         [exact Hdata|apply starts_with_spec; eexists; reflexivity]).
    + rewrite (performHttpRequest_answer curl rq Hfail).
      split; [reflexivity|]. intros Hcode. rewrite wrap32_small; lia.
Qed.

(** On a transport that times out for one host: the answers of [httpGet]
    to a request to that host and to another one. On a transport that
    answers with four headers: the headers of the response object, in the
    order of their names. *)
Example get_on_a_flaky_transport :
  fst (initHttp toy (with_curl curl_flaky) httpGet
         [JS_String "https://down.test/"] [])
  = JS_Object [("status", JS_Int32 (-1));
               ("data", JS_String "ERROR: Timeout was reached");
               ("contentType", JS_String EmptyString);
               ("headers", JS_Object [])] /\
  fst (initHttp toy (with_curl curl_flaky) httpGet
         [JS_String "https://up.test/"] [])
  = JS_Object [("status", JS_Int32 200);
               ("data", JS_String "hello");
               ("contentType", JS_String "text/plain");
               ("headers", JS_Object [("Content-Type", JS_String "text/plain")])] /\
  own_property
    (fst (initHttp toy (with_curl curl_headers) httpHead
            [JS_String "https://up.test/"] [])) "headers"
  = Some (JS_Object [("Connection", JS_String "close");
                     ("Content-Length", JS_String "2");
                     ("Date", JS_String "today");
                     ("Server", JS_String "nginx")]).
Proof. repeat split; vm_compute; reflexivity. Qed.

(** *** The matcher is sound for the words of a pattern *)

Lemma app_assoc_str (a b c : string) : (a +:+ b) +:+ c = a +:+ (b +:+ c).
Proof. induction a as [|x a IH]; simpl; [reflexivity|]. rewrite IH. reflexivity. Qed.

Lemma length_app_str (a b : string) :
  String.length (a +:+ b) = String.length a + String.length b.
Proof. induction a as [|x a IH]; simpl; [reflexivity|]. rewrite IH. reflexivity. Qed.

Lemma substring_app (w r : string) :
  String.substring 0 (String.length w) (w +:+ r) = w.
Proof.
  induction w as [|x w IH]; simpl.
  - destruct r; reflexivity.
  - rewrite IH. reflexivity.
Qed.

Lemma consumed_app (from to : mstate) (w : string) :
  rest from = w +:+ rest to -> consumed from to = w.
Proof.
  intros H. unfold consumed, substr. rewrite H, length_app_str.
  replace (String.length w + String.length (rest to) - String.length (rest to))
    with (String.length w) by lia.
  apply substring_app.
Qed.

Section Soundness.

Variable f : flags.

Lemma step_sound (p : ascii -> bool) (k : mstate -> option mstate)
    (st res : mstate) :
  step p k st = Some res ->
  exists x tl, rest st = String x tl /\ p x = true /\ k (advance st tl) = Some res.
Proof.
  unfold step. destruct (rest st) as [|x tl]; [discriminate|].
  destruct (p x) eqn:Hp; [|discriminate]. eauto.
Qed.

Lemma star_loop_sound (a : node) body gs :
  sound_for f a body ->
  forall k n st res, star_loop body gs k n st = Some res ->
    exists w st', rest st = w +:+ rest st' /\ Matches f (Star a) w (rest st') /\
                  k st' = Some res.
Proof.
  intros Hbody k n. induction n as [|n IH]; intros st res H; cbn [star_loop] in H.
  - exists EmptyString, st. split; [reflexivity|]. split; [constructor|exact H].
  - destruct (body _ (clear_caps gs st)) as [r|] eqn:Hiter.
    + injection H as ->.
      apply Hbody in Hiter as (w1 & st1 & Hrest1 & Hm1 & Hk).
      destruct (_ <? _); [|discriminate].
      apply IH in Hk as (w2 & st' & Hrest2 & Hm2 & Hk).
      exists (w1 +:+ w2), st'. cbn [clear_caps rest] in Hrest1.
      split; [rewrite Hrest1, Hrest2, app_assoc_str; reflexivity|].
      split; [|exact Hk]. apply M_StarS; [rewrite <- Hrest2; exact Hm1|exact Hm2].
    + exists EmptyString, st. split; [reflexivity|]. split; [constructor|exact H].
Qed.

Theorem m_node_sound (r : node) : sound_for f r (m_node f r).
Proof.
  induction r as [| c | | negated items | | a IHa b IHb | a IHa b IHb | i a IHa | a IHa];
    intros k st res H; cbn [m_node] in H.
  - exists EmptyString, st. split; [reflexivity|]. split; [constructor|exact H].
  - apply step_sound in H as (x & tl & Hrest & Hp & Hk).
    exists (String x EmptyString), (advance st tl).
    split; [exact Hrest|]. split; [constructor; exact Hp|exact Hk].
  - apply step_sound in H as (x & tl & Hrest & Hp & Hk).
    exists (String x EmptyString), (advance st tl).
    split; [exact Hrest|]. split; [|exact Hk].
    constructor. destruct (is_line_terminator x); [discriminate|reflexivity].
  - apply step_sound in H as (x & tl & Hrest & Hp & Hk).
    exists (String x EmptyString), (advance st tl).
    split; [exact Hrest|]. split; [constructor; exact Hp|exact Hk].
  - destruct (rest st) eqn:Hrest; [|discriminate]. cbn [is_empty] in H.
    exists EmptyString, st. split; [rewrite Hrest; reflexivity|].
    split; [rewrite Hrest; constructor|exact H].
  - apply IHa in H as (w1 & st1 & Hrest1 & Hm1 & Hk).
    apply IHb in Hk as (w2 & st' & Hrest2 & Hm2 & Hk).
    exists (w1 +:+ w2), st'.
    split; [rewrite Hrest1, Hrest2, app_assoc_str; reflexivity|].
    split; [|exact Hk]. constructor; [rewrite <- Hrest2; exact Hm1|exact Hm2].
  - destruct (m_node f a k st) as [r|] eqn:Ha.
    + injection H as ->. apply IHa in Ha as (w & st' & Hrest & Hm & Hk).
      exists w, st'. split; [exact Hrest|]. split; [apply M_AltL, Hm|exact Hk].
    + apply IHb in H as (w & st' & Hrest & Hm & Hk).
      exists w, st'. split; [exact Hrest|]. split; [apply M_AltR, Hm|exact Hk].
  - apply IHa in H as (w & st' & Hrest & Hm & Hk).
    exists w, (set_cap i st st'). cbn [set_cap rest].
    split; [exact Hrest|]. split; [constructor; exact Hm|exact Hk].
  - apply (star_loop_sound a _ _ IHa) in H. exact H.
Qed.

End Soundness.

(** One attempt: the match is a word of the pattern in front of the
    suffix. *)
Lemma match_at_sound (re : regex) (not_null : bool) (s : string) (m : smatch) :
  match_at re not_null s = Some m ->
  s = m_whole m +:+ m_suffix m /\
  Matches (re_flags re) (re_node re) (m_whole m) (m_suffix m).
Proof.
  unfold match_at. destruct (m_node _ _ _ _) as [st|] eqn:H; [|discriminate].
  intros [= <-]. cbn [m_whole m_suffix].
  apply m_node_sound in H as (w & st' & Hrest & Hm & Hk).
  cbn [rest] in Hrest.
  destruct (_ && _); [discriminate|]. injection Hk as ->.
  rewrite (consumed_app {| rest := s; caps := ∅ |} st w Hrest).
  split; assumption.
Qed.

(** One attempt of a pattern that is one group: the first sub-match is
    the whole match. *)
Lemma match_at_group (re : regex) (i : nat) (body : node) (not_null : bool)
    (s : string) (m : smatch) :
  re_node re = Seq (Group i body) Empty ->
  match_at re not_null s = Some m ->
  exists w s', Matches (re_flags re) body w s' /\ m_sub m !! i = Some w.
Proof.
  intros Hnode. unfold match_at. rewrite Hnode.
  destruct (m_node _ _ _ _) as [st|] eqn:H; [|discriminate].
  intros [= <-]. cbn [m_sub]. cbn [m_node] in H.
  apply m_node_sound in H as (w & st' & Hrest & Hm & Hk).
  destruct (_ && _); [discriminate|]. injection Hk as <-.
  exists w, (rest st'). split; [exact Hm|].
  cbn [set_cap caps]. rewrite lookup_insert_eq.
  f_equal. apply consumed_app, Hrest.
Qed.

Lemma from_attempt_with_prefix (re : regex) (c : ascii) (m : smatch) :
  from_attempt re m -> from_attempt re (with_prefix c m).
Proof. intros (nn & s & m' & H). exists nn, s, m'. exact H. Qed.

Lemma regex_search_from_attempt (re : regex) (s : string) (m : smatch) :
  regex_search re s = Some m -> from_attempt re m.
Proof.
  revert m. induction s as [|c s IH]; intros m; cbn [regex_search].
  - destruct (match_at re false EmptyString) as [m'|] eqn:H; [|discriminate].
    intros [= <-]. exists false, EmptyString, m'. auto.
  - destruct (match_at re false (String c s)) as [m'|] eqn:H.
    + intros [= <-]. exists false, (String c s), m'. auto.
    + destruct (regex_search re s) as [m'|]; [|discriminate].
      intros [= <-]. apply from_attempt_with_prefix, IH. reflexivity.
Qed.

Lemma regex_iterator_from_attempt (re : regex) (fuel : nat) (after_empty : bool)
    (s : string) (m : smatch) :
  In m (regex_iterator fuel re after_empty s) -> from_attempt re m.
Proof.
  revert after_empty s. induction fuel as [|fuel IH]; intros after_empty s;
    cbn [regex_iterator]; [intros []|].
  destruct after_empty.
  - destruct s as [|c s]; [intros []|].
    destruct (match_at re true (String c s)) as [m'|] eqn:H.
    + intros [<-|Hin]; [exists true, (String c s), m'; auto|eapply IH, Hin].
    + destruct (regex_search re s) as [m'|] eqn:Hs; [|intros []].
      intros [<-|Hin]; [|eapply IH, Hin].
      apply from_attempt_with_prefix, (regex_search_from_attempt re s), Hs.
  - destruct (regex_search re s) as [m'|] eqn:Hs; [|intros []].
    intros [<-|Hin]; [|eapply IH, Hin].
    apply (regex_search_from_attempt re s), Hs.
Qed.

Lemma from_attempt_whole (re : regex) (m : smatch) :
  from_attempt re m ->
  Matches (re_flags re) (re_node re) (m_whole m) (m_suffix m).
Proof.
  intros (nn & s & m' & H & -> & _ & ->). apply (match_at_sound re nn s m' H).
Qed.

Lemma from_attempt_group (re : regex) (i : nat) (body : node) (m : smatch) :
  re_node re = Seq (Group i body) Empty -> from_attempt re m ->
  exists w s', Matches (re_flags re) body w s' /\ m_sub m !! i = Some w.
Proof.
  intros Hnode (nn & s & m' & H & _ & -> & _).
  apply (match_at_group re i body nn s m' Hnode H).
Qed.

(** *** C4: de-duplication *)

Lemma not_found_spec (urls : list string) (u : string) :
  not_found urls u = true <-> u ∉ urls.
Proof.
  unfold not_found. rewrite negb_true_iff, <- not_true_iff_false, existsb_exists.
  split.
  - intros H Hin. apply H. exists u. split; [apply list_elem_of_In, Hin|].
    apply String.eqb_refl.
  - intros H (x & Hin & Heq). apply String.eqb_eq in Heq as <-.
    apply H, list_elem_of_In, Hin.
Qed.

Lemma first_occurrences_elem (l : list string) (x : string) :
  x ∈ first_occurrences l <-> x ∈ l.
Proof.
  induction l as [|y l IH]; cbn [first_occurrences]; [reflexivity|].
  rewrite !elem_of_cons, list_elem_of_filter, IH.
  destruct (decide (x = y)); tauto.
Qed.


Lemma foldl_push (acc l : list string) :
  foldl push acc l = acc ++ filter (fun y => y ∉ acc) (first_occurrences l).
Proof.
  revert acc. induction l as [|x l IH]; intros acc; cbn [foldl first_occurrences].
  - rewrite filter_nil, app_nil_r. reflexivity.
  - rewrite IH. unfold push. destruct (not_found acc x) eqn:Hx.
    + apply not_found_spec in Hx. rewrite filter_cons_True by exact Hx.
      rewrite <- app_assoc. cbn [app]. do 2 f_equal.
      rewrite list_filter_filter. apply list_filter_iff. intros y.
      rewrite elem_of_app, elem_of_cons, elem_of_nil. tauto.
    + assert (x ∈ acc) as Hin.
      { destruct (decide (x ∈ acc)) as [|Hn]; [assumption|].
        apply not_found_spec in Hn. congruence. }
      rewrite filter_cons_False by tauto. f_equal.
      rewrite list_filter_filter. apply list_filter_iff. intros y.
      split; [|tauto]. intros Hy. split; [exact Hy|]. intros ->. tauto.
Qed.

Lemma foldl_push_nil (l : list string) : foldl push [] l = first_occurrences l.
Proof.
  rewrite foldl_push. cbn [app].
  induction (first_occurrences l) as [|x k IH]; [reflexivity|].
  rewrite filter_cons_True by apply not_elem_of_nil. rewrite IH. reflexivity.
Qed.

Lemma collect_play_push (urls : list string) (ms : list smatch) :
  collect_play urls ms = foldl push urls ((fun m => m_str m 1) <$> ms).
Proof. unfold collect_play. rewrite foldl_fmap. reflexivity. Qed.

Lemma collect_play_all (html : string) (ps : list regex) (acc : list string) :
  foldl (fun urls pattern => collect_play urls (sregex_iterator pattern html))
    acc ps
  = foldl push acc (candidates ps html).
Proof.
  revert acc. induction ps as [|p ps IH]; intros acc; [reflexivity|].
  cbn [foldl]. rewrite IH, collect_play_push. unfold candidates.
  cbn [fmap list_fmap concat]. rewrite foldl_app. reflexivity.
Qed.

(** The play URLs are the candidates cut down to their first
    occurrences. *)
Lemma extractPlayUrls_first_occurrences (html : string) :
  extractPlayUrls html = Ok (first_occurrences (play_candidates html)).
Proof.
  unfold extractPlayUrls, play_candidates, compiled.
  destruct playUrl_patterns_compile as (ps & -> & _). cbn [bind].
  rewrite collect_play_all, foldl_push_nil. reflexivity.
Qed.


(** The loop of [extractDownloadUrls] is never reached. Run by itself on
    the two matches of the one download pattern that compiles, it pushes
    the resolved address twice, because it looks for the captured text
    among the resolved entries. *)
Example collect_download_on_a_repeated_name :
  extractDownloadUrls repeated_download_html "https://x.com/"
    = Throw (regex_error error_paren) /\
  exists re,
    downloadUrl_patterns !! 0 = Some (Ok re) /\
    captures re repeated_download_html = ["/a.mp4"; "/a.mp4"] /\
    collect_download "https://x.com/" []
      (sregex_iterator re repeated_download_html)
    = Ok ["https://x.com/a.mp4"; "https://x.com/a.mp4"].
Proof.
  split; [apply extractDownloadUrls_throws|].
  eexists. split; [vm_compute; reflexivity|].
  split; vm_compute; reflexivity.
Qed.

(** *** C3: absolute URLs *)

Lemma absolute_app (a b : string) : absolute a -> absolute (a +:+ b).
Proof.
  intros [H|H]; apply starts_with_spec in H as [post ->]; [left|right];
    apply starts_with_spec; exists (post +:+ b); reflexivity.
Qed.

Lemma absolute_http (u : string) : absolute u -> starts_with "http" u = true.
Proof.
  intros [H|H]; apply starts_with_spec in H as [post ->]; reflexivity.
Qed.

Lemma Matches_char_seq (c : ascii) (r : node) (w s : string) :
  Matches ECMAScript (Seq (Char c) r) w s ->
  exists w', w = String c w' /\ Matches ECMAScript r w' s.
Proof.
  intros H. inversion H as [| | | | |a b w1 w2 s' Ha Hb| | | | |]; subst.
  inversion Ha as [|c' x s' Hx| | | | | | | | |]; subst.
  unfold char_matches, translate in Hx. cbn [icase ECMAScript] in Hx.
  apply Ascii.eqb_eq in Hx as <-. exists w2. split; [reflexivity|exact Hb].
Qed.

Lemma Matches_opt_char_seq (c : ascii) (r : node) (w s : string) :
  Matches ECMAScript (Seq (Alt (Char c) Empty) r) w s ->
  (exists w', w = String c w' /\ Matches ECMAScript r w' s)
  \/ Matches ECMAScript r w s.
Proof.
  intros H. inversion H as [| | | | |a b w1 w2 s' Ha Hb| | | | |]; subst.
  inversion Ha as [| | | | | |a b w s' Hl|a b w s' Hr| | |]; subst.
  - inversion Hl as [|c' x s' Hx| | | | | | | | |]; subst.
    unfold char_matches, translate in Hx. cbn [icase ECMAScript] in Hx.
    apply Ascii.eqb_eq in Hx as <-. left. exists w2. split; [reflexivity|exact Hb].
  - inversion Hr; subst. right. exact Hb.
Qed.

(** Every word of [https?://...] is an absolute URL. *)
Lemma scheme_then_absolute (tail : node) (w s : string) :
  Matches ECMAScript (scheme_then tail) w s -> absolute w.
Proof.
  unfold scheme_then. intros H.
  apply Matches_char_seq in H as (w1 & -> & H).
  apply Matches_char_seq in H as (w2 & -> & H).
  apply Matches_char_seq in H as (w3 & -> & H).
  apply Matches_char_seq in H as (w4 & -> & H).
  apply Matches_opt_char_seq in H as [(w5 & -> & H)|H].
  - apply Matches_char_seq in H as (w6 & -> & H).
    apply Matches_char_seq in H as (w7 & -> & H).
    apply Matches_char_seq in H as (w8 & -> & H).
    right. apply starts_with_spec. eexists. reflexivity.
  - apply Matches_char_seq in H as (w6 & -> & H).
    apply Matches_char_seq in H as (w7 & -> & H).
    apply Matches_char_seq in H as (w8 & -> & H).
    left. apply starts_with_spec. eexists. reflexivity.
Qed.

(** The five bare patterns are one group around [https?://...]. *)
Lemma bare_patterns_shape (re : regex) :
  re ∈ take 5 (compiled playUrl_patterns) ->
  re_flags re = ECMAScript /\
  exists tail, re_node re = Seq (Group 1 (scheme_then tail)) Empty.
Proof.
  intros H. apply list_elem_of_In in H. vm_compute in H.
  repeat (destruct H as [<-|H]; [split; [reflexivity|eexists; reflexivity]|]).
  destruct H.
Qed.

Lemma captures_from_attempt (re : regex) (html u : string) :
  u ∈ captures re html ->
  exists m, from_attempt re m /\ u = m_str m 1.
Proof.
  unfold captures, sregex_iterator. intros H.
  apply list_elem_of_fmap in H as (m & -> & Hm). exists m. split; [|reflexivity].
  apply list_elem_of_In in Hm. eapply regex_iterator_from_attempt, Hm.
Qed.

Lemma candidates_elem (ps : list regex) (html u : string) :
  u ∈ candidates ps html <-> exists re, re ∈ ps /\ u ∈ captures re html.
Proof.
  unfold candidates. rewrite list_elem_of_In, in_concat. split.
  - intros (l & Hl & Hu). apply list_elem_of_In, list_elem_of_fmap in Hl
      as (re & -> & Hre).
    exists re. split; [exact Hre|apply list_elem_of_In, Hu].
  - intros (re & Hre & Hu). exists (captures re html).
    split; [|apply list_elem_of_In, Hu].
    apply list_elem_of_In, list_elem_of_fmap. eauto.
Qed.

Lemma bare_candidates_absolute (html u : string) :
  u ∈ bare_candidates html -> absolute u.
Proof.
  unfold bare_candidates. rewrite candidates_elem. intros (re & Hre & Hu).
  apply bare_patterns_shape in Hre as (Hflags & tail & Hnode).
  apply captures_from_attempt in Hu as (m & Hm & ->).
  apply (from_attempt_group re 1 _ m Hnode) in Hm as (w & s' & Hw & Hsub).
  cbn [m_str]. rewrite Hsub. cbn [default]. rewrite Hflags in Hw.
  eapply scheme_then_absolute, Hw.
Qed.

Lemma play_candidates_split (html : string) :
  play_candidates html = bare_candidates html ++ attribute_candidates html.
Proof.
  unfold play_candidates, bare_candidates, attribute_candidates, candidates.
  rewrite <- concat_app, <- fmap_app, take_drop. reflexivity.
Qed.

(** A play URL is absolute or the capture of a [src] or [url] pattern. *)
Lemma extractPlayUrls_entries (html : string) (l : list string) (u : string) :
  extractPlayUrls html = Ok l -> u ∈ l ->
  absolute u \/ u ∈ attribute_candidates html.
Proof.
  rewrite extractPlayUrls_first_occurrences. intros Heq.
  assert (l = first_occurrences (play_candidates html)) as -> by congruence.
  clear Heq.
  rewrite first_occurrences_elem, play_candidates_split, elem_of_app.
  intros [H|H]; [left; apply (bare_candidates_absolute html), H|right; exact H].
Qed.

(** The base of an absolute page URL up to its last slash is absolute. *)
Lemma find_last_of_absolute (base : string) :
  absolute base ->
  exists i, find_last_of base "/" = Some i /\ absolute (substr base 0 (i + 1)).
Proof.
  intros [H|H]; apply starts_with_spec in H as [post ->]; cbn;
    destruct (find_last_of post "/") as [j|]; eexists; (split; [reflexivity|]).
  - left. apply starts_with_spec. rewrite Nat.add_1_r. cbn. eexists. reflexivity.
  - left. apply starts_with_spec. cbn. eexists. reflexivity.
  - right. apply starts_with_spec. rewrite Nat.add_1_r. cbn. eexists. reflexivity.
  - right. apply starts_with_spec. cbn. eexists. reflexivity.
Qed.

(** The pattern that takes scheme and host from the base is
    [https?://...] as a whole. *)
Lemma domainRegex_shape :
  exists re tail,
    std_regex "https?://[^/]+" ECMAScript = Ok re /\
    re_flags re = ECMAScript /\ re_node re = scheme_then tail.
Proof. vm_compute. do 2 eexists. repeat split. Qed.

(** Resolution against an absolute base gives a string that begins with
    [http], and an absolute URL unless the candidate itself begins with
    [http] without being absolute. *)
Lemma makeAbsoluteUrl_absolute (base u r : string) :
  absolute base -> makeAbsoluteUrl base u = Ok r ->
  starts_with "http" r = true /\
  (starts_with "http" u = false \/ absolute u -> absolute r).
Proof.
  intros Hbase. unfold makeAbsoluteUrl.
  destruct (starts_with "http" u) eqn:Hhttp.
  { intros [= <-]. split; [exact Hhttp|]. intros [|]; [discriminate|assumption]. }
  destruct (starts_with "//" u) eqn:Hrel.
  { intros [= <-]. apply starts_with_spec in Hrel as [post ->].
    split; [reflexivity|]. intros _. right. apply starts_with_spec.
    exists post. reflexivity. }
  assert (forall a, absolute a ->
            starts_with "http" (a +:+ u) = true /\
            (false = false \/ absolute u -> absolute (a +:+ u))) as Hdone.
  { intros a Ha. split; [apply absolute_http, absolute_app, Ha|].
    intros _. apply absolute_app, Ha. }
  destruct (find_last_of_absolute base Hbase) as (i & Hlast & Hprefix).
  destruct (starts_with "/" u).
  - destruct domainRegex_shape as (re & tail & -> & Hflags & Hnode).
    cbn [bind]. destruct (regex_search re base) as [m|] eqn:Hsearch.
    + intros [= <-]. apply Hdone. cbn [m_str].
      apply regex_search_from_attempt, from_attempt_whole in Hsearch.
      rewrite Hflags, Hnode in Hsearch. eapply scheme_then_absolute, Hsearch.
    + rewrite Hlast. intros [= <-]. apply Hdone, Hprefix.
  - cbn [bind]. rewrite Hlast. intros [= <-]. apply Hdone, Hprefix.
Qed.

Lemma first_thumbnail_resolved (html base : string) (ps : list regex) (t : string) :
  first_thumbnail html base ps = Ok t ->
  t = EmptyString \/ exists cand, makeAbsoluteUrl base cand = Ok t.
Proof.
  induction ps as [|p ps IH]; cbn [first_thumbnail].
  - intros [= <-]. left. reflexivity.
  - destruct (regex_search p html) as [m|]; [|exact IH].
    destruct (isImageUrl_ok (m_str m 1)) as [b ->]. cbn [bind].
    destruct b; [|exact IH]. intros H. right. eauto.
Qed.

(** The extractors by themselves: a play URL that one of the [src]
    patterns captured is relative, and so is a thumbnail whose file name
    happens to begin with [http], which the resolver returns as it is. *)
Example relative_urls_are_extracted :
  nativeExtractPlayUrls "https://x.com/page" relative_video_html = ["/v/a.m3u8"] /\
  extractPlayUrls relative_video_html = Ok ["/v/a.m3u8"] /\
  starts_with "http://" "/v/a.m3u8" = false /\
  starts_with "https://" "/v/a.m3u8" = false /\
  extractThumbnail
    ("<img src=" +:+ DQ +:+ "http-cover.png" +:+ DQ +:+ ">") "https://x.com/page"
    = Ok "http-cover.png" /\
  starts_with "http://" "http-cover.png" = false /\
  starts_with "https://" "http-cover.png" = false.
Proof. repeat split; vm_compute; reflexivity. Qed.


Import Json.

(** *** The runs of the matcher and their sub-matches *)

Section Runs.

Variable f : flags.

Lemma star_loop_runs (a : node) :
  (forall k st res, m_node f a k st = Some res ->
     exists st', Run f a st st' /\ k st' = Some res) ->
  forall k n st res, star_loop (m_node f a) (groups a) k n st = Some res ->
    exists st', Run f (Star a) st st' /\ k st' = Some res.
Proof.
  intros Hbody k n. induction n as [|n IH]; intros st res H; cbn [star_loop] in H.
  - exists st. split; [constructor|exact H].
  - destruct (m_node f a _ (clear_caps (groups a) st)) as [r|] eqn:Hiter.
    + injection H as ->.
      apply Hbody in Hiter as (st1 & Hrun1 & Hk).
      destruct (_ <? _); [|discriminate].
      apply IH in Hk as (st' & Hrun2 & Hk).
      exists st'. split; [|exact Hk]. eapply R_StarS; eassumption.
    + exists st. split; [constructor|exact H].
Qed.

(** When the matcher succeeds, a run of the pattern led to the state
    from which what follows succeeded. *)
Lemma m_node_runs (r : node) (k : mstate -> option mstate) (st res : mstate) :
  m_node f r k st = Some res ->
  exists st', Run f r st st' /\ k st' = Some res.
Proof.
  revert k st res.
  induction r as [| c | | negated items | | a IHa b IHb | a IHa b IHb | i a IHa | a IHa];
    intros k st res H; cbn [m_node] in H.
  - exists st. split; [constructor|exact H].
  - apply step_sound in H as (x & tl & Hrest & Hp & Hk).
    exists (advance st tl). split; [econstructor; eassumption|exact Hk].
  - apply step_sound in H as (x & tl & Hrest & Hp & Hk).
    exists (advance st tl). split; [|exact Hk].
    econstructor; [eassumption|].
    destruct (is_line_terminator x); [discriminate|reflexivity].
  - apply step_sound in H as (x & tl & Hrest & Hp & Hk).
    exists (advance st tl). split; [econstructor; eassumption|exact Hk].
  - destruct (rest st) eqn:Hrest; [|discriminate]. cbn [is_empty] in H.
    exists st. split; [constructor; exact Hrest|exact H].
  - apply IHa in H as (st1 & Hrun1 & Hk).
    apply IHb in Hk as (st' & Hrun2 & Hk).
    exists st'. split; [econstructor; eassumption|exact Hk].
  - destruct (m_node f a k st) as [r|] eqn:Ha.
    + injection H as ->. apply IHa in Ha as (st' & Hrun & Hk).
      exists st'. split; [apply R_AltL, Hrun|exact Hk].
    + apply IHb in H as (st' & Hrun & Hk).
      exists st'. split; [apply R_AltR, Hrun|exact Hk].
  - apply IHa in H as (st' & Hrun & Hk).
    exists (set_cap i st st'). split; [constructor; exact Hrun|exact Hk].
  - apply (star_loop_runs a IHa) in H. exact H.
Qed.

(** A run reads a word of its pattern. *)
Lemma Run_word (r : node) (st st' : mstate) :
  Run f r st st' ->
  exists w, rest st = w +:+ rest st' /\ Matches f r w (rest st').
Proof.
  induction 1 as [st|c x tl st Hrest Hp|x tl st Hrest Hp|negated items x tl st Hrest Hp
                 |st Hrest|a b st st1 st2 _ IH1 _ IH2|a b st st' _ IH|a b st st' _ IH
                 |i a st st' _ IH|a st|a st st1 st2 _ IH1 _ IH2].
  - exists EmptyString. split; [reflexivity|constructor].
  - exists (String x EmptyString). split; [exact Hrest|constructor; exact Hp].
  - exists (String x EmptyString). split; [exact Hrest|constructor; exact Hp].
  - exists (String x EmptyString). split; [exact Hrest|constructor; exact Hp].
  - exists EmptyString. split; [reflexivity|]. rewrite Hrest. constructor.
  - destruct IH1 as (w1 & Hr1 & Hm1), IH2 as (w2 & Hr2 & Hm2).
    exists (w1 +:+ w2). split; [rewrite Hr1, Hr2, app_assoc_str; reflexivity|].
    constructor; [rewrite <- Hr2; exact Hm1|exact Hm2].
  - destruct IH as (w & Hr & Hm). exists w. split; [exact Hr|apply M_AltL, Hm].
  - destruct IH as (w & Hr & Hm). exists w. split; [exact Hr|apply M_AltR, Hm].
  - destruct IH as (w & Hr & Hm). exists w. split; [exact Hr|constructor; exact Hm].
  - exists EmptyString. split; [reflexivity|constructor].
  - destruct IH1 as (w1 & Hr1 & Hm1), IH2 as (w2 & Hr2 & Hm2).
    cbn [clear_caps rest] in Hr1.
    exists (w1 +:+ w2). split; [rewrite Hr1, Hr2, app_assoc_str; reflexivity|].
    apply M_StarS; [rewrite <- Hr2; exact Hm1|exact Hm2].
Qed.

Lemma clear_caps_lookup (gs : list nat) (st : mstate) (i : nat) :
  i ∉ gs -> caps (clear_caps gs st) !! i = caps st !! i.
Proof.
  intros Hi. cbn [clear_caps caps]. induction gs as [|g gs IH]; [reflexivity|].
  cbn [foldr]. rewrite lookup_delete_ne.
  - apply IH. intros H. apply Hi. right. exact H.
  - intros ->. apply Hi. left.
Qed.

(** A run leaves the sub-matches it has no group for as they were. *)
Lemma Run_keeps (i : nat) (r : node) (st st' : mstate) :
  Run f r st st' -> i ∉ groups r -> caps st' !! i = caps st !! i.
Proof.
  induction 1 as [st|c x tl st Hrest Hp|x tl st Hrest Hp|negated items x tl st Hrest Hp
                 |st Hrest|a b st st1 st2 _ IH1 _ IH2|a b st st' _ IH|a b st st' _ IH
                 |j a st st' _ IH|a st|a st st1 st2 _ IH1 _ IH2];
    cbn [groups]; intros Hi; try reflexivity.
  - rewrite IH2, IH1; [reflexivity| |]; intros H; apply Hi, elem_of_app; tauto.
  - apply IH. intros H; apply Hi, elem_of_app; tauto.
  - apply IH. intros H; apply Hi, elem_of_app; tauto.
  - cbn [set_cap caps]. rewrite lookup_insert_ne.
    + apply IH. intros H. apply Hi. right. exact H.
    + intros ->. apply Hi. left.
  - rewrite IH2, IH1 by exact Hi. apply clear_caps_lookup, Hi.
Qed.

Lemma existsb_eqb_false (i : nat) (l : list nat) :
  existsb (Nat.eqb i) l = false -> i ∉ l.
Proof.
  intros H Hin. apply not_true_iff_false in H. apply H, existsb_exists.
  exists i. split; [apply list_elem_of_In, Hin|apply Nat.eqb_refl].
Qed.

(** A run of a pattern with the group [i] in its sequence sets the
    sub-match [i] to a word of the body of the group. *)
Lemma Run_sets (i : nat) (body r : node) (st st' : mstate) :
  set_body i r = Some body -> Run f r st st' ->
  exists w s, caps st' !! i = Some w /\ Matches f body w s.
Proof.
  intros Hset Hrun. revert Hset.
  induction Hrun as [st|c x tl st Hrest Hp|x tl st Hrest Hp
                    |negated items x tl st Hrest Hp|st Hrest
                    |a b st st1 st2 Hrun1 IH1 Hrun2 IH2|a b st st' _ IH
                    |a b st st' _ IH|j a st st' Hrun IH|a st
                    |a st st1 st2 _ IH1 _ IH2];
    cbn [set_body]; try discriminate.
  - destruct (set_body i b) as [body'|] eqn:Hb.
    + intros [= ->]. apply IH2. reflexivity.
    + destruct (existsb (Nat.eqb i) (groups b)) eqn:Hg; [discriminate|].
      intros Ha. destruct (IH1 Ha) as (w & s & Hw & Hm).
      exists w, s. split; [|exact Hm].
      rewrite (Run_keeps i b st1 st2 Hrun2); [exact Hw|apply existsb_eqb_false, Hg].
  - destruct (i =? j) eqn:Hij; [|discriminate]. apply Nat.eqb_eq in Hij as <-.
    intros [= ->]. apply Run_word in Hrun as (w & Hr & Hm).
    exists w, (rest st'). split; [|exact Hm].
    cbn [set_cap caps]. rewrite lookup_insert_eq. f_equal. apply consumed_app, Hr.
Qed.

Lemma clear_caps_within (s0 : string) (gs : list nat) (st : mstate) :
  caps_within s0 (caps st) -> caps_within s0 (caps (clear_caps gs st)).
Proof.
  intros H. cbn [clear_caps caps]. induction gs as [|g gs IH]; [exact H|].
  cbn [foldr]. intros i w Hw. apply lookup_delete_Some in Hw as [_ Hw]. eapply IH, Hw.
Qed.

(** A run on the end of a text sets sub-matches that are pieces of the
    text. *)
Lemma Run_within (s0 : string) (r : node) (st st' : mstate) :
  Run f r st st' ->
  (exists p, s0 = p +:+ rest st) -> caps_within s0 (caps st) ->
  caps_within s0 (caps st').
Proof.
  induction 1 as [st|c x tl st Hrest Hp|x tl st Hrest Hp|negated items x tl st Hrest Hp
                 |st Hrest|a b st st1 st2 Hrun1 IH1 _ IH2|a b st st' _ IH|a b st st' _ IH
                 |i a st st' Hrun IH|a st|a st st1 st2 Hrun1 IH1 _ IH2];
    intros [p Hp0] Hc; try exact Hc; eauto.
  - apply IH2; [|apply IH1; eauto].
    apply Run_word in Hrun1 as (w & Hw & _). exists (p +:+ w).
    rewrite app_assoc_str, <- Hw. exact Hp0.
  - cbn [set_cap caps]. intros j w Hw.
    destruct (decide (i = j)) as [<-|Hne].
    + rewrite lookup_insert_eq in Hw. injection Hw as <-.
      apply Run_word in Hrun as (w & Hw & _).
      rewrite (consumed_app st st' w Hw). exists p, (rest st').
      rewrite <- Hw. exact Hp0.
    + rewrite lookup_insert_ne in Hw by exact Hne. eapply IH; eauto.
  - apply IH2; [|apply IH1; [eauto|apply clear_caps_within, Hc]].
    apply Run_word in Hrun1 as (w & Hw & _). cbn [clear_caps rest] in Hw.
    exists (p +:+ w). rewrite app_assoc_str, <- Hw. exact Hp0.
Qed.

End Runs.

Lemma match_at_runs (re : regex) (not_null : bool) (s : string) (m : smatch) :
  match_at re not_null s = Some m ->
  exists st', Run (re_flags re) (re_node re) {| rest := s; caps := ∅ |} st' /\
              m_sub m = caps st' /\ m_suffix m = rest st'.
Proof.
  unfold match_at. destruct (m_node _ _ _ _) as [st|] eqn:H; [|discriminate].
  intros [= <-]. cbn [m_sub m_suffix].
  apply m_node_runs in H as (st' & Hrun & Hk).
  destruct (_ && _); [discriminate|]. injection Hk as ->.
  exists st. auto.
Qed.

(** The sub-match of a group in the sequence of the pattern is a word of
    the body of the group. *)
Lemma from_attempt_sets (re : regex) (i : nat) (body : node) (m : smatch) :
  set_body i (re_node re) = Some body -> from_attempt re m ->
  exists w s, m_sub m !! i = Some w /\ Matches (re_flags re) body w s.
Proof.
  intros Hset (nn & s & m' & H & _ & -> & _).
  apply match_at_runs in H as (st' & Hrun & -> & _).
  eapply Run_sets; eassumption.
Qed.

Lemma m_str_sets (re : regex) (body : node) (m : smatch) :
  set_body 1 (re_node re) = Some body -> from_attempt re m ->
  exists s, Matches (re_flags re) body (m_str m 1) s.
Proof.
  intros Hset Hm.
  destruct (from_attempt_sets re 1 body m Hset Hm) as (w & s & Hw & HM).
  exists s. cbn [m_str]. rewrite Hw. exact HM.
Qed.

Lemma all_ascii_complete (x : ascii) : In x all_ascii.
Proof.
  unfold all_ascii. apply list_elem_of_In, list_elem_of_fmap.
  exists (nat_of_ascii x). split; [symmetry; apply ascii_nat_embedding|].
  apply list_elem_of_In, in_seq. pose proof (nat_ascii_bounded x). lia.
Qed.

Lemma forallb_all_ascii (q : ascii -> bool) (x : ascii) :
  forallb q all_ascii = true -> q x = true.
Proof. intros H. eapply forallb_forall in H; [exact H|apply all_ascii_complete]. Qed.

Lemma all_chars_app (p : ascii -> bool) (a b : string) :
  all_chars p (a +:+ b) = all_chars p a && all_chars p b.
Proof.
  unfold all_chars. induction a as [|x a IH]; [reflexivity|].
  cbn [String.append list_ascii_of_string forallb]. rewrite IH, andb_assoc.
  reflexivity.
Qed.

(** The words of a pattern are made of characters its leaves accept. *)
Lemma reads_sound (f : flags) (p : ascii -> bool) (r : node) (w s : string) :
  Matches f r w s -> reads f p r = true -> all_chars p w = true.
Proof.
  induction 1 as [s|c x s Hx|x s Hx|negated items x s Hx| |a b w1 w2 s _ IH1 _ IH2
                 |a b w s _ IH|a b w s _ IH|i a w s _ IH|a s|a w1 w2 s _ IH1 _ IH2];
    cbn [reads]; intros Hr; try reflexivity.
  - apply (forallb_all_ascii _ x) in Hr. cbv beta in Hr. rewrite Hx in Hr.
    unfold all_chars. cbn in Hr |- *. rewrite Hr. reflexivity.
  - apply (forallb_all_ascii _ x) in Hr. cbv beta in Hr. rewrite Hx in Hr.
    unfold all_chars. cbn in Hr |- *. rewrite Hr. reflexivity.
  - apply (forallb_all_ascii _ x) in Hr. cbv beta in Hr. rewrite Hx in Hr.
    unfold all_chars. cbn in Hr |- *. rewrite Hr. reflexivity.
  - apply andb_true_iff in Hr as [Ha Hb]. rewrite all_chars_app, IH1, IH2; auto.
  - apply andb_true_iff in Hr as [Ha Hb]. auto.
  - apply andb_true_iff in Hr as [Ha Hb]. auto.
  - auto.
  - rewrite all_chars_app, IH1, IH2; auto.
Qed.

Lemma app_empty_str (a b : string) :
  a +:+ b = EmptyString -> a = EmptyString /\ b = EmptyString.
Proof. destruct a; [simpl; auto|discriminate]. Qed.

Lemma app_nil_r_str (a : string) : a +:+ EmptyString = a.
Proof. induction a as [|x a IH]; [reflexivity|]. simpl. rewrite IH. reflexivity. Qed.

Lemma never_empty_sound (f : flags) (r : node) (w s : string) :
  Matches f r w s -> never_empty r = true -> w <> EmptyString.
Proof.
  induction 1 as [s|c x s Hx|x s Hx|negated items x s Hx| |a b w1 w2 s _ IH1 _ IH2
                 |a b w s _ IH|a b w s _ IH|i a w s _ IH|a s|a w1 w2 s _ IH1 _ IH2];
    cbn [never_empty]; intros Hr; try discriminate.
  - intros He. apply app_empty_str in He as [-> ->].
    apply orb_true_iff in Hr as [Hr|Hr]; [apply IH1|apply IH2]; auto.
  - apply andb_true_iff in Hr as [Ha Hb]. auto.
  - apply andb_true_iff in Hr as [Ha Hb]. auto.
  - auto.
Qed.

Lemma contains_app_r (t a b : string) : contains t b -> contains t (a +:+ b).
Proof.
  intros (pre & post & ->). exists (a +:+ pre), post.
  rewrite app_assoc_str. reflexivity.
Qed.

Lemma all_chars_contains (p : ascii -> bool) (w s : string) :
  contains w s -> all_chars p s = true -> all_chars p w = true.
Proof.
  intros (pre & post & ->). rewrite !all_chars_app, !andb_true_iff. tauto.
Qed.

Lemma begins_with_lits_sound (f : flags) (t : string) (r : node) (w s : string) :
  icase f = false ->
  begins_with_lits (list_ascii_of_string t) r = true -> Matches f r w s ->
  exists w', w = t +:+ w'.
Proof.
  intros Hf. revert r w. induction t as [|c t IH]; intros r w Hb Hm.
  - exists w. reflexivity.
  - cbn [list_ascii_of_string begins_with_lits] in Hb.
    destruct r as [| | | | |a b| | |]; try discriminate.
    destruct a; try discriminate.
    apply andb_true_iff in Hb as [Hc Hb]. apply Ascii.eqb_eq in Hc as <-.
    inversion Hm as [| | | | |a' b' w1 w2 s' Ha Hb'| | | | |]; subst.
    inversion Ha as [|c' x s' Hx| | | | | | | | |]; subst.
    unfold char_matches, translate in Hx. rewrite Hf in Hx.
    apply Ascii.eqb_eq in Hx as <-.
    destruct (IH b w2 Hb Hb') as [w' ->]. exists w'. reflexivity.
Qed.

(** Every word of a case sensitive pattern that spells [t] holds [t]. *)
Lemma spells_sound (f : flags) (t : string) (r : node) (w s : string) :
  icase f = false -> spells t r = true -> Matches f r w s -> contains t w.
Proof.
  intros Hf. revert w s.
  induction r as [| c | | negated items | | a IHa b IHb | a IHa b IHb | i a IHa | a IHa];
    intros w s Hs Hm; cbn [spells] in Hs; apply orb_true_iff in Hs as [Hs|Hs];
    try discriminate;
    try (destruct (begins_with_lits_sound f t _ w s Hf Hs Hm) as [w' ->];
         exists EmptyString, w'; reflexivity).
  inversion Hm as [| | | | |a' b' w1 w2 s' Ha Hb| | | | |]; subst.
  apply contains_app_r. eapply IHb; eassumption.
Qed.

Lemma translate_all_app (f : flags) (a b : string) :
  translate_all f (a +:+ b) = translate_all f a +:+ translate_all f b.
Proof. induction a as [|x a IH]; [reflexivity|]. simpl. rewrite IH. reflexivity. Qed.

(** A word of a pattern of literals is, up to the translation of the
    flags, one of the words the pattern spells out. *)
Lemma words_of_sound (f : flags) (r : node) (w s : string) :
  Matches f r w s ->
  forall l, words_of r = Some l ->
  exists t, t ∈ l /\ translate_all f w = translate_all f t.
Proof.
  induction 1 as [s|c x s Hx|x s Hx|negated items x s Hx| |a b w1 w2 s _ IH1 _ IH2
                 |a b w s _ IH|a b w s _ IH|i a w s _ IH|a s|a w1 w2 s _ IH1 _ IH2];
    cbn [words_of]; intros l Hl; try discriminate.
  - injection Hl as <-. exists EmptyString.
    split; [apply list_elem_of_here|reflexivity].
  - injection Hl as <-. exists (String c EmptyString).
    split; [apply list_elem_of_here|]. cbn [translate_all].
    unfold char_matches in Hx. apply Ascii.eqb_eq in Hx. congruence.
  - destruct (words_of a) as [la|]; [|discriminate].
    destruct (words_of b) as [lb|]; [|discriminate]. injection Hl as <-.
    destruct (IH1 la eq_refl) as (t1 & Ht1 & He1).
    destruct (IH2 lb eq_refl) as (t2 & Ht2 & He2).
    exists (t1 +:+ t2). split; [|rewrite !translate_all_app; congruence].
    apply list_elem_of_In, in_concat. exists ((fun y => t1 +:+ y) <$> lb).
    split; apply list_elem_of_In, list_elem_of_fmap; eauto.
  - destruct (words_of a) as [la|]; [|discriminate].
    destruct (words_of b) as [lb|]; [|discriminate]. injection Hl as <-.
    destruct (IH la eq_refl) as (t & Ht & He). exists t.
    split; [apply elem_of_app; auto|exact He].
  - destruct (words_of a) as [la|]; [|discriminate].
    destruct (words_of b) as [lb|]; [|discriminate]. injection Hl as <-.
    destruct (IH lb eq_refl) as (t & Ht & He). exists t.
    split; [apply elem_of_app; auto|exact He].
  - eauto.
Qed.

Lemma Matches_AssertEnd (f : flags) (w s : string) :
  Matches f AssertEnd w s -> w = EmptyString /\ s = EmptyString.
Proof. inversion 1. split; reflexivity. Qed.

(** A pattern without a star that has a run has a match: the matcher
    tries every way through the pattern before it gives up. *)
Lemma m_node_complete (f : flags) (r : node) (st st' : mstate) :
  Run f r st st' -> star_free r = true ->
  forall k, is_Some (k st') -> is_Some (m_node f r k st).
Proof.
  induction 1 as [st|c x tl st Hrest Hp|x tl st Hrest Hp|negated items x tl st Hrest Hp
                 |st Hrest|a b st st1 st2 _ IH1 _ IH2|a b st st' _ IH|a b st st' _ IH
                 |i a st st' _ IH|a st|a st st1 st2 _ IH1 _ IH2];
    cbn [star_free m_node]; intros Hfree k Hk; try discriminate.
  - exact Hk.
  - unfold step. rewrite Hrest, Hp. exact Hk.
  - unfold step. rewrite Hrest, Hp. exact Hk.
  - unfold step. rewrite Hrest, Hp. exact Hk.
  - rewrite Hrest. exact Hk.
  - apply andb_true_iff in Hfree as [Ha Hb]. apply IH1; [exact Ha|].
    apply IH2; [exact Hb|exact Hk].
  - apply andb_true_iff in Hfree as [Ha Hb].
    destruct (IH Ha k Hk) as [res ->]. eauto.
  - apply andb_true_iff in Hfree as [Ha Hb].
    destruct (m_node f a k st); [eauto|]. apply IH; assumption.
  - apply IH; assumption.
Qed.

Lemma translate_all_split (f : flags) (w a b : string) :
  translate_all f w = a +:+ b ->
  exists w1 w2, w = w1 +:+ w2 /\ translate_all f w1 = a /\ translate_all f w2 = b.
Proof.
  revert w. induction a as [|x a IH]; intros w H.
  - exists EmptyString, w. auto.
  - destruct w as [|y w]; [discriminate|]. cbn [translate_all String.append] in H.
    injection H as Hy H. destruct (IH w H) as (w1 & w2 & -> & H1 & H2).
    exists (String y w1), w2. split; [reflexivity|]. split; [|exact H2].
    cbn [translate_all]. congruence.
Qed.

(** A text that is, up to the translation of the flags, a word the
    pattern spells out is read by a run of the pattern. *)
Lemma words_of_run (f : flags) (r : node) :
  forall l t w, words_of r = Some l -> t ∈ l ->
    translate_all f w = translate_all f t ->
    forall st tl, rest st = w +:+ tl ->
      exists st', Run f r st st' /\ rest st' = tl.
Proof.
  induction r as [| c | | negated items | | a IHa b IHb | a IHa b IHb | i a IHa | a IHa];
    intros l t w Hl Ht Hw st tl Hrest; cbn [words_of] in Hl; try discriminate.
  - injection Hl as <-. apply list_elem_of_singleton in Ht as ->.
    destruct w; [|discriminate]. exists st. split; [constructor|exact Hrest].
  - injection Hl as <-. apply list_elem_of_singleton in Ht as ->.
    destruct w as [|x [|y w]]; try discriminate. cbn [translate_all] in Hw.
    injection Hw as Hx. exists (advance st tl). split; [|reflexivity].
    econstructor; [exact Hrest|]. unfold char_matches. rewrite Hx.
    apply Ascii.eqb_refl.
  - destruct (words_of a) as [la|]; [|discriminate].
    destruct (words_of b) as [lb|]; [|discriminate]. injection Hl as <-.
    apply list_elem_of_In, in_concat in Ht as (l' & Hl' & Ht).
    apply list_elem_of_In, list_elem_of_fmap in Hl' as (t1 & -> & Ht1).
    apply list_elem_of_In, list_elem_of_fmap in Ht as (t2 & -> & Ht2).
    rewrite translate_all_app in Hw.
    apply translate_all_split in Hw as (w1 & w2 & -> & H1 & H2).
    rewrite app_assoc_str in Hrest.
    destruct (IHa la t1 w1 eq_refl Ht1 H1 st (w2 +:+ tl) Hrest) as (st1 & Hrun1 & Hr1).
    destruct (IHb lb t2 w2 eq_refl Ht2 H2 st1 tl Hr1) as (st2 & Hrun2 & Hr2).
    exists st2. split; [econstructor; eassumption|exact Hr2].
  - destruct (words_of a) as [la|]; [|discriminate].
    destruct (words_of b) as [lb|]; [|discriminate]. injection Hl as <-.
    apply elem_of_app in Ht as [Ht|Ht].
    + destruct (IHa la t w eq_refl Ht Hw st tl Hrest) as (st' & Hrun & Hr).
      exists st'. split; [apply R_AltL, Hrun|exact Hr].
    + destruct (IHb lb t w eq_refl Ht Hw st tl Hrest) as (st' & Hrun & Hr).
      exists st'. split; [apply R_AltR, Hrun|exact Hr].
  - destruct (IHa l t w Hl Ht Hw st tl Hrest) as (st' & Hrun & Hr).
    exists (set_cap i st st'). split; [constructor; exact Hrun|exact Hr].
Qed.

(** A search finds a match when an attempt further on finds one. *)
Lemma regex_search_finds (re : regex) (pre t : string) :
  is_Some (match_at re false t) -> is_Some (regex_search re (pre +:+ t)).
Proof.
  intros [m Hm]. induction pre as [|c pre IH]; cbn [String.append].
  - destruct t; cbn [regex_search]; rewrite Hm; eexists; reflexivity.
  - cbn [regex_search].
    destruct (match_at re false (String c (pre +:+ t))); [eexists; reflexivity|].
    destruct IH as [m' ->]. eexists; reflexivity.
Qed.

Lemma match_at_complete (re : regex) (s : string) (st' : mstate) :
  Run (re_flags re) (re_node re) {| rest := s; caps := ∅ |} st' ->
  star_free (re_node re) = true ->
  is_Some (match_at re false s).
Proof.
  intros Hrun Hfree. unfold match_at.
  destruct (m_node_complete _ _ _ _ Hrun Hfree
              (fun st => if false && (String.length (rest st) =? String.length s)
                         then None else Some st)) as [res ->]; eauto.
Qed.

(** *** Searches and iterations cut the input *)

Lemma match_at_prefix (re : regex) (not_null : bool) (s : string) (m : smatch) :
  match_at re not_null s = Some m -> m_prefix m = EmptyString.
Proof.
  unfold match_at. destruct (m_node _ _ _ _); [|discriminate].
  intros [= <-]. reflexivity.
Qed.

Lemma match_at_split (re : regex) (not_null : bool) (s : string) (m : smatch) :
  match_at re not_null s = Some m ->
  s = m_prefix m +:+ m_whole m +:+ m_suffix m.
Proof.
  intros H. rewrite (match_at_prefix _ _ _ _ H).
  apply (match_at_sound re not_null s m H).
Qed.

(** A search cuts its input into prefix, match and suffix. *)
Lemma regex_search_split (re : regex) (s : string) (m : smatch) :
  regex_search re s = Some m ->
  s = m_prefix m +:+ m_whole m +:+ m_suffix m.
Proof.
  revert m. induction s as [|c s IH]; intros m; cbn [regex_search].
  - destruct (match_at re false EmptyString) as [m'|] eqn:H; [|discriminate].
    intros [= <-]. apply (match_at_split _ _ _ _ H).
  - destruct (match_at re false (String c s)) as [m'|] eqn:H.
    + intros [= <-]. apply (match_at_split _ _ _ _ H).
    + destruct (regex_search re s) as [m'|]; [|discriminate].
      intros [= <-]. cbn [with_prefix m_prefix m_whole m_suffix String.append].
      f_equal. apply IH. reflexivity.
Qed.

Lemma match_at_within (re : regex) (not_null : bool) (s : string) (m : smatch) :
  match_at re not_null s = Some m -> caps_within s (m_sub m).
Proof.
  intros H. apply match_at_runs in H as (st' & Hrun & -> & _).
  eapply Run_within; [exact Hrun|exists EmptyString; reflexivity|].
  intros i w Hw. cbn [caps] in Hw. rewrite lookup_empty in Hw. discriminate.
Qed.

Lemma caps_within_suffix (a b : string) (c : gmap nat string) :
  caps_within b c -> caps_within (a +:+ b) c.
Proof. intros H i w Hw. apply contains_app_r. eapply H, Hw. Qed.

(** The sub-matches of a search are pieces of its input. *)
Lemma regex_search_within (re : regex) (s : string) (m : smatch) :
  regex_search re s = Some m -> caps_within s (m_sub m).
Proof.
  revert m. induction s as [|c s IH]; intros m; cbn [regex_search].
  - destruct (match_at re false EmptyString) as [m'|] eqn:H; [|discriminate].
    intros [= <-]. apply (match_at_within _ _ _ _ H).
  - destruct (match_at re false (String c s)) as [m'|] eqn:H.
    + intros [= <-]. apply (match_at_within _ _ _ _ H).
    + destruct (regex_search re s) as [m'|]; [|discriminate].
      intros [= <-]. cbn [with_prefix m_sub].
      apply (caps_within_suffix (String c EmptyString) s), IH. reflexivity.
Qed.

(** So are the sub-matches of every match of an iteration. *)
Lemma regex_iterator_within (re : regex) (fuel : nat) (after_empty : bool)
    (s : string) (m : smatch) :
  In m (regex_iterator fuel re after_empty s) -> caps_within s (m_sub m).
Proof.
  revert after_empty s. induction fuel as [|fuel IH]; intros after_empty s;
    cbn [regex_iterator]; [intros []|].
  assert (forall m0 b, s = m_prefix m0 +:+ m_whole m0 +:+ m_suffix m0 ->
            caps_within s (m_sub m0) ->
            In m (m0 :: regex_iterator fuel re b (m_suffix m0)) ->
            caps_within s (m_sub m)) as Hstep.
  { intros m0 b Hsplit H0 [<-|Hin]; [exact H0|].
    rewrite Hsplit, <- app_assoc_str. apply caps_within_suffix. eapply IH, Hin. }
  destruct after_empty.
  - destruct s as [|c s]; [intros []|].
    destruct (match_at re true (String c s)) as [m'|] eqn:H.
    + apply Hstep; [apply (match_at_split _ _ _ _ H)|apply (match_at_within _ _ _ _ H)].
    + destruct (regex_search re s) as [m'|] eqn:Hs; [|intros []].
      apply (Hstep (with_prefix c m')).
      * cbn [with_prefix m_prefix m_whole m_suffix String.append].
        f_equal. apply (regex_search_split re), Hs.
      * cbn [with_prefix m_sub]. apply (caps_within_suffix (String c EmptyString) s).
        apply (regex_search_within re), Hs.
  - destruct (regex_search re s) as [m'|] eqn:Hs; [|intros []].
    apply Hstep; [apply (regex_search_split re), Hs|apply (regex_search_within re), Hs].
Qed.

(** A candidate of an extractor is a piece of the page. *)
Lemma captures_within (re : regex) (html u : string) :
  u ∈ captures re html -> contains u html.
Proof.
  unfold captures, sregex_iterator. intros H.
  apply list_elem_of_fmap in H as (m & -> & Hm). apply list_elem_of_In in Hm.
  apply regex_iterator_within in Hm. cbn [m_str].
  destruct (m_sub m !! 1) as [w|] eqn:Hw; [eapply Hm, Hw|].
  exists EmptyString, html. reflexivity.
Qed.

Lemma last_cons_default {A : Type} (x : A) (l : list A) (g : A -> string) (s : string) :
  default s (g <$> last (x :: l)) = default (g x) (g <$> last l).
Proof.
  destruct l as [|y l]; [reflexivity|]. rewrite last_cons_cons.
  destruct (last (y :: l)) eqn:H; [reflexivity|].
  apply last_None in H. discriminate.
Qed.

(** What [regex_replace] with an empty format makes of the matches of
    [s]: the prefixes of the matches and the suffix of the last. *)
Lemma regex_replace_empty (s : string) (re : regex) :
  regex_replace s re EmptyString
  = foldr (fun m acc => m_prefix m +:+ acc) EmptyString (sregex_iterator re s)
    +:+ default s (m_suffix <$> last (sregex_iterator re s)).
Proof.
  unfold regex_replace. destruct (sregex_iterator re s) as [|m ms]; [reflexivity|].
  rewrite !last_cons_default. reflexivity.
Qed.

(** *** The matcher finds what there is *)

Lemma is_Some_first {A : Type} (a b : option A) :
  is_Some (match a with Some r => Some r | None => b end) <-> is_Some a \/ is_Some b.
Proof.
  destruct a as [r|]; split; eauto.
  - intros [[x H]|H]; [discriminate|exact H].
Qed.

Section Completeness.

Variable f : flags.

Lemma step_equi (p : ascii -> bool) (k1 k2 : mstate -> option mstate)
    (st st' : mstate) :
  equi k1 k2 -> rest st = rest st' ->
  (is_Some (step p k1 st) <-> is_Some (step p k2 st')).
Proof.
  intros Hk Hrest. unfold step. rewrite <- Hrest.
  destruct (rest st) as [|x tl]; [reflexivity|].
  destruct (p x); [apply Hk; reflexivity|reflexivity].
Qed.

Lemma star_loop_equi (body : (mstate -> option mstate) -> mstate -> option mstate)
    (gs : list nat) :
  (forall k1 k2 st st', equi k1 k2 -> rest st = rest st' ->
     (is_Some (body k1 st) <-> is_Some (body k2 st'))) ->
  (forall k st, (forall s, k s = None) -> body k st = None) ->
  forall L st st' n m k1 k2,
    String.length (rest st) <= L -> rest st = rest st' ->
    String.length (rest st) <= n -> String.length (rest st) <= m ->
    equi k1 k2 ->
    (is_Some (star_loop body gs k1 n st) <-> is_Some (star_loop body gs k2 m st')).
Proof.
  intros Hbody Hnone. induction L as [|L IH]; intros st st' n m k1 k2 HL Hrest Hn Hm Hk.
  - assert (forall k s0 j, String.length (rest s0) = 0 ->
              (is_Some (star_loop body gs k j s0) <-> is_Some (k s0))) as Hzero.
    { intros k s0 j Hz. destruct j as [|j]; cbn [star_loop]; [reflexivity|].
      rewrite Hnone; [reflexivity|]. intros s. rewrite Hz.
      destruct (String.length (rest s) <? 0) eqn:Hlt; [|reflexivity].
      apply Nat.ltb_lt in Hlt. lia. }
    rewrite !Hzero by (rewrite <- ?Hrest; lia). apply Hk, Hrest.
  - destruct n as [|n], m as [|m]; cbn [star_loop].
    + apply Hk, Hrest.
    + rewrite Hnone; [apply Hk, Hrest|]. intros s. rewrite <- Hrest.
      destruct (String.length (rest s) <? String.length (rest st)) eqn:Hlt;
        [|reflexivity].
      apply Nat.ltb_lt in Hlt. lia.
    + rewrite Hnone; [apply Hk, Hrest|]. intros s.
      destruct (String.length (rest s) <? String.length (rest st)) eqn:Hlt;
        [|reflexivity].
      apply Nat.ltb_lt in Hlt. lia.
    + rewrite !is_Some_first.
      assert (is_Some (k1 st) <-> is_Some (k2 st')) as -> by apply Hk, Hrest.
      assert (is_Some
                (body (fun st0 =>
                         if String.length (rest st0) <? String.length (rest st)
                         then star_loop body gs k1 n st0 else None)
                   (clear_caps gs st))
              <-> is_Some
                    (body (fun st0 =>
                             if String.length (rest st0) <? String.length (rest st')
                             then star_loop body gs k2 m st0 else None)
                       (clear_caps gs st'))) as ->; [|reflexivity].
      apply Hbody; [|exact Hrest].
      intros s s' Hs. rewrite <- Hrest, <- Hs.
      destruct (String.length (rest s) <? String.length (rest st)) eqn:Hlt;
        [|reflexivity].
      apply Nat.ltb_lt in Hlt. apply IH; [lia|exact Hs|lia|lia|exact Hk].
Qed.

Lemma m_node_none (r : node) (k : mstate -> option mstate) (st : mstate) :
  (forall s, k s = None) -> m_node f r k st = None.
Proof.
  revert k st.
  induction r as [| c | | negated items | | a IHa b IHb | a IHa b IHb | i a IHa | a IHa];
    intros k st Hk; cbn [m_node];
    try (unfold step; destruct (rest st) as [|x tl]; [reflexivity|];
         match goal with |- context [if ?b then _ else _] => destruct b end;
         [apply Hk|reflexivity]).
  - apply Hk.
  - destruct (is_empty (rest st)); [apply Hk|reflexivity].
  - apply IHa. intros s. apply IHb, Hk.
  - rewrite IHa, IHb by exact Hk. reflexivity.
  - apply IHa. intros s. apply Hk.
  - generalize (String.length (rest st)) as n. intros n. revert st.
    induction n as [|n IHn]; intros st; cbn [star_loop]; [apply Hk|].
    rewrite IHa; [apply Hk|]. intros s.
    destruct (_ <? _); [apply IHn|reflexivity].
Qed.

(** Whether the matcher succeeds depends on the input that is left, not
    on the sub-matches. *)
Lemma m_node_equi (r : node) :
  forall k1 k2 st st', equi k1 k2 -> rest st = rest st' ->
    (is_Some (m_node f r k1 st) <-> is_Some (m_node f r k2 st')).
Proof.
  induction r as [| c | | negated items | | a IHa b IHb | a IHa b IHb | i a IHa | a IHa];
    intros k1 k2 st st' Hk Hrest; cbn [m_node];
    try (apply step_equi; assumption).
  - apply Hk, Hrest.
  - rewrite <- Hrest. destruct (is_empty (rest st)); [apply Hk, Hrest|reflexivity].
  - apply IHa; [|exact Hrest]. intros s s' Hs. apply IHb; assumption.
  - rewrite !is_Some_first, (IHa k1 k2 st st' Hk Hrest), (IHb k1 k2 st st' Hk Hrest).
    reflexivity.
  - apply IHa; [|exact Hrest]. intros s s' Hs. apply Hk. exact Hs.
  - rewrite <- Hrest.
    apply (star_loop_equi (m_node f a) (groups a) IHa
             (fun k st => m_node_none a k st) (String.length (rest st)));
      [lia|exact Hrest|lia|lia|exact Hk].
Qed.

Lemma equi_m_node (r : node) (k : mstate -> option mstate) :
  equi k k -> equi (m_node f r k) (m_node f r k).
Proof. intros Hk s s' Hs. apply m_node_equi; assumption. Qed.

(** The matcher is complete: where the pattern has a run after which the
    continuation succeeds, the matcher succeeds. *)
Theorem m_node_finds (r : node) (st st' : mstate) :
  Run f r st st' ->
  forall k, equi k k -> is_Some (k st') -> is_Some (m_node f r k st).
Proof.
  induction 1 as [st|c x tl st Hrest Hp|x tl st Hrest Hp|negated items x tl st Hrest Hp
                 |st Hrest|a b st st1 st2 _ IH1 _ IH2|a b st st' _ IH|a b st st' _ IH
                 |i a st st' _ IH|a st|a st st1 st2 Hrun1 IH1 Hrun2 IH2];
    intros k Hequi Hk; cbn [m_node].
  - exact Hk.
  - unfold step. rewrite Hrest, Hp. exact Hk.
  - unfold step. rewrite Hrest, Hp. exact Hk.
  - unfold step. rewrite Hrest, Hp. exact Hk.
  - rewrite Hrest. exact Hk.
  - apply IH1; [apply equi_m_node, Hequi|]. apply IH2; assumption.
  - apply is_Some_first. left. apply IH; assumption.
  - apply is_Some_first. right. apply IH; assumption.
  - apply IH; [|exact Hk]. intros s s' Hs. apply Hequi. exact Hs.
  - destruct (String.length (rest st)) as [|n]; cbn [star_loop]; [exact Hk|].
    apply is_Some_first. right. exact Hk.
  - specialize (IH2 k Hequi Hk). cbn [m_node] in IH2.
    pose proof Hrun1 as Hw. apply Run_word in Hw as (w & Hw & _).
    cbn [clear_caps rest] in Hw.
    assert (String.length (rest st) = String.length w + String.length (rest st1))
      as Hlen by (rewrite Hw, length_app_str; reflexivity).
    destruct w as [|x w].
    + cbn [String.append] in Hw.
      apply (star_loop_equi (m_node f a) (groups a) (m_node_equi a)
               (fun k st => m_node_none a k st) (String.length (rest st))
               st st1 (String.length (rest st)) (String.length (rest st1)) k k);
        [lia|exact Hw|lia|rewrite Hw; lia|exact Hequi|exact IH2].
    + cbn [String.length] in Hlen. rewrite Hlen. cbn [Nat.add star_loop].
      apply is_Some_first. left. apply IH1.
      * intros s s' Hs. rewrite <- Hs.
        destruct (String.length (rest s) <? String.length (rest st)) eqn:Hlt;
          [|reflexivity].
        apply Nat.ltb_lt in Hlt.
        apply (star_loop_equi (m_node f a) (groups a) (m_node_equi a)
                 (fun k st => m_node_none a k st) (String.length (rest s)));
          [lia|exact Hs|lia|lia|exact Hequi].
      * replace (String.length (rest st1) <? String.length (rest st)) with true
          by (symmetry; apply Nat.ltb_lt; lia).
        apply (star_loop_equi (m_node f a) (groups a) (m_node_equi a)
                 (fun k st => m_node_none a k st) (String.length (rest st1))
                 st1 st1 (String.length (rest st1)) (String.length w + String.length (rest st1)) k k);
          [lia|reflexivity|lia|lia|exact Hequi|exact IH2].
Qed.

(** A word of the pattern in front of the input is read by a run. *)
Lemma Matches_run (r : node) (w s : string) :
  Matches f r w s ->
  forall st, rest st = w +:+ s -> exists st', Run f r st st' /\ rest st' = s.
Proof.
  induction 1 as [s|c x s Hx|x s Hx|negated items x s Hx| |a b w1 w2 s _ IH1 _ IH2
                 |a b w s _ IH|a b w s _ IH|i a w s _ IH|a s|a w1 w2 s _ IH1 _ IH2];
    intros st Hrest.
  - exists st. split; [constructor|exact Hrest].
  - exists (advance st s). split; [econstructor; eassumption|reflexivity].
  - exists (advance st s). split; [econstructor; eassumption|reflexivity].
  - exists (advance st s). split; [econstructor; eassumption|reflexivity].
  - exists st. split; [constructor; exact Hrest|exact Hrest].
  - rewrite app_assoc_str in Hrest.
    destruct (IH1 st Hrest) as (st1 & Hrun1 & Hr1).
    destruct (IH2 st1 Hr1) as (st2 & Hrun2 & Hr2).
    exists st2. split; [econstructor; eassumption|exact Hr2].
  - destruct (IH st Hrest) as (st' & Hrun & Hr). exists st'.
    split; [apply R_AltL, Hrun|exact Hr].
  - destruct (IH st Hrest) as (st' & Hrun & Hr). exists st'.
    split; [apply R_AltR, Hrun|exact Hr].
  - destruct (IH st Hrest) as (st' & Hrun & Hr). exists (set_cap i st st').
    split; [constructor; exact Hrun|exact Hr].
  - exists st. split; [constructor|exact Hrest].
  - rewrite app_assoc_str in Hrest.
    destruct (IH1 (clear_caps (groups a) st) Hrest) as (st1 & Hrun1 & Hr1).
    destruct (IH2 st1 Hr1) as (st2 & Hrun2 & Hr2).
    exists st2. split; [eapply R_StarS; eassumption|exact Hr2].
Qed.

End Completeness.

(** An attempt succeeds exactly where the pattern has a word in front. *)
Lemma match_at_finds (re : regex) (w s : string) :
  Matches (re_flags re) (re_node re) w s -> is_Some (match_at re false (w +:+ s)).
Proof.
  intros Hm.
  destruct (Matches_run _ _ _ _ Hm {| rest := w +:+ s; caps := ∅ |} eq_refl)
    as (st' & Hrun & _).
  unfold match_at.
  destruct (m_node_finds _ _ _ _ Hrun
              (fun st => if false && (String.length (rest st) =? String.length (w +:+ s))
                         then None else Some st)) as [res ->]; eauto.
  intros s0 s1 _. split; eauto.
Qed.

(** A search succeeds exactly on the strings in which the pattern
    occurs. *)
Lemma regex_search_occurs (re : regex) (s : string) :
  is_Some (regex_search re s) <-> occurs_in re s.
Proof.
  split.
  - intros [m Hm]. exists (m_prefix m), (m_whole m), (m_suffix m).
    split; [apply (regex_search_split re), Hm|].
    apply from_attempt_whole, (regex_search_from_attempt re s), Hm.
  - intros (pre & w & post & -> & Hm). apply regex_search_finds, match_at_finds, Hm.
Qed.

(** *** Trimming *)

Lemma substring_all (s : string) : String.substring 0 (String.length s) s = s.
Proof. induction s as [|c s IH]; [reflexivity|]. simpl. rewrite IH. reflexivity. Qed.

Lemma substring_drop (a b : string) :
  String.substring (String.length a) (String.length b) (a +:+ b) = b.
Proof. induction a as [|x a IH]; [apply substring_all|]. exact IH. Qed.

Lemma erase_front_cons (c : ascii) (s set : string) :
  erase_front (String c s) set
  = if mem_char c set then erase_front s set else String c s.
Proof.
  unfold erase_front. cbn [find_first_not_of].
  destruct (mem_char c set).
  - destruct (find_first_not_of s set) as [i|]; reflexivity.
  - unfold substr. rewrite Nat.sub_0_r. apply substring_all.
Qed.

Lemma erase_back_cons (c : ascii) (s set : string) :
  erase_back (String c s) set
  = match find_last_not_of s set with
    | Some _ => String c (erase_back s set)
    | None => if mem_char c set then EmptyString else String c EmptyString
    end.
Proof.
  unfold erase_back. cbn [find_last_not_of].
  destruct (find_last_not_of s set) as [i|].
  - unfold substr. rewrite !Nat.add_1_r. reflexivity.
  - destruct (mem_char c set); [reflexivity|]. destruct s; reflexivity.
Qed.

Lemma find_last_not_of_None (s set : string) :
  find_last_not_of s set = None <-> all_in set s = true.
Proof.
  unfold all_in. induction s as [|c s IH];
    cbn [find_last_not_of list_ascii_of_string forallb].
  - tauto.
  - destruct (find_last_not_of s set) as [i|].
    + split; [discriminate|]. intros H. apply andb_true_iff in H as [_ H].
      apply IH in H. discriminate.
    + destruct (mem_char c set); cbn [andb]; [tauto|]. split; discriminate.
Qed.

(** Where a first character outside the set is, a last one is, not
    before it. *)
Lemma find_first_last (s set : string) (i : nat) :
  find_first_not_of s set = Some i ->
  exists e, find_last_not_of s set = Some e /\ i <= e.
Proof.
  revert i. induction s as [|c s IH]; intros i;
    cbn [find_first_not_of find_last_not_of]; [discriminate|].
  destruct (mem_char c set).
  - destruct (find_first_not_of s set) as [j|]; [|discriminate].
    intros [= <-]. destruct (IH j eq_refl) as (e & -> & Hle).
    exists (S e). split; [reflexivity|lia].
  - intros [= <-]. destruct (find_last_not_of s set) as [e|];
      eexists; split; eauto; lia.
Qed.

Lemma trim_cons (c : ascii) (s : string) :
  trim (String c s)
  = if mem_char c whitespace then trim s else erase_back (String c s) whitespace.
Proof.
  unfold trim, erase_back. cbn [find_first_not_of find_last_not_of].
  destruct (mem_char c whitespace).
  - destruct (find_first_not_of s whitespace) as [i|] eqn:Hi; [|reflexivity].
    destruct (find_first_last s whitespace i Hi) as (e & -> & Hle).
    cbn [option_map]. unfold substr.
    replace (S e - S i + 1) with (e - i + 1) by lia. reflexivity.
  - destruct (find_last_not_of s whitespace) as [e|].
    + rewrite Nat.sub_0_r. reflexivity.
    + reflexivity.
Qed.

(** [trim] erases in front and at the back. *)
Lemma trim_erase (s : string) :
  trim s = erase_back (erase_front s whitespace) whitespace.
Proof.
  induction s as [|c s IH]; [reflexivity|].
  rewrite trim_cons, erase_front_cons.
  destruct (mem_char c whitespace); [exact IH|reflexivity].
Qed.

Lemma erase_front_spec (s set : string) :
  exists l, s = l +:+ erase_front s set /\ all_in set l = true /\
    forall c, first_char (erase_front s set) = Some c -> mem_char c set = false.
Proof.
  induction s as [|c s (l & Hs & Hl & Hc)].
  - exists EmptyString. repeat split. discriminate.
  - rewrite erase_front_cons. destruct (mem_char c set) eqn:Hm.
    + exists (String c l). split; [simpl; congruence|]. split; [|exact Hc].
      unfold all_in in *. cbn [list_ascii_of_string forallb]. rewrite Hm. exact Hl.
    + exists EmptyString. split; [reflexivity|]. split; [reflexivity|].
      intros c' [= <-]. exact Hm.
Qed.

Lemma erase_back_nonempty (s set : string) (i : nat) :
  find_last_not_of s set = Some i -> erase_back s set <> EmptyString.
Proof.
  intros H. destruct s as [|c s]; [discriminate H|].
  unfold erase_back. rewrite H. unfold substr. rewrite Nat.add_1_r. discriminate.
Qed.

Lemma last_char_cons (c : ascii) (s : string) :
  s <> EmptyString -> last_char (String c s) = last_char s.
Proof. destruct s; [congruence|reflexivity]. Qed.

Lemma erase_back_spec (s set : string) :
  exists r, s = erase_back s set +:+ r /\ all_in set r = true /\
    forall c, last_char (erase_back s set) = Some c -> mem_char c set = false.
Proof.
  induction s as [|c s (r & Hs & Hr & Hc)].
  - exists EmptyString. repeat split. discriminate.
  - rewrite erase_back_cons. destruct (find_last_not_of s set) as [i|] eqn:Hi.
    + exists r. split; [simpl; congruence|]. split; [exact Hr|].
      rewrite last_char_cons by apply (erase_back_nonempty s set i Hi). exact Hc.
    + apply find_last_not_of_None in Hi. destruct (mem_char c set) eqn:Hm.
      * exists (String c s). split; [reflexivity|]. split; [|discriminate].
        unfold all_in in *. cbn [list_ascii_of_string forallb]. rewrite Hm. exact Hi.
      * exists s. split; [reflexivity|]. split; [exact Hi|].
        intros c' [= <-]. exact Hm.
Qed.

(** Erasing at the back keeps the first character. *)
Lemma erase_back_first (s set : string) (c : ascii) :
  first_char (erase_back s set) = Some c -> first_char s = Some c.
Proof.
  destruct s as [|x s]; [discriminate|]. rewrite erase_back_cons.
  destruct (find_last_not_of s set); [exact id|].
  destruct (mem_char x set); [discriminate|exact id].
Qed.

(** A string whose last character is outside the set loses nothing at the
    back, one whose first character is outside the set nothing in front. *)
Lemma erase_back_id (s set : string) :
  (forall c, last_char s = Some c -> mem_char c set = false) ->
  erase_back s set = s.
Proof.
  induction s as [|c s IH]; [reflexivity|]. intros H. rewrite erase_back_cons.
  destruct s as [|d s].
  - cbn [find_last_not_of]. rewrite (H c eq_refl). reflexivity.
  - specialize (IH H). destruct (find_last_not_of (String d s) set) eqn:Hl.
    + rewrite IH. reflexivity.
    + unfold erase_back in IH. rewrite Hl in IH. discriminate.
Qed.

Lemma erase_front_id (s set : string) :
  (forall c, first_char s = Some c -> mem_char c set = false) ->
  erase_front s set = s.
Proof.
  destruct s as [|c s]; [reflexivity|]. intros H.
  rewrite erase_front_cons, (H c eq_refl). reflexivity.
Qed.

Lemma trim_first (str : string) (c : ascii) :
  first_char (trim str) = Some c -> mem_char c whitespace = false.
Proof.
  rewrite trim_erase. intros Hc.
  destruct (erase_front_spec str whitespace) as (_ & _ & _ & Hfirst).
  apply Hfirst. eapply erase_back_first, Hc.
Qed.

Lemma trim_last (str : string) (c : ascii) :
  last_char (trim str) = Some c -> mem_char c whitespace = false.
Proof.
  rewrite trim_erase.
  destruct (erase_back_spec (erase_front str whitespace) whitespace)
    as (_ & _ & _ & Hlast).
  apply Hlast.
Qed.

Lemma trim_trim (str : string) : trim (trim str) = trim str.
Proof.
  rewrite (trim_erase (trim str)).
  rewrite (erase_front_id _ _ (trim_first str)).
  apply erase_back_id, trim_last.
Qed.

(** X1. [trim] takes white space (blank, tab, carriage return, line
    feed) off both ends and nothing else: the argument is the result
    between two runs of white space, the result neither begins nor ends
    with white space, and trimming twice is trimming once. *)
Theorem X1_trim_takes_white_space_off_both_ends (str : string) :
  (exists l r, str = l +:+ trim str +:+ r /\
     all_in whitespace l = true /\ all_in whitespace r = true) /\
  (forall c, first_char (trim str) = Some c -> mem_char c whitespace = false) /\
  (forall c, last_char (trim str) = Some c -> mem_char c whitespace = false) /\
  trim (trim str) = trim str.
Proof.
  split; [|split; [apply trim_first|split; [apply trim_last|apply trim_trim]]].
  rewrite trim_erase.
  destruct (erase_front_spec str whitespace) as (l & Hl & Hlw & _).
  destruct (erase_back_spec (erase_front str whitespace) whitespace)
    as (r & Hr & Hrw & _).
  exists l, r. split; [rewrite <- Hr; exact Hl|split; assumption].
Qed.

(** *** [stripHtmlTags] *)

Lemma regex_iterator_strips (re : regex) :
  (forall m, from_attempt re m -> is_tag (m_whole m)) ->
  forall fuel after_empty s,
    Strips s
      (foldr (fun m acc => m_prefix m +:+ acc) EmptyString
         (regex_iterator fuel re after_empty s)
       +:+ default s (m_suffix <$> last (regex_iterator fuel re after_empty s))).
Proof.
  intros Htag.
  assert (forall m ms s,
            from_attempt re m -> s = m_prefix m +:+ m_whole m +:+ m_suffix m ->
            Strips (m_suffix m)
              (foldr (fun m acc => m_prefix m +:+ acc) EmptyString ms
               +:+ default (m_suffix m) (m_suffix <$> last ms)) ->
            Strips s
              (foldr (fun m acc => m_prefix m +:+ acc) EmptyString (m :: ms)
               +:+ default s (m_suffix <$> last (m :: ms)))) as Hstep.
  { intros m ms s Hm -> Hrest. rewrite last_cons_default. cbn [foldr].
    rewrite app_assoc_str. apply Strips_tag; [apply Htag, Hm|exact Hrest]. }
  induction fuel as [|fuel IH]; intros after_empty s; cbn [regex_iterator];
    [apply Strips_done|].
  destruct after_empty.
  - destruct s as [|c s]; [apply Strips_done|].
    destruct (match_at re true (String c s)) as [m|] eqn:H.
    + apply Hstep; [exists true, (String c s), m; auto
                   |apply (match_at_split _ _ _ _ H)|apply IH].
    + destruct (regex_search re s) as [m|] eqn:Hs; [|apply Strips_done].
      apply Hstep; [apply from_attempt_with_prefix,
                      (regex_search_from_attempt re s), Hs| |apply IH].
      cbn [with_prefix m_prefix m_whole m_suffix String.append].
      f_equal. apply (regex_search_split re), Hs.
  - destruct (regex_search re s) as [m|] eqn:Hs; [|apply Strips_done].
    apply Hstep; [apply (regex_search_from_attempt re s), Hs
                 |apply (regex_search_split re), Hs|apply IH].
Qed.

Lemma tagRegex_shape :
  exists re,
    std_regex "<[^>]*>" ECMAScript = Ok re /\ re_flags re = ECMAScript /\
    re_node re = tag_node.
Proof. vm_compute. eexists. repeat split. Qed.

(** The words of the tag pattern are tags. *)
Lemma tag_words (w s : string) : Matches ECMAScript tag_node w s -> is_tag w.
Proof.
  unfold tag_node. intros H. apply Matches_char_seq in H as (w1 & -> & H).
  inversion H as [| | | | |a b body w2 s' Ha Hb| | | | |]; subst.
  apply Matches_char_seq in Hb as (w3 & -> & Hb).
  inversion Hb; subst.
  exists body. split; [reflexivity|].
  eapply reads_sound; [exact Ha|]. vm_compute. reflexivity.
Qed.

Lemma mem_char_split (c : ascii) (s : string) :
  mem_char c s = true ->
  exists body tail, s = body +:+ String c tail /\
    all_chars (fun x => negb (Ascii.eqb x c)) body = true.
Proof.
  unfold mem_char, all_chars. induction s as [|x s IH];
    cbn [list_ascii_of_string existsb]; [discriminate|].
  destruct (Ascii.eqb c x) eqn:Hx.
  - intros _. apply Ascii.eqb_eq in Hx as <-. exists EmptyString, s.
    split; reflexivity.
  - cbn [orb]. intros H. destruct (IH H) as (body & tail & -> & Hb).
    exists (String x body), tail. split; [reflexivity|].
    cbn [list_ascii_of_string forallb]. rewrite Hb, Ascii.eqb_sym, Hx. reflexivity.
Qed.

Lemma mem_char_app (c : ascii) (a b : string) :
  mem_char c (a +:+ String c b) = true.
Proof.
  unfold mem_char. induction a as [|x a IH];
    cbn [String.append list_ascii_of_string existsb].
  - rewrite Ascii.eqb_refl. reflexivity.
  - rewrite IH. apply orb_true_r.
Qed.

Lemma mem_char_app_r (c : ascii) (a b : string) :
  mem_char c b = true -> mem_char c (a +:+ b) = true.
Proof.
  unfold mem_char. intros H. induction a as [|x a IH]; [exact H|].
  cbn [String.append list_ascii_of_string existsb]. rewrite IH. apply orb_true_r.
Qed.

Lemma class_not_gt (x : ascii) :
  class_matches ECMAScript true [CChar ">"] x = negb (Ascii.eqb x ">").
Proof.
  unfold class_matches, item_matches, char_matches, translate.
  cbn [icase ECMAScript existsb].
  rewrite orb_false_r, Ascii.eqb_sym. reflexivity.
Qed.

Lemma step_cons (p : ascii -> bool) (k : mstate -> option mstate) (st : mstate)
    (x : ascii) (tl : string) :
  rest st = String x tl ->
  step p k st = if p x then k (advance st tl) else None.
Proof. unfold step. intros ->. reflexivity. Qed.

Lemma m_node_class (f : flags) (negated : bool) (items : list class_item)
    (k : mstate -> option mstate) (st : mstate) :
  m_node f (Class negated items) k st = step (class_matches f negated items) k st.
Proof. reflexivity. Qed.

(** The star of the tag pattern reads up to the first closing bracket. *)
Lemma star_reads_body (body tail : string) (k : mstate -> option mstate) (r : mstate) :
  all_chars (fun x => negb (Ascii.eqb x ">")) body = true ->
  forall n c, String.length body <= n ->
    k {| rest := String ">" tail; caps := c |} = Some r ->
    star_loop (m_node ECMAScript (Class true [CChar ">"])) [] k n
      {| rest := body +:+ String ">" tail; caps := c |} = Some r.
Proof.
  unfold all_chars. induction body as [|x body IH];
    cbn [list_ascii_of_string forallb String.append String.length];
    intros Hb n c Hn Hk.
  - destruct n as [|n]; cbn [star_loop]; [exact Hk|].
    rewrite m_node_class, (step_cons _ _ _ ">" tail) by reflexivity.
    rewrite class_not_gt. change (negb (Ascii.eqb ">" ">")) with false. exact Hk.
  - destruct n as [|n]; [lia|]. apply andb_true_iff in Hb as [Hx Hb].
    cbn [star_loop].
    rewrite m_node_class, (step_cons _ _ _ x (body +:+ String ">" tail))
      by reflexivity.
    rewrite class_not_gt, Hx. cbn [advance rest clear_caps caps foldr].
    replace (String.length (body +:+ String ">" tail)
             <? String.length (String x (body +:+ String ">" tail))) with true
      by (symmetry; apply Nat.ltb_lt; cbn [String.length]; lia).
    unfold advance, clear_caps. cbn [rest caps foldr].
    rewrite (IH Hb n c); [reflexivity|lia|exact Hk].
Qed.

Lemma tag_node_matches (body tail : string) (k : mstate -> option mstate)
    (c : gmap nat string) (r : mstate) :
  all_chars (fun x => negb (Ascii.eqb x ">")) body = true ->
  k {| rest := tail; caps := c |} = Some r ->
  m_node ECMAScript tag_node k
    {| rest := String "<" (body +:+ String ">" tail); caps := c |} = Some r.
Proof.
  intros Hb Hk.
  pose proof (star_reads_body body tail
                (m_node ECMAScript (Seq (Char ">") Empty) k) r Hb
                (String.length (body +:+ String ">" tail)) c
                ltac:(rewrite length_app_str; lia)) as Hstar.
  unfold tag_node.
  change (step (char_matches ECMAScript "<")
            (fun st =>
               star_loop (m_node ECMAScript (Class true [CChar ">"])) []
                 (m_node ECMAScript (Seq (Char ">") Empty) k)
                 (String.length (rest st)) st)
            {| rest := String "<" (body +:+ String ">" tail); caps := c |}
          = Some r).
  rewrite (step_cons _ _ _ "<" (body +:+ String ">" tail)) by reflexivity.
  replace (char_matches ECMAScript "<" "<") with true by reflexivity.
  unfold advance. cbn [rest caps]. apply Hstar.
  change (step (char_matches ECMAScript ">") k
            {| rest := String ">" tail; caps := c |} = Some r).
  rewrite (step_cons _ _ _ ">" tail) by reflexivity. exact Hk.
Qed.

(** At an opening bracket with a closing one after it the tag pattern
    matches. *)
Lemma tag_match_at (re : regex) (s : string) :
  re_flags re = ECMAScript -> re_node re = tag_node ->
  mem_char ">" s = true ->
  is_Some (match_at re false (String "<" s)).
Proof.
  intros Hflags Hnode Hs. apply mem_char_split in Hs as (body & tail & -> & Hb).
  unfold match_at. rewrite Hflags, Hnode.
  erewrite (tag_node_matches body tail); [eauto|exact Hb|reflexivity].
Qed.

Lemma tag_nonempty (t : string) : is_tag t -> t <> EmptyString.
Proof. intros (body & -> & _). discriminate. Qed.

Lemma tag_has_close (t : string) (post : string) :
  is_tag t -> exists b, t +:+ post = String "<" b /\ mem_char ">" b = true.
Proof.
  intros (body & -> & _). exists (body +:+ ">" +:+ post). split.
  - cbn [String.append]. rewrite app_assoc_str. reflexivity.
  - apply mem_char_app.
Qed.

Lemma holds_tag_app_r (a b : string) :
  holds_tag b = true -> holds_tag (a +:+ b) = true.
Proof.
  intros H. induction a as [|x a IH]; [exact H|].
  cbn [String.append holds_tag]. rewrite IH. apply orb_true_r.
Qed.

Lemma mem_char_app_l (c : ascii) (a b : string) :
  mem_char c a = true -> mem_char c (a +:+ b) = true.
Proof.
  unfold mem_char. induction a as [|x a IH];
    cbn [String.append list_ascii_of_string existsb]; [discriminate|].
  intros H. apply orb_true_iff in H as [->|H]; [reflexivity|].
  rewrite (IH H). apply orb_true_r.
Qed.

Lemma holds_tag_app_l (a b : string) :
  holds_tag a = true -> holds_tag (a +:+ b) = true.
Proof.
  induction a as [|x a IH]; cbn [String.append holds_tag]; [discriminate|].
  intros H. apply orb_true_iff in H as [H|H].
  - apply andb_true_iff in H as [-> H]. rewrite (mem_char_app_l _ _ _ H). reflexivity.
  - rewrite (IH H). apply orb_true_r.
Qed.

(** A string with a tag in it holds a tag. *)
Lemma holds_tag_intro (pre t post : string) :
  is_tag t -> holds_tag (pre +:+ t +:+ post) = true.
Proof.
  intros Ht. apply holds_tag_app_r.
  destruct (tag_has_close t post Ht) as (b & -> & Hb).
  cbn [holds_tag]. rewrite Hb. reflexivity.
Qed.

Lemma holds_tag_plain (a b : string) :
  all_chars (fun c => negb (Ascii.eqb c "<")) a = true ->
  holds_tag (a +:+ b) = holds_tag b.
Proof.
  unfold all_chars. induction a as [|x a IH];
    cbn [list_ascii_of_string forallb String.append holds_tag]; [reflexivity|].
  intros H. apply andb_true_iff in H as [Hx H]. apply negb_true_iff in Hx.
  rewrite Hx, (IH H). reflexivity.
Qed.

Section TagSearch.

Variable re : regex.
Hypothesis Hflags : re_flags re = ECMAScript.
Hypothesis Hnode : re_node re = tag_node.

Lemma tag_whole (m : smatch) : from_attempt re m -> is_tag (m_whole m).
Proof.
  intros Hm. apply from_attempt_whole in Hm. rewrite Hflags, Hnode in Hm.
  eapply tag_words, Hm.
Qed.

Lemma tag_match_at_sound (nn : bool) (s : string) (m : smatch) :
  match_at re nn s = Some m -> is_tag (m_whole m).
Proof. intros H. apply tag_whole. exists nn, s, m. auto. Qed.

(** A search that finds nothing was on a string without a tag; one that
    finds a tag finds the first, with no opening bracket before it. *)
Lemma tag_search (s : string) :
  match regex_search re s with
  | None => holds_tag s = false
  | Some m =>
      all_chars (fun c => negb (Ascii.eqb c "<")) (m_prefix m) = true /\
      is_tag (m_whole m)
  end.
Proof.
  induction s as [|c s IH]; cbn [regex_search].
  - destruct (match_at re false EmptyString) as [m|] eqn:H; [|reflexivity].
    split; [rewrite (match_at_prefix _ _ _ _ H); reflexivity
           |apply (tag_match_at_sound _ _ _ H)].
  - destruct (match_at re false (String c s)) as [m|] eqn:H.
    { split; [rewrite (match_at_prefix _ _ _ _ H); reflexivity
             |apply (tag_match_at_sound _ _ _ H)]. }
    assert (Ascii.eqb c "<" && mem_char ">" s = false) as Hc.
    { destruct (Ascii.eqb c "<") eqn:Hlt; [|reflexivity].
      destruct (mem_char ">" s) eqn:Hgt; [|reflexivity].
      apply Ascii.eqb_eq in Hlt as ->.
      destruct (tag_match_at re s Hflags Hnode Hgt) as [m Hm]. congruence. }
    destruct (regex_search re s) as [m|] eqn:Hs; cbn [fmap option_fmap option_map].
    + destruct IH as [Hp Ht]. split; [|exact Ht].
      cbn [with_prefix m_prefix]. unfold all_chars in *.
      cbn [list_ascii_of_string forallb]. rewrite Hp, andb_true_r.
      destruct (Ascii.eqb c "<"); [|reflexivity]. cbn [andb] in Hc.
      pose proof (regex_search_split re s m Hs) as Hsplit.
      destruct (tag_has_close _ (m_suffix m) Ht) as (b & Hb & Hgt).
      rewrite Hsplit, Hb in Hc.
      rewrite (mem_char_app_r ">" (m_prefix m) (String "<" b)) in Hc; [discriminate|].
      unfold mem_char in *. cbn [list_ascii_of_string existsb]. rewrite Hgt.
      apply orb_true_r.
    + cbn [holds_tag]. rewrite Hc, IH. reflexivity.
Qed.

(** With fuel for every character the iteration runs to its end: what
    is left holds no tag. *)
Lemma tag_iterator_complete (fuel : nat) (s : string) :
  String.length s < fuel ->
  holds_tag
    (foldr (fun m acc => m_prefix m +:+ acc) EmptyString
       (regex_iterator fuel re false s)
     +:+ default s (m_suffix <$> last (regex_iterator fuel re false s))) = false.
Proof.
  revert s. induction fuel as [|fuel IH]; intros s Hlen; [lia|].
  cbn [regex_iterator]. pose proof (tag_search s) as Hsearch.
  destruct (regex_search re s) as [m|] eqn:Hs; [|exact Hsearch].
  destruct Hsearch as [Hp Ht].
  pose proof (regex_search_split re s m Hs) as Hsplit.
  replace (is_empty (m_whole m)) with false
    by (destruct (m_whole m) eqn:Hw; [apply tag_nonempty in Ht; congruence|reflexivity]).
  rewrite last_cons_default. cbn [foldr]. rewrite app_assoc_str.
  rewrite (holds_tag_plain _ _ Hp). apply IH.
  assert (String.length (m_whole m) <> 0) as Hw.
  { destruct (m_whole m) eqn:Hw; [apply tag_nonempty in Ht; congruence|discriminate]. }
  rewrite Hsplit, !length_app_str in Hlen. lia.
Qed.

Lemma tag_replace_clean (s : string) :
  holds_tag (regex_replace s re EmptyString) = false.
Proof. rewrite regex_replace_empty. apply tag_iterator_complete. lia. Qed.

Lemma tag_replace_fixed (s : string) :
  holds_tag s = false -> regex_replace s re EmptyString = s.
Proof.
  intros Hs. unfold regex_replace. rewrite sregex_iterator_miss; [reflexivity|].
  pose proof (tag_search s) as Hsearch.
  destruct (regex_search re s) as [m|] eqn:Hm; [|reflexivity].
  destruct Hsearch as [_ Ht]. rewrite (regex_search_split re s m Hm) in Hs.
  rewrite holds_tag_intro in Hs by exact Ht. discriminate.
Qed.

End TagSearch.

(** What [stripHtmlTags] gives for every string. *)
Lemma stripHtmlTags_spec (s : string) :
  exists r, stripHtmlTags s = Ok r /\
    Strips s r /\ holds_tag r = false /\ (holds_tag s = false -> r = s).
Proof.
  unfold stripHtmlTags. destruct tagRegex_shape as (re & -> & Hflags & Hnode).
  cbn [bind]. eexists. split; [reflexivity|].
  split.
  { rewrite regex_replace_empty. apply regex_iterator_strips.
    intros m Hm. eapply tag_whole; eassumption. }
  split; [apply tag_replace_clean; assumption|].
  apply tag_replace_fixed; assumption.
Qed.

(** X2. [stripHtmlTags] returns for every string, and what it returns is
    the string with tags taken out and everything else in place (a tag is
    an opening angle bracket, anything but a closing one, and a closing
    one); no tag is left in the result; a string without a tag comes back
    unchanged, and so stripping twice is stripping once. *)
Theorem X2_stripHtmlTags_leaves_no_tag (s : string) :
  exists r, stripHtmlTags s = Ok r /\
    Strips s r /\
    holds_tag r = false /\
    (forall pre t post, is_tag t -> r <> pre +:+ t +:+ post) /\
    (holds_tag s = false -> r = s) /\
    stripHtmlTags r = Ok r.
Proof.
  destruct (stripHtmlTags_spec s) as (r & Hr & Hstrips & Hclean & Hfixed).
  exists r. split; [exact Hr|]. split; [exact Hstrips|]. split; [exact Hclean|].
  split; [|split; [exact Hfixed|]].
  - intros pre t post Ht ->. rewrite holds_tag_intro in Hclean by exact Ht.
    discriminate.
  - destruct (stripHtmlTags_spec r) as (r' & Hr' & _ & _ & Hfixed').
    rewrite Hr'. f_equal. apply Hfixed', Hclean.
Qed.

(** *** The title *)

Lemma first_title_trimmed (html : string) (ps : list regex) (t : string) :
  first_title html ps = Ok t ->
  2 < String.length t /\ trim t = t /\
  (t = unknown_title \/ holds_tag t = false).
Proof.
  induction ps as [|p ps IH]; cbn [first_title].
  - intros [= <-]. split; [vm_compute; lia|]. split; [vm_compute; reflexivity|].
    left. reflexivity.
  - destruct (regex_search p html) as [m|]; [|exact IH].
    destruct (stripHtmlTags_spec (m_str m 1)) as (r & -> & Hstrips & Hclean & _).
    cbn [bind].
    destruct (negb (is_empty (trim r)) && (2 <? String.length (trim r))) eqn:Hc;
      [|exact IH].
    intros [= <-]. apply andb_true_iff in Hc as [_ Hc]. apply Nat.ltb_lt in Hc.
    split; [exact Hc|]. split; [apply trim_trim|]. right.
    destruct (holds_tag (trim r)) eqn:Ht; [|reflexivity].
    rewrite trim_erase in Ht.
    destruct (erase_front_spec r whitespace) as (l & Hl & _ & _).
    destruct (erase_back_spec (erase_front r whitespace) whitespace)
      as (r' & Hr' & _ & _).
    rewrite Hl, Hr' in Hclean.
    rewrite holds_tag_app_r in Hclean; [discriminate|].
    apply holds_tag_app_l, Ht.
Qed.

(** X3. [extractTitle] returns for every page, and the title is longer
    than two bytes and carries no white space at either end; it is the
    sentinel or holds no tag. *)
Theorem X3_extractTitle_shape (html : string) :
  exists t, extractTitle html = Ok t /\
    2 < String.length t /\ trim t = t /\
    (t = unknown_title \/ holds_tag t = false).
Proof.
  destruct (extractTitle_ok html) as [t Ht]. exists t. split; [exact Ht|].
  unfold extractTitle in Ht. destruct title_patterns_compile as (ps & Hps & _).
  rewrite Hps in Ht. cbn [bind] in Ht. eapply first_title_trimmed, Ht.
Qed.

(** *** The play URLs *)

(** The play URL patterns: each is case sensitive, has its first group
    in its sequence, reads no quote in it and spells one of the five
    extensions in it. *)
Lemma playUrl_patterns_checked :
  forallb
    (fun re =>
       negb (icase (re_flags re))
       && match set_body 1 (re_node re) with
          | Some body =>
              reads (re_flags re) no_quote body
              && existsb (fun ext => spells ext body)
                   [".m3u8"; ".mp4"; ".flv"; ".avi"; ".mkv"]
          | None => false
          end)
    (compiled playUrl_patterns) = true.
Proof. vm_compute. reflexivity. Qed.

(** A candidate of the play URL extractor is a piece of the page, holds
    no quote and holds one of the five extensions. *)
Lemma play_candidates_shape (html u : string) :
  u ∈ play_candidates html ->
  contains u html /\
  all_chars no_quote u = true /\
  exists ext, ext ∈ [".m3u8"; ".mp4"; ".flv"; ".avi"; ".mkv"] /\ contains ext u.
Proof.
  unfold play_candidates. rewrite candidates_elem. intros (re & Hre & Hu).
  split; [eapply captures_within, Hu|].
  pose proof playUrl_patterns_checked as Hall.
  rewrite forallb_forall in Hall.
  specialize (Hall re (proj1 (list_elem_of_In _ _) Hre)).
  cbv beta in Hall. apply andb_true_iff in Hall as [Hcase Hall].
  apply negb_true_iff in Hcase.
  destruct (set_body 1 (re_node re)) as [body|] eqn:Hset; [|discriminate].
  apply andb_true_iff in Hall as [Hreads Hspells].
  apply captures_from_attempt in Hu as (m & Hm & ->).
  destruct (m_str_sets re body m Hset Hm) as [s HM].
  split; [eapply reads_sound; eassumption|].
  apply existsb_exists in Hspells as (ext & Hext & Hsp).
  exists ext. split; [apply list_elem_of_In, Hext|].
  eapply spells_sound; eassumption.
Qed.

Lemma nativeExtractPlayUrls_candidates (url html : string) :
  nativeExtractPlayUrls url html = first_occurrences (play_candidates html).
Proof.
  unfold nativeExtractPlayUrls. rewrite extractPlayUrls_first_occurrences.
  reflexivity.
Qed.

Lemma nativeExtractPlayUrls_shape (url html u : string) :
  u ∈ nativeExtractPlayUrls url html ->
  contains u html /\
  all_chars no_quote u = true /\
  exists ext, ext ∈ [".m3u8"; ".mp4"; ".flv"; ".avi"; ".mkv"] /\ contains ext u.
Proof.
  rewrite nativeExtractPlayUrls_candidates, first_occurrences_elem.
  apply play_candidates_shape.
Qed.

(** X4. Every entry of the list [nativeExtractPlayUrls] gives is a piece
    of the page as it stands there, holds neither a double nor a single
    quote, and holds one of [.m3u8], [.mp4], [.flv], [.avi], [.mkv]. *)
Theorem X4_play_urls_are_pieces_of_the_page (url html u : string) :
  u ∈ nativeExtractPlayUrls url html ->
  contains u html /\
  all_chars no_quote u = true /\
  (contains ".m3u8" u \/ contains ".mp4" u \/ contains ".flv" u
   \/ contains ".avi" u \/ contains ".mkv" u).
Proof.
  intros H. apply nativeExtractPlayUrls_shape in H as (Hin & Hq & ext & Hext & Hc).
  split; [exact Hin|]. split; [exact Hq|].
  rewrite !elem_of_cons, elem_of_nil in Hext.
  destruct Hext as [->|[->|[->|[->|[->|[]]]]]]; tauto.
Qed.

Lemma demo_play_urls :
  nativeExtractPlayUrls "https://x.com/page" demo_html = ["https://cdn.test/v.m3u8"].
Proof. vm_compute. reflexivity. Qed.

Lemma demo_play_url :
  "https://cdn.test/v.m3u8" ∈ nativeExtractPlayUrls "https://x.com/page" demo_html.
Proof. rewrite demo_play_urls. apply list_elem_of_here. Qed.

(** X4 on the demo page. *)
Lemma X4_play_urls_are_pieces_of_the_page_witness :
  "https://cdn.test/v.m3u8" ∈ nativeExtractPlayUrls "https://x.com/page" demo_html /\
  contains "https://cdn.test/v.m3u8" demo_html /\
  all_chars no_quote "https://cdn.test/v.m3u8" = true.
Proof.
  refine (conj demo_play_url _).
  exact (conj (proj1 (X4_play_urls_are_pieces_of_the_page _ _ _ demo_play_url))
           (proj1 (proj2 (X4_play_urls_are_pieces_of_the_page _ _ _ demo_play_url)))).
Defined.

(** X5. [nativeValidatePlayUrl] accepts an entry of the list
    [nativeExtractPlayUrls] gives exactly when the entry begins with
    [http]: the extension it asks for is always there. *)
Theorem X5_extracted_play_urls_validate (url html u : string) :
  u ∈ nativeExtractPlayUrls url html ->
  nativeValidatePlayUrl u = starts_with "http" u.
Proof.
  intros H. apply nativeExtractPlayUrls_shape in H as (_ & _ & ext & Hext & Hc).
  unfold nativeValidatePlayUrl.
  apply find_is_Some in Hc.
  rewrite !elem_of_cons, elem_of_nil in Hext.
  destruct Hext as [->|[->|[->|[->|[->|[]]]]]];
    rewrite (bool_decide_eq_true_2 _ Hc), ?orb_true_r, andb_true_r; reflexivity.
Qed.

Lemma relative_play_url :
  "/v/a.m3u8" ∈ nativeExtractPlayUrls "https://x.com/page" relative_video_html.
Proof.
  replace (nativeExtractPlayUrls "https://x.com/page" relative_video_html)
    with ["/v/a.m3u8"] by (vm_compute; reflexivity).
  apply list_elem_of_here.
Qed.

(** X5 on an absolute and on a relative entry. *)
Lemma X5_extracted_play_urls_validate_witness :
  "https://cdn.test/v.m3u8" ∈ nativeExtractPlayUrls "https://x.com/page" demo_html /\
  "/v/a.m3u8" ∈ nativeExtractPlayUrls "https://x.com/page" relative_video_html /\
  nativeValidatePlayUrl "https://cdn.test/v.m3u8" = true /\
  nativeValidatePlayUrl "/v/a.m3u8" = false.
Proof.
  refine (conj demo_play_url (conj relative_play_url _)).
  exact (conj (X5_extracted_play_urls_validate _ _ _ demo_play_url)
           (X5_extracted_play_urls_validate _ _ _ relative_play_url)).
Defined.

(** *** The texts handed back *)

Lemma c_str_id (s : string) : all_chars no_nul s = true -> c_str s = s.
Proof.
  unfold all_chars, no_nul. induction s as [|c s IH];
    cbn [list_ascii_of_string forallb c_str]; [reflexivity|].
  intros H. apply andb_true_iff in H as [Hc H]. apply negb_true_iff in Hc.
  rewrite Hc, (IH H). reflexivity.
Qed.

Lemma json_elements_chars (p : ascii -> bool) (first : bool) (l : list string) :
  p ","%char = true -> p (ascii_of_nat 34) = true ->
  Forall (fun x => all_chars p x = true) l ->
  all_chars p (json_elements first l) = true.
Proof.
  intros Hcomma Hdq Hl. revert first. induction Hl as [|x l Hx _ IH]; intros first;
    cbn [json_elements]; [reflexivity|].
  unfold quoted. rewrite !all_chars_app, Hx, IH.
  assert (all_chars p DQ = true) as ->
    by (unfold all_chars; cbn; rewrite Hdq; reflexivity).
  destruct first; [reflexivity|]. unfold all_chars. cbn. rewrite Hcomma. reflexivity.
Qed.

Lemma json_array_chars (p : ascii -> bool) (l : list string) :
  p "["%char = true -> p "]"%char = true ->
  p ","%char = true -> p (ascii_of_nat 34) = true ->
  Forall (fun x => all_chars p x = true) l ->
  all_chars p (json_array l) = true.
Proof.
  intros Ho Hc Hcomma Hdq Hl. unfold json_array.
  rewrite !all_chars_app, (json_elements_chars p true l Hcomma Hdq Hl).
  unfold all_chars. cbn. rewrite Ho, Hc. reflexivity.
Qed.

(** Two strings without a quote, each in front of a quote: the quote
    tells where the string ends. *)
Lemma split_at_quote (x y a b : string) :
  all_chars no_quote x = true -> all_chars no_quote y = true ->
  x +:+ DQ +:+ a = y +:+ DQ +:+ b -> x = y /\ a = b.
Proof.
  unfold all_chars. revert y. induction x as [|c x IH]; intros [|d y];
    cbn [list_ascii_of_string forallb String.append]; intros Hx Hy H.
  - injection H as <-. auto.
  - injection H as <- _. discriminate Hy.
  - injection H as -> _. discriminate Hx.
  - injection H as <- H. apply andb_true_iff in Hx as [_ Hx], Hy as [_ Hy].
    destruct (IH y Hx Hy H) as [-> ->]. auto.
Qed.

Lemma json_elements_inj (l1 l2 : list string) (t1 t2 : string) :
  Forall (fun x => all_chars no_quote x = true) l1 ->
  Forall (fun x => all_chars no_quote x = true) l2 ->
  json_elements false l1 +:+ "]" +:+ t1 = json_elements false l2 +:+ "]" +:+ t2 ->
  l1 = l2.
Proof.
  intros H1. revert l2. induction H1 as [|x l1 Hx _ IH]; intros l2 H2 H;
    destruct H2 as [|y l2 Hy H2]; cbn [json_elements] in H; try reflexivity.
  - discriminate H.
  - discriminate H.
  - unfold quoted in H. cbn [String.append] in H. rewrite !app_assoc_str in H.
    injection H as H. apply split_at_quote in H as [-> H]; [|assumption..].
    f_equal. eapply IH; eassumption.
Qed.

(** The text of an array of strings without quotes tells the array. *)
Lemma json_array_inj (l1 l2 : list string) :
  Forall (fun x => all_chars no_quote x = true) l1 ->
  Forall (fun x => all_chars no_quote x = true) l2 ->
  json_array l1 = json_array l2 -> l1 = l2.
Proof.
  unfold json_array. intros H1 H2 H. cbn [String.append] in H. injection H as H.
  destruct H1 as [|x l1 Hx H1], H2 as [|y l2 Hy H2]; cbn [json_elements] in H;
    try reflexivity.
  - discriminate H.
  - discriminate H.
  - unfold quoted in H. cbn [String.append] in H. rewrite !app_assoc_str in H.
    injection H as H. apply split_at_quote in H as [-> H]; [|assumption..].
    f_equal. apply (json_elements_inj l1 l2 EmptyString EmptyString); assumption.
Qed.

Lemma nativeExtractPlayUrls_text_array (url html : string) :
  nativeExtractPlayUrls_text url html
  = c_str (json_array (nativeExtractPlayUrls url html)).
Proof.
  unfold nativeExtractPlayUrls_text, nativeExtractPlayUrls.
  destruct (extractPlayUrls html); reflexivity.
Qed.

(** For a page without a NUL character the text is the array as
    written. *)
Lemma nativeExtractPlayUrls_text_whole (url html : string) :
  all_chars no_nul html = true ->
  nativeExtractPlayUrls_text url html = json_array (nativeExtractPlayUrls url html).
Proof.
  intros Hnul. rewrite nativeExtractPlayUrls_text_array. apply c_str_id.
  apply json_array_chars; try reflexivity.
  apply Forall_forall. intros u Hu.
  apply nativeExtractPlayUrls_shape in Hu as (Hin & _).
  eapply all_chars_contains; eassumption.
Qed.

(** X6. The text [nativeExtractPlayUrls] returns for a page without a
    NUL character is the array of the play URLs written without escapes,
    and it tells the list: two calls that return the same text have found
    the same play URLs, because no play URL holds a double quote. *)
Theorem X6_play_url_text_tells_the_list (url1 html1 url2 html2 : string) :
  all_chars no_nul html1 = true -> all_chars no_nul html2 = true ->
  nativeExtractPlayUrls_text url1 html1
  = json_array (nativeExtractPlayUrls url1 html1) /\
  (nativeExtractPlayUrls_text url1 html1 = nativeExtractPlayUrls_text url2 html2 ->
   nativeExtractPlayUrls url1 html1 = nativeExtractPlayUrls url2 html2).
Proof.
  intros H1 H2. split; [apply nativeExtractPlayUrls_text_whole, H1|].
  rewrite !nativeExtractPlayUrls_text_whole by assumption.
  apply json_array_inj; apply Forall_forall; intros u Hu;
    apply nativeExtractPlayUrls_shape in Hu as (_ & Hq & _); exact Hq.
Qed.

(** X6 on the demo page and on the page with a relative address. *)
Lemma X6_play_url_text_tells_the_list_witness :
  all_chars no_nul demo_html = true /\
  all_chars no_nul relative_video_html = true /\
  nativeExtractPlayUrls_text "https://x.com/page" demo_html
  = json_array (nativeExtractPlayUrls "https://x.com/page" demo_html).
Proof.
  refine (conj eq_refl (conj eq_refl _)).
  exact (proj1 (X6_play_url_text_tells_the_list "https://x.com/page" demo_html
                  "https://x.com/page" relative_video_html eq_refl eq_refl)).
Defined.

(** X7. Whatever the page, the page URL and the measured duration, the
    text [nativeParse] returns is the serialised fault record: title,
    content and thumbnail are empty strings and the three containers are
    empty; the duration is written in decimal; the error is the text the
    standard library gives for the exception [extractDownloadUrls] throws
    for its patterns, whatever that library's texts are; and the URL is
    what the handler reads where the URL was after it has released it. *)
Theorem X7_nativeParse_text (what_of : exn -> string) (url html : string)
    (elapsed : Z) (released : string) :
  extractDownloadUrls html url = Throw (regex_error error_paren) /\
  nativeParse_text_with what_of url html elapsed released
  = c_str
      ("{" +:+ quoted "url" +:+ ":" +:+ quoted released +:+ ","
       +:+ quoted "title" +:+ ":" +:+ quoted EmptyString +:+ ","
       +:+ quoted "content" +:+ ":" +:+ quoted EmptyString +:+ ","
       +:+ quoted "thumbnail" +:+ ":" +:+ quoted EmptyString +:+ ","
       +:+ quoted "parseTime" +:+ ":" +:+ decimal elapsed +:+ ","
       +:+ quoted "error" +:+ ":" +:+ quoted (what_of (regex_error error_paren)) +:+ ","
       +:+ quoted "playUrls" +:+ ":[],"
       +:+ quoted "downloadUrls" +:+ ":[],"
       +:+ quoted "metadata" +:+ ":{}}") /\
  nativeParse_text url html elapsed released
  = nativeParse_text_with what url html elapsed released.
Proof.
  split; [apply extractDownloadUrls_throws|]. split; [|reflexivity].
  unfold nativeParse_text_with. rewrite nativeParse_with_faults.
  unfold spiderResultToJson.
  cbn [Spider.url title content thumbnail parseTime error playUrls downloadUrls
       metadata].
  unfold in_key_order. rewrite map_to_list_empty. reflexivity.
Qed.

(** *** The metadata *)

(** The metadata patterns: the first group is in the sequence of each,
    reads value characters only and at least one. *)
Lemma metadata_patterns_checked :
  forallb
    (fun re =>
       match set_body 1 (re_node re) with
       | Some body => reads (re_flags re) value_char body && never_empty body
       | None => false
       end)
    (compiled (metadata_pattern <$> metadata_keys)) = true.
Proof. vm_compute. reflexivity. Qed.

(** X8. [extractMetadata] returns for every page; the keys of the map
    are among the six names it looks for, and every value is a piece of
    the page, is not empty and holds no quote, no comma and no white
    space. *)
Theorem X8_metadata_values (html : string) :
  exists md, extractMetadata html = Ok md /\
    forall k v, md !! k = Some v ->
      k ∈ metadata_keys /\ contains v html /\
      v <> EmptyString /\ all_chars value_char v = true.
Proof.
  unfold extractMetadata. pose proof metadata_patterns_checked as Hall.
  unfold compiled in Hall.
  destruct metadata_patterns_compile as (ps & Hps & _). rewrite Hps in Hall |- *.
  cbn [bind]. eexists. split; [reflexivity|].
  rewrite forallb_forall in Hall.
  assert (forall p, p ∈ zip metadata_keys ps ->
            fst p ∈ metadata_keys /\
            forall m, regex_search (snd p) html = Some m ->
              contains (m_str m 1) html /\
              m_str m 1 <> EmptyString /\ all_chars value_char (m_str m 1) = true)
    as Hzip.
  { intros [k re] Hp. cbn [fst snd]. split; [eapply elem_of_zip_l, Hp|].
    intros m Hm. apply elem_of_zip_r, list_elem_of_In, Hall in Hp.
    destruct (set_body 1 (re_node re)) as [body|] eqn:Hset; [|discriminate].
    apply andb_true_iff in Hp as [Hreads Hne].
    pose proof (regex_search_within re html m Hm) as Hin.
    apply regex_search_from_attempt in Hm.
    destruct (from_attempt_sets re 1 body m Hset Hm) as (w & s & Hw & HM).
    cbn [m_str]. rewrite Hw. cbn [default].
    split; [eapply Hin, Hw|].
    split; [eapply never_empty_sound|eapply reads_sound]; eassumption. }
  revert Hzip. generalize (zip metadata_keys ps) as l.
  assert (forall k v, (∅ : gmap string string) !! k = Some v ->
            k ∈ metadata_keys /\ contains v html /\
            v <> EmptyString /\ all_chars value_char v = true)
    as Hmd by (intros k v H; rewrite lookup_empty in H; discriminate).
  revert Hmd. generalize (∅ : gmap string string) as md.
  intros md Hmd l. revert md Hmd.
  induction l as [|p l IH]; intros md Hmd Hl; [exact Hmd|].
  cbn [foldl]. apply IH.
  - destruct (Hl p) as [Hk Hv]; [apply list_elem_of_here|].
    destruct (regex_search (snd p) html) as [m|]; [|exact Hmd].
    intros k v. destruct (decide (fst p = k)) as [<-|Hne].
    + rewrite lookup_insert_eq. intros [= <-]. split; [exact Hk|].
      apply Hv. reflexivity.
    + rewrite lookup_insert_ne by exact Hne. apply Hmd.
  - intros q Hq. apply Hl, list_elem_of_further, Hq.
Qed.

(** *** What is extracted is not cut short *)

Section Greedy.

Variable f : flags.
Variable p : ascii -> bool.

Lemma star_loop_accepting (body : (mstate -> option mstate) -> mstate -> option mstate)
    (gs : list nat) (k : mstate -> option mstate) (n : nat) (st : mstate) :
  accepting k -> is_Some (star_loop body gs k n st).
Proof.
  intros Hk. destruct (Hk st) as (s' & Hs & _).
  destruct n as [|n]; cbn [star_loop]; [rewrite Hs; eauto|].
  destruct (body _ _); [eauto|rewrite Hs; eauto].
Qed.

(** A star over a class, followed by a continuation that accepts, stops
    in front of a character the class rejects or at the end. *)
Lemma star_loop_class (negated : bool) (items : list class_item) (gs : list nat)
    (k : mstate -> option mstate) (n : nat) (st : mstate) :
  star_loop (m_node f (Class negated items)) gs k (S n) st
  = match rest st with
    | String x tl =>
        if class_matches f negated items x then
          match star_loop (m_node f (Class negated items)) gs k n
                  (advance (clear_caps gs st) tl) with
          | Some r => Some r
          | None => k st
          end
        else k st
    | EmptyString => k st
    end.
Proof.
  cbn [star_loop m_node]. unfold step at 1. cbn [clear_caps rest].
  destruct (rest st) as [|x tl]; [reflexivity|].
  destruct (class_matches f negated items x); [|reflexivity].
  cbn [advance rest String.length].
  replace (String.length tl <? S (String.length tl)) with true
    by (symmetry; apply Nat.ltb_lt; lia).
  reflexivity.
Qed.

(** A star over a class, followed by a continuation that accepts, stops
    in front of a character the class rejects or at the end. *)
Lemma star_class_greedy (negated : bool) (items : list class_item) (gs : list nat)
    (k : mstate -> option mstate) :
  accepting k ->
  forall n st st',
    star_loop (m_node f (Class negated items)) gs k n st = Some st' ->
    String.length (rest st) <= n ->
    forall x tl, rest st' = String x tl -> class_matches f negated items x = false.
Proof.
  intros Hk. induction n as [|n IH]; intros st st' H Hn x tl Hx.
  - cbn [star_loop] in H. destruct (Hk st) as (s' & Hs & Hr).
    assert (s' = st') as -> by congruence.
    rewrite Hr in Hx. rewrite Hx in Hn. cbn [String.length] in Hn. lia.
  - rewrite star_loop_class in H.
    destruct (Hk st) as (s' & Hs & Hr).
    destruct (rest st) as [|x0 tl0] eqn:Hrest.
    + assert (s' = st') as -> by congruence.
      rewrite Hr in Hx. discriminate.
    + destruct (class_matches f negated items x0) eqn:Hc.
      * destruct (star_loop_accepting (m_node f (Class negated items)) gs k n
                    (advance (clear_caps gs st) tl0) Hk) as [r Hrr].
        rewrite Hrr in H. assert (r = st') as -> by congruence.
        refine (IH _ _ Hrr _ x tl Hx).
        cbn [advance rest]. cbn [String.length] in Hn. lia.
      * assert (s' = st') as -> by congruence.
        rewrite Hr in Hx. injection Hx as -> _. exact Hc.
Qed.

Lemma greedy_end_seq (a b : node) :
  greedy_end f p (Seq a b) = true ->
  (b = Empty /\ greedy_end f p a = true) \/ (b <> Empty /\ greedy_end f p b = true).
Proof.
  cbn [greedy_end]. destruct b; intros H;
    first [left; split; [reflexivity|exact H] | right; split; [discriminate|exact H]].
Qed.

Lemma m_node_greedy (r : node) :
  greedy_end f p r = true ->
  forall k st st', accepting k -> m_node f r k st = Some st' ->
    forall x tl, rest st' = String x tl -> p x = false.
Proof.
  induction r as [| c | | negated items | | a IHa b IHb | a IHa b IHb | i a IHa | a IHa];
    try discriminate; intros Hg k st st' Hk H x tl Hx.
  - apply greedy_end_seq in Hg as [[-> Ha]|[_ Hb]].
    + cbn [m_node] in H. eapply (IHa Ha (fun s => k s)); eauto.
    + cbn [m_node] in H. apply m_node_runs in H as (st1 & _ & H).
      eapply IHb; eauto.
  - cbn [greedy_end] in Hg. cbn [m_node] in H.
    eapply (IHa Hg (fun s => k (set_cap i st s))); [|exact H|exact Hx].
    intros s. destruct (Hk (set_cap i st s)) as (s' & Hs & Hr). eauto.
  - destruct a; try discriminate. cbn [greedy_end] in Hg. cbn [m_node groups] in H.
    pose proof (star_class_greedy negated items [] k Hk _ _ _ H (le_n _) x tl Hx) as Hc.
    apply (forallb_all_ascii _ x) in Hg. cbv beta in Hg. rewrite Hc in Hg.
    destruct (p x); [discriminate|reflexivity].
Qed.

(** The group [i] at the end of a pattern holds what stands right in
    front of the place the run stops at. *)
Lemma Run_group_last (i : nat) (r : node) (st st' : mstate) :
  group_last i r = true -> Run f r st st' ->
  exists a w, rest st = a +:+ w +:+ rest st' /\ caps st' !! i = Some w.
Proof.
  revert st st'.
  induction r as [| c | | negated items | | a IHa b IHb | a IHa b IHb | j a IHa | a IHa];
    try discriminate; intros st st' Hg Hrun.
  inversion Hrun as [| | | | |a0 b0 st0 st1 st2 Hrun1 Hrun2| | | | |]; subst.
  assert ((exists j body, a = Group j body /\ b = Empty /\ i = j) \/
          group_last i b = true) as [(j & body & -> & -> & <-)|Hb].
  { cbn [group_last] in Hg. destruct a; try (right; exact Hg).
    destruct b; try (right; exact Hg).
    left. apply Nat.eqb_eq in Hg. eauto. }
  - inversion Hrun2; subst. inversion Hrun1 as [| | | | | | | |j0 a0 st0 st2 Hbody| |]; subst.
    apply Run_word in Hbody as (w & Hw & _).
    exists EmptyString, w. split; [exact Hw|].
    cbn [set_cap caps]. rewrite lookup_insert_eq.
    f_equal. apply consumed_app, Hw.
  - apply Run_word in Hrun1 as (w1 & Hw1 & _).
    destruct (IHb _ _ Hb Hrun2) as (a' & w & Hw & Hc).
    exists (w1 +:+ a'), w. split; [|exact Hc].
    rewrite Hw1, Hw, app_assoc_str. reflexivity.
Qed.

End Greedy.

(** What one attempt yields for a pattern whose first group comes last
    and ends in a greedy star. *)
Lemma match_at_ends (re : regex) (p : ascii -> bool) (s : string) (m : smatch) :
  group_last 1 (re_node re) = true ->
  greedy_end (re_flags re) p (re_node re) = true ->
  match_at re false s = Some m ->
  exists a, s = a +:+ m_str m 1 +:+ m_suffix m /\
    forall c, first_char (m_suffix m) = Some c -> p c = false.
Proof.
  intros Hlast Hgreedy H.
  pose proof (match_at_runs re false s m H) as (st' & Hrun & Hsub & Hsfx).
  apply (Run_group_last _ 1) in Hrun as (a & w & Hw & Hc); [|exact Hlast].
  cbn [rest] in Hw. exists a. cbn [m_str]. rewrite Hsub, Hc, Hsfx. cbn [default].
  split; [exact Hw|].
  unfold match_at in H.
  destruct (m_node _ _ _ _) as [st|] eqn:Hm; [|discriminate].
  assert (rest st = rest st') as <- by (injection H as <-; cbn [m_suffix] in Hsfx; exact Hsfx).
  intros c Hfirst. destruct (rest st) as [|x tl] eqn:Hr; [discriminate|].
  injection Hfirst as ->.
  assert (accepting
            (fun st0 => if false && (String.length (rest st0) =? String.length s)
                        then None else Some st0)) as Hacc
    by (intros s0; cbn [andb]; eauto).
  exact (m_node_greedy _ p _ Hgreedy _ _ _ Hacc Hm c tl Hr).
Qed.

Lemma regex_search_ends (re : regex) (p : ascii -> bool) (s : string) (m : smatch) :
  group_last 1 (re_node re) = true ->
  greedy_end (re_flags re) p (re_node re) = true ->
  regex_search re s = Some m ->
  exists a, s = a +:+ m_str m 1 +:+ m_suffix m /\
    forall c, first_char (m_suffix m) = Some c -> p c = false.
Proof.
  intros Hlast Hgreedy. revert m.
  induction s as [|c s IH]; intros m; cbn [regex_search].
  - destruct (match_at re false EmptyString) as [m'|] eqn:H; [|discriminate].
    intros [= <-]. eapply match_at_ends; eassumption.
  - destruct (match_at re false (String c s)) as [m'|] eqn:H.
    + intros [= <-]. eapply match_at_ends; eassumption.
    + destruct (regex_search re s) as [m'|]; [|discriminate].
      intros [= <-]. destruct (IH m' eq_refl) as (a & Ha & Hp).
      exists (String c a). split; [|exact Hp].
      cbn [String.append]. f_equal. exact Ha.
Qed.

(** The matches of a pattern that reads at least one character are
    found by searches alone. *)
Lemma regex_iterator_searches (re : regex) (P : string -> smatch -> Prop) :
  never_empty (re_node re) = true ->
  (forall s m, regex_search re s = Some m -> P s m) ->
  (forall pre s m, P s m -> P (pre +:+ s) m) ->
  forall fuel s m, In m (regex_iterator fuel re false s) -> P s m.
Proof.
  intros Hne Hsearch Hpre. induction fuel as [|fuel IH]; intros s m;
    cbn [regex_iterator]; [intros []|].
  destruct (regex_search re s) as [m0|] eqn:Hs; [|intros []].
  assert (is_empty (m_whole m0) = false) as ->.
  { pose proof (from_attempt_whole re m0 (regex_search_from_attempt re s m0 Hs)) as HM.
    apply never_empty_sound in HM; [|exact Hne].
    destruct (m_whole m0); [contradiction|reflexivity]. }
  intros [<-|Hin]; [apply Hsearch, Hs|].
  rewrite (regex_search_split re s m0 Hs), <- app_assoc_str.
  apply Hpre, IH, Hin.
Qed.

(** What the first group of such a pattern captures stands in the page
    in front of a character its last class rejects, or at the end. *)
Lemma captures_end (re : regex) (p : ascii -> bool) (html u : string) :
  never_empty (re_node re) = true ->
  group_last 1 (re_node re) = true ->
  greedy_end (re_flags re) p (re_node re) = true ->
  u ∈ captures re html -> ends_in p u html.
Proof.
  intros Hne Hlast Hgreedy. unfold captures, sregex_iterator. intros H.
  apply list_elem_of_fmap in H as (m & -> & Hm). apply list_elem_of_In in Hm.
  assert (exists a, html = a +:+ m_str m 1 +:+ m_suffix m /\
            forall c, first_char (m_suffix m) = Some c -> p c = false)
    as (a & Ha & Hp).
  { revert Hm.
    apply (regex_iterator_searches re
             (fun s m => exists a, s = a +:+ m_str m 1 +:+ m_suffix m /\
                forall c, first_char (m_suffix m) = Some c -> p c = false) Hne).
    - intros s m0. apply regex_search_ends; assumption.
    - intros pre s m0 (a & Ha & Hp). exists (pre +:+ a). split; [|exact Hp].
      rewrite app_assoc_str, <- Ha. reflexivity. }
  exists a, (m_suffix m). split; assumption.
Qed.

Lemma playUrl_patterns_end :
  forallb
    (fun re =>
       never_empty (re_node re) && group_last 1 (re_node re)
       && greedy_end (re_flags re) url_char (re_node re))
    (compiled playUrl_patterns) = true.
Proof. vm_compute. reflexivity. Qed.

Lemma metadata_patterns_end :
  forallb
    (fun re =>
       never_empty (re_node re) && group_last 1 (re_node re)
       && greedy_end (re_flags re) value_char (re_node re))
    (compiled (metadata_pattern <$> metadata_keys)) = true.
Proof. vm_compute. reflexivity. Qed.

Lemma nativeExtractPlayUrls_ends (url html u : string) :
  u ∈ nativeExtractPlayUrls url html -> ends_in url_char u html.
Proof.
  rewrite nativeExtractPlayUrls_candidates, first_occurrences_elem.
  unfold play_candidates. rewrite candidates_elem. intros (re & Hre & Hu).
  pose proof playUrl_patterns_end as Hall. rewrite forallb_forall in Hall.
  specialize (Hall re (proj1 (list_elem_of_In _ _) Hre)). cbv beta in Hall.
  apply andb_true_iff in Hall as [Hall Hgreedy].
  apply andb_true_iff in Hall as [Hne Hlast].
  eapply captures_end; eassumption.
Qed.

(** X9. An entry of the list [nativeExtractPlayUrls] gives is not cut
    short: it stands in the page in front of a quote or a white space
    character, or at the end of the page. *)
Theorem X9_play_urls_are_not_cut_short (url html u : string) :
  u ∈ nativeExtractPlayUrls url html ->
  exists a b, html = a +:+ u +:+ b /\
    forall c, first_char b = Some c ->
      c = ascii_of_nat 34 \/ c = "'"%char \/ is_space c = true.
Proof.
  intros Hu. apply nativeExtractPlayUrls_ends in Hu as (a & b & Hab & Hp).
  exists a, b. split; [exact Hab|]. intros c Hc. specialize (Hp c Hc).
  unfold url_char, no_quote in Hp.
  destruct (Ascii.eqb c (ascii_of_nat 34)) eqn:H1;
    [left; apply Ascii.eqb_eq, H1|].
  destruct (Ascii.eqb c "'") eqn:H2; [right; left; apply Ascii.eqb_eq, H2|].
  right; right. cbn [negb andb] in Hp. destruct (is_space c); [reflexivity|discriminate].
Qed.

(** X9 on the demo page. *)
Lemma X9_play_urls_are_not_cut_short_witness :
  "https://cdn.test/v.m3u8" ∈ nativeExtractPlayUrls "https://x.com/page" demo_html /\
  exists a b, demo_html = a +:+ "https://cdn.test/v.m3u8" +:+ b /\
    forall c, first_char b = Some c ->
      c = ascii_of_nat 34 \/ c = "'"%char \/ is_space c = true.
Proof.
  exact (conj demo_play_url
           (X9_play_urls_are_not_cut_short "https://x.com/page" demo_html
              "https://cdn.test/v.m3u8" demo_play_url)).
Defined.

(** X10. A value in the map of [extractMetadata] is not cut short: it
    stands in the page in front of a quote, a comma or a white space
    character, or at the end of the page. *)
Theorem X10_metadata_values_are_not_cut_short (html : string) :
  exists md, extractMetadata html = Ok md /\
    forall k v, md !! k = Some v -> ends_in value_char v html.
Proof.
  unfold extractMetadata. pose proof metadata_patterns_end as Hall.
  unfold compiled in Hall.
  destruct metadata_patterns_compile as (ps & Hps & _). rewrite Hps in Hall |- *.
  cbn [bind]. eexists. split; [reflexivity|].
  rewrite forallb_forall in Hall.
  assert (forall q, q ∈ zip metadata_keys ps ->
            forall m, regex_search (snd q) html = Some m ->
              ends_in value_char (m_str m 1) html) as Hzip.
  { intros [k re] Hq m Hm. cbn [snd] in Hm.
    apply elem_of_zip_r, list_elem_of_In, Hall in Hq. cbv beta in Hq.
    apply andb_true_iff in Hq as [Hq Hgreedy].
    apply andb_true_iff in Hq as [_ Hlast].
    destruct (regex_search_ends re value_char html m Hlast Hgreedy Hm) as (a & Ha & Hp).
    exists a, (m_suffix m). split; assumption. }
  revert Hzip. generalize (zip metadata_keys ps) as l.
  assert (forall k v, (∅ : gmap string string) !! k = Some v ->
            ends_in value_char v html)
    as Hmd by (intros k v H; rewrite lookup_empty in H; discriminate).
  revert Hmd. generalize (∅ : gmap string string) as md.
  intros md Hmd l. revert md Hmd.
  induction l as [|q l IH]; intros md Hmd Hl; [exact Hmd|].
  cbn [foldl]. apply IH.
  - pose proof (Hl q (list_elem_of_here _ _)) as Hv.
    destruct (regex_search (snd q) html) as [m|]; [|exact Hmd].
    intros k v. destruct (decide (fst q = k)) as [<-|Hne].
    + rewrite lookup_insert_eq. intros [= <-]. apply Hv. reflexivity.
    + rewrite lookup_insert_ne by exact Hne. apply Hmd.
  - intros q' Hq'. apply Hl, list_elem_of_further, Hq'.
Qed.

(** *** What the extractors find *)

Lemma Matches_lits (f : flags) (t : string) (r : node) (w w2 s : string) :
  translate_all f w = translate_all f t -> Matches f r w2 s ->
  Matches f (lits t r) (w +:+ w2) s.
Proof.
  revert w. induction t as [|c t IH]; intros w Hw Hr.
  - destruct w; [exact Hr|discriminate].
  - destruct w as [|x w]; [discriminate|].
    cbn [translate_all] in Hw. injection Hw as Hx Hw.
    cbn [lits]. change (String x w +:+ w2) with (String x EmptyString +:+ (w +:+ w2)).
    apply M_Seq; [|apply IH; assumption].
    apply M_Char. unfold char_matches. rewrite Hx. apply Ascii.eqb_refl.
Qed.

Lemma Matches_star_class (f : flags) (negated : bool) (items : list class_item)
    (w s : string) :
  all_chars (class_matches f negated items) w = true ->
  Matches f (Star (Class negated items)) w s.
Proof.
  unfold all_chars. induction w as [|x w IH]; intros H; [apply M_Star0|].
  cbn [list_ascii_of_string forallb] in H. apply andb_true_iff in H as [Hx Hw].
  change (String x w) with (String x EmptyString +:+ w).
  apply M_StarS; [apply M_Class, Hx|apply IH, Hw].
Qed.

Lemma Matches_plus_class (f : flags) (negated : bool) (items : list class_item)
    (w s : string) :
  w <> EmptyString -> all_chars (class_matches f negated items) w = true ->
  Matches f (Seq (Class negated items) (Star (Class negated items))) w s.
Proof.
  destruct w as [|x w]; [contradiction|]. intros _ H.
  unfold all_chars in H. cbn [list_ascii_of_string forallb] in H.
  apply andb_true_iff in H as [Hx Hw].
  change (String x w) with (String x EmptyString +:+ w).
  apply M_Seq; [apply M_Class, Hx|apply Matches_star_class, Hw].
Qed.

Lemma Matches_seq_empty (f : flags) (a : node) (w s : string) :
  Matches f a w s -> Matches f (Seq a Empty) w s.
Proof.
  intros H. rewrite <- (app_nil_r_str w). apply M_Seq; [exact H|apply M_Empty].
Qed.

Lemma all_chars_ext (p q : ascii -> bool) (s : string) :
  (forall c, p c = true -> q c = true) -> all_chars p s = true -> all_chars q s = true.
Proof.
  intros Hpq. unfold all_chars. rewrite !forallb_forall. intros H c Hc.
  apply Hpq, H, Hc.
Qed.

Lemma url_char_class (c : ascii) :
  url_char c = true ->
  class_matches ECMAScript true [CChar (ascii_of_nat 34); CChar "'"; CSpace true] c = true.
Proof.
  assert (forallb (fun c => implb (url_char c)
                     (class_matches ECMAScript true
                        [CChar (ascii_of_nat 34); CChar "'"; CSpace true] c))
            all_ascii = true) as H by (vm_compute; reflexivity).
  apply (forallb_all_ascii _ c) in H. cbv beta in H. intros Hc. rewrite Hc in H.
  exact H.
Qed.

Lemma value_char_class (c : ascii) :
  value_char c = true ->
  class_matches icase_flag true
    [CChar (ascii_of_nat 34); CChar "'"; CChar ","; CSpace true] c = true.
Proof.
  assert (forallb (fun c => implb (value_char c)
                     (class_matches icase_flag true
                        [CChar (ascii_of_nat 34); CChar "'"; CChar ","; CSpace true] c))
            all_ascii = true) as H by (vm_compute; reflexivity).
  apply (forallb_all_ascii _ c) in H. cbv beta in H. intros Hc. rewrite Hc in H.
  exact H.
Qed.

(** The first five play URL patterns are the bare patterns of the five
    extensions. *)
Lemma bare_patterns_nodes :
  take 5 (compiled playUrl_patterns)
  = (fun ext => {| re_node := bare_node ext; re_flags := ECMAScript; mark_count := 1 |})
      <$> play_extensions.
Proof. vm_compute. reflexivity. Qed.

Lemma metadata_patterns_nodes :
  compiled (metadata_pattern <$> metadata_keys)
  = (fun key => {| re_node := metadata_node key; re_flags := icase_flag;
                   mark_count := 1 |}) <$> metadata_keys.
Proof. vm_compute. reflexivity. Qed.

(** A bare play URL is a word of the bare pattern of its extension. *)
Lemma bare_node_matches (scheme host ext tail s : string) :
  scheme ∈ ["http://"; "https://"] -> host <> EmptyString ->
  all_chars url_char host = true -> all_chars url_char tail = true ->
  Matches ECMAScript (bare_node ext) (scheme +:+ host +:+ ext +:+ tail) s.
Proof.
  intros Hscheme Hhost Hh Ht.
  assert (Matches ECMAScript
            (Seq (Seq url_class (Star url_class)) (lits ext (Seq (Star url_class) Empty)))
            (host +:+ ext +:+ tail) s) as Hbody.
  { apply M_Seq.
    - apply Matches_plus_class; [exact Hhost|].
      eapply all_chars_ext, Hh. apply url_char_class.
    - apply Matches_lits; [reflexivity|].
      rewrite <- (app_nil_r_str tail). apply M_Seq; [|apply M_Empty].
      apply Matches_star_class. eapply all_chars_ext, Ht. apply url_char_class. }
  unfold bare_node. rewrite <- (app_nil_r_str (_ +:+ _)).
  rewrite !app_assoc_str. rewrite <- !app_assoc_str. rewrite app_nil_r_str.
  rewrite <- (app_nil_r_str (_ +:+ _)).
  apply M_Seq; [|apply M_Empty]. cbn [String.append]. apply M_Group.
  rewrite !app_assoc_str.
  assert (forall c w r, Matches ECMAScript r w s ->
            Matches ECMAScript (Seq (Char c) r) (String c w) s) as Hlit.
  { intros c w r Hr. change (String c w) with (String c EmptyString +:+ w).
    apply M_Seq; [|exact Hr]. apply M_Char. unfold char_matches. apply Ascii.eqb_refl. }
  unfold scheme_then.
  apply elem_of_cons in Hscheme as [->|Hscheme];
    [|apply elem_of_cons in Hscheme as [->|Hscheme];
      [|apply elem_of_nil in Hscheme; contradiction]];
    cbn [String.append]; do 4 apply Hlit.
  - change (String ":" ?w) with (EmptyString +:+ String ":" w).
    apply M_Seq; [apply M_AltR, M_Empty|]. cbn [String.append].
    do 3 apply Hlit. exact Hbody.
  - change (String "s" ?w) with (String "s" EmptyString +:+ w).
    apply M_Seq; [apply M_AltL, M_Char; reflexivity|].
    do 3 apply Hlit. exact Hbody.
Qed.

Lemma match_at_group_whole (re : regex) (i : nat) (body : node) (not_null : bool)
    (s : string) (m : smatch) :
  re_node re = Seq (Group i body) Empty ->
  match_at re not_null s = Some m -> m_sub m !! i = Some (m_whole m).
Proof.
  intros Hnode. unfold match_at.
  destruct (m_node _ _ _ _) as [st|] eqn:H; [|discriminate].
  intros [= <-]. cbn [m_sub m_whole].
  apply m_node_runs in H as (st' & Hrun & Hk).
  destruct (_ && _); [discriminate|]. injection Hk as ->.
  rewrite Hnode in Hrun.
  inversion Hrun as [| | | | |a0 b0 st0 st1 st2 Hrun1 Hrun2| | | | |]; subst.
  inversion Hrun2; subst.
  inversion Hrun1 as [| | | | | | | |j0 a0 st0 st2 Hbody| |]; subst.
  cbn [set_cap caps]. rewrite lookup_insert_eq. reflexivity.
Qed.

Lemma regex_search_hit (re : regex) (s : string) (m : smatch) :
  match_at re false s = Some m -> regex_search re s = Some m.
Proof. intros H. destruct s; cbn [regex_search]; rewrite H; reflexivity. Qed.

(** Two runs of accepted characters that start at the same place and
    both stop in front of a rejected character, or at the end, are the
    same. *)
Lemma maximal_run_unique (p : ascii -> bool) (w1 w2 s1 s2 : string) :
  all_chars p w1 = true -> all_chars p w2 = true ->
  w1 +:+ s1 = w2 +:+ s2 ->
  (forall c, first_char s1 = Some c -> p c = false) ->
  (forall c, first_char s2 = Some c -> p c = false) ->
  w1 = w2.
Proof.
  unfold all_chars. revert w2.
  induction w1 as [|x w1 IH]; intros [|y w2] H1 H2 Heq Hs1 Hs2;
    cbn [String.append list_ascii_of_string forallb] in *.
  - reflexivity.
  - apply andb_true_iff in H2 as [Hy _]. rewrite Heq in Hs1.
    rewrite (Hs1 y eq_refl) in Hy. discriminate.
  - apply andb_true_iff in H1 as [Hx _]. rewrite <- Heq in Hs2.
    rewrite (Hs2 x eq_refl) in Hx. discriminate.
  - apply andb_true_iff in H1 as [_ H1]. apply andb_true_iff in H2 as [_ H2].
    injection Heq as -> Heq. f_equal. eapply IH; eassumption.
Qed.

(** A run of accepted characters in front of a rejected one stops
    before it. *)
Lemma run_stops_before (p : ascii -> bool) (w sfx p0 r : string) (d : ascii) :
  all_chars p w = true -> p d = false ->
  w +:+ sfx = p0 +:+ String d r ->
  exists p1, p0 = w +:+ p1 /\ sfx = p1 +:+ String d r.
Proof.
  unfold all_chars. intros Hw Hd. revert p0.
  induction w as [|x w IH]; intros p0 Heq; cbn [String.append] in Heq.
  - exists p0. split; [reflexivity|exact Heq].
  - cbn [list_ascii_of_string forallb] in Hw. apply andb_true_iff in Hw as [Hx Hw].
    destruct p0 as [|y p0]; cbn [String.append] in Heq; injection Heq as -> Heq.
    + rewrite Hd in Hx. discriminate.
    + destruct (IH Hw p0 Heq) as (p1 & -> & ->). exists p1. split; reflexivity.
Qed.

Lemma last_char_split (s : string) (d : ascii) :
  last_char s = Some d -> exists p0, s = p0 +:+ String d EmptyString.
Proof.
  induction s as [|c s IH]; [discriminate|].
  destruct s as [|c' s].
  - intros [= ->]. exists EmptyString. reflexivity.
  - intros H. change (last_char (String c (String c' s))) with (last_char (String c' s)) in H.
    destruct (IH H) as (p0 & Hp0). exists (String c p0).
    cbn [String.append]. rewrite <- Hp0. reflexivity.
Qed.

Section Reach.

Variable re : regex.
Variable p : ascii -> bool.
Hypothesis Hreads : reads (re_flags re) p (re_node re) = true.
Hypothesis Hne : never_empty (re_node re) = true.

Lemma match_at_run (not_null : bool) (s : string) (m : smatch) :
  match_at re not_null s = Some m ->
  s = m_whole m +:+ m_suffix m /\ all_chars p (m_whole m) = true /\
  m_whole m <> EmptyString.
Proof.
  intros H. apply match_at_sound in H as [Hs HM].
  split; [exact Hs|].
  split; [eapply reads_sound|eapply never_empty_sound]; eassumption.
Qed.

(** A search in front of a rejected character either finds a match
    that stops before that character or finds what the search behind
    the character finds. *)
Lemma search_before (p0 r : string) (d : ascii) (m : smatch) :
  p d = false ->
  regex_search re (p0 +:+ String d r) = Some m ->
  (exists p1, m_suffix m = p1 +:+ String d r /\
              String.length p1 < String.length p0) \/
  (exists m', regex_search re r = Some m' /\ m_sub m = m_sub m').
Proof.
  intros Hd. revert m.
  induction p0 as [|c p0 IH]; intros m; cbn [String.append regex_search].
  - destruct (match_at re false (String d r)) as [m'|] eqn:H.
    + apply match_at_run in H as (Hs & Hall & Hnon).
      destruct (m_whole m') as [|x w]; [contradiction|].
      cbn [String.append] in Hs. injection Hs as <- _.
      unfold all_chars in Hall. cbn [list_ascii_of_string forallb] in Hall.
      rewrite Hd in Hall. discriminate.
    + destruct (regex_search re r) as [m'|]; [|discriminate].
      intros [= <-]. right. exists m'. split; reflexivity.
  - destruct (match_at re false (String c (p0 +:+ String d r))) as [m'|] eqn:H.
    + intros [= <-]. left. apply match_at_run in H as (Hs & Hall & Hnon).
      destruct (run_stops_before p (m_whole m') (m_suffix m') (String c p0) r d
                  Hall Hd (eq_sym Hs)) as (p1 & Hp & Hsfx).
      exists p1. split; [exact Hsfx|]. rewrite Hp, length_app_str.
      destruct (m_whole m'); [contradiction|]. cbn [String.length]. lia.
    + destruct (regex_search re (p0 +:+ String d r)) as [m'|]; [|discriminate].
      intros [= <-]. cbn [with_prefix m_suffix m_sub].
      destruct (IH m' eq_refl) as [(p1 & Hp1 & Hlen)|Hr]; [left|right; exact Hr].
      exists p1. split; [exact Hp1|]. cbn [String.length]. lia.
Qed.

(** The iteration reaches the first match behind a rejected
    character. *)
Lemma iterator_reaches (r : string) (d : ascii) (m' : smatch) :
  p d = false -> regex_search re r = Some m' ->
  forall fuel p0, String.length p0 < fuel ->
    exists m, In m (regex_iterator fuel re false (p0 +:+ String d r)) /\
              m_sub m = m_sub m'.
Proof.
  intros Hd Hr. induction fuel as [|fuel IH]; intros p0 Hlen; [lia|].
  cbn [regex_iterator].
  assert (is_Some (regex_search re (p0 +:+ String d r))) as [m Hm].
  { apply regex_search_occurs.
    assert (occurs_in re r) as (a & w & b & -> & HM)
      by (apply regex_search_occurs; eauto).
    exists (p0 +:+ String d a), w, b. split; [|exact HM].
    rewrite !app_assoc_str. reflexivity. }
  rewrite Hm.
  destruct (search_before p0 r d m Hd Hm) as [(p1 & Hp1 & Hlt)|(m'' & Hr' & Hsub)].
  - assert (is_empty (m_whole m) = false) as ->.
    { pose proof (from_attempt_whole re m (regex_search_from_attempt re _ m Hm)) as HM.
      apply never_empty_sound in HM; [|exact Hne].
      destruct (m_whole m); [contradiction|reflexivity]. }
    rewrite Hp1. destruct (IH p1 ltac:(lia)) as (m0 & Hin & Hsub).
    exists m0. split; [right; exact Hin|exact Hsub].
  - exists m. split; [left; reflexivity|]. congruence.
Qed.

End Reach.

Lemma elem_of_take_l {A : Type} (n : nat) (l : list A) (x : A) :
  x ∈ take n l -> x ∈ l.
Proof.
  intros H. rewrite <- (take_drop n l). apply elem_of_app. left. exact H.
Qed.

Lemma bare_nodes_checked :
  forallb
    (fun ext =>
       reads ECMAScript url_char (bare_node ext) && never_empty (bare_node ext)
       && greedy_end ECMAScript url_char (bare_node ext))
    play_extensions = true.
Proof. vm_compute. reflexivity. Qed.

(** A bare play URL that stands on its own in front of [post] is what
    an attempt of the pattern of its extension captures there. *)
Lemma bare_match_at (u post : string) :
  bare_play_url u ->
  (forall c, first_char post = Some c -> url_char c = false) ->
  exists re m, re ∈ take 5 (compiled playUrl_patterns) /\
    reads (re_flags re) url_char (re_node re) = true /\
    never_empty (re_node re) = true /\
    match_at re false (u +:+ post) = Some m /\ m_sub m !! 1 = Some u.
Proof.
  intros (Hall & scheme & host & ext & tail & Hu & Hscheme & Hhost & Hext) Hpost.
  pose proof bare_nodes_checked as Hchk. rewrite forallb_forall in Hchk.
  specialize (Hchk ext (proj1 (list_elem_of_In _ _) Hext)). cbv beta in Hchk.
  apply andb_true_iff in Hchk as [Hchk Hgreedy].
  apply andb_true_iff in Hchk as [Hreads Hne].
  set (re := {| re_node := bare_node ext; re_flags := ECMAScript; mark_count := 1 |}).
  assert (re ∈ take 5 (compiled playUrl_patterns)) as Hre.
  { rewrite bare_patterns_nodes. apply list_elem_of_fmap. exists ext. split; [reflexivity|exact Hext]. }
  assert (Matches ECMAScript (bare_node ext) u post) as HM.
  { rewrite Hu. rewrite Hu, !all_chars_app in Hall.
    apply andb_true_iff in Hall as [_ Hall]. apply andb_true_iff in Hall as [Hh Hall].
    apply andb_true_iff in Hall as [_ Ht].
    apply bare_node_matches; assumption. }
  destruct (match_at_finds re u post HM) as [m Hm].
  exists re, m. split; [exact Hre|]. split; [exact Hreads|]. split; [exact Hne|].
  split; [exact Hm|].
  rewrite (match_at_group_whole re 1 _ false _ m eq_refl Hm). f_equal.
  pose proof (match_at_sound re false _ m Hm) as [Hs HMm].
  destruct (match_at_ends re url_char _ m eq_refl Hgreedy Hm) as (_ & _ & Hend).
  apply (maximal_run_unique url_char (m_whole m) u (m_suffix m) post).
  - eapply reads_sound; [exact HMm|exact Hreads].
  - exact Hall.
  - symmetry. exact Hs.
  - exact Hend.
  - exact Hpost.
Qed.

Lemma stands_alone_spec (pre post : string) :
  stands_alone pre post = true ->
  (pre = EmptyString \/
   exists p0 d, pre = p0 +:+ String d EmptyString /\ url_char d = false) /\
  (forall c, first_char post = Some c -> url_char c = false).
Proof.
  unfold stands_alone. intros H. apply andb_true_iff in H as [Hpre Hpost]. split.
  - destruct (last_char pre) as [d|] eqn:Hl.
    + right. destruct (last_char_split pre d Hl) as [p0 Hp0].
      exists p0, d. split; [exact Hp0|]. apply negb_true_iff, Hpre.
    + left. destruct pre as [|c pre]; [reflexivity|].
      exfalso. revert c Hl. induction pre as [|c' pre IH]; intros c Hl; [discriminate|].
      apply (IH c'). exact Hl.
  - intros c Hc. rewrite Hc in Hpost. apply negb_true_iff, Hpost.
Qed.

Lemma bare_play_url_extracted (url pre u post : string) :
  bare_play_url u -> stands_alone pre post = true ->
  u ∈ nativeExtractPlayUrls url (pre +:+ u +:+ post).
Proof.
  intros Hu Halone. apply stands_alone_spec in Halone as [Hpre Hpost].
  destruct (bare_match_at u post Hu Hpost) as (re & m & Hre & Hreads & Hne & Hm & Hcap).
  rewrite nativeExtractPlayUrls_candidates, first_occurrences_elem.
  unfold play_candidates. apply candidates_elem. exists re.
  split; [eapply elem_of_take_l, Hre|].
  unfold captures, sregex_iterator. apply list_elem_of_fmap.
  pose proof (regex_search_hit re _ m Hm) as Hsearch.
  destruct Hpre as [->|(p0 & d & -> & Hd)].
  - exists m. split; [cbn [m_str]; rewrite Hcap; reflexivity|].
    cbn [String.append].
    replace (2 * String.length (u +:+ post) + 3)
      with (S (2 * String.length (u +:+ post) + 2)) by lia.
    cbn [regex_iterator]. rewrite Hsearch. apply list_elem_of_here.
  - rewrite app_assoc_str. cbn [String.append].
    destruct (iterator_reaches re url_char Hreads Hne (u +:+ post) d m Hd Hsearch
                (2 * String.length (p0 +:+ String d (u +:+ post)) + 3) p0)
      as (m0 & Hin & Hsub).
    { rewrite length_app_str. lia. }
    exists m0. split; [|apply list_elem_of_In, Hin].
    cbn [m_str]. rewrite Hsub, Hcap. reflexivity.
Qed.

Lemma bare_play_url_found (url html u : string) :
  bare_play_url u -> contains u html ->
  exists v l, nativeExtractPlayUrls url html = v :: l.
Proof.
  intros (Hall & scheme & host & ext & tail & Hu & Hscheme & Hhost & Hext)
         (a & b & ->).
  set (re := {| re_node := bare_node ext; re_flags := ECMAScript; mark_count := 1 |}).
  assert (re ∈ compiled playUrl_patterns) as Hre.
  { apply (elem_of_take_l 5). rewrite bare_patterns_nodes. apply list_elem_of_fmap.
    exists ext. split; [reflexivity|exact Hext]. }
  assert (is_Some (regex_search re (a +:+ u +:+ b))) as [m Hm].
  { apply regex_search_occurs. exists a, u, b. split; [reflexivity|].
    rewrite Hu. rewrite Hu, !all_chars_app in Hall.
    apply andb_true_iff in Hall as [_ Hall]. apply andb_true_iff in Hall as [Hh Hall].
    apply andb_true_iff in Hall as [_ Ht].
    apply bare_node_matches; assumption. }
  assert (m_str m 1 ∈ nativeExtractPlayUrls url (a +:+ u +:+ b)) as Hin.
  { rewrite nativeExtractPlayUrls_candidates, first_occurrences_elem.
    unfold play_candidates. apply candidates_elem. exists re. split; [exact Hre|].
    unfold captures, sregex_iterator. apply list_elem_of_fmap. exists m.
    split; [reflexivity|].
    replace (2 * String.length (a +:+ u +:+ b) + 3)
      with (S (2 * String.length (a +:+ u +:+ b) + 2)) by lia.
    cbn [regex_iterator]. rewrite Hm. apply list_elem_of_here. }
  destruct (nativeExtractPlayUrls url (a +:+ u +:+ b)) as [|v l]; [|eauto].
  apply elem_of_nil in Hin. contradiction.
Qed.

(** X11. A bare play URL that stands on its own in a page, between
    quotes or white space or the ends of the page, is in the list
    [nativeExtractPlayUrls] gives for the page, and
    [nativeValidatePlayUrl] accepts it. *)
Theorem X11_bare_play_url_round_trip (url pre u post : string) :
  bare_play_url u -> stands_alone pre post = true ->
  u ∈ nativeExtractPlayUrls url (pre +:+ u +:+ post) /\
  nativeValidatePlayUrl u = true.
Proof.
  intros Hu Halone. split; [apply bare_play_url_extracted; assumption|].
  destruct Hu as (_ & scheme & host & ext & tail & -> & Hscheme & _ & Hext).
  unfold nativeValidatePlayUrl.
  assert (starts_with "http" (scheme +:+ host +:+ ext +:+ tail) = true) as ->.
  { apply starts_with_spec.
    rewrite !elem_of_cons, elem_of_nil in Hscheme.
    destruct Hscheme as [->|[->|[]]]; eexists; cbn [String.append]; reflexivity. }
  assert (is_Some (find (scheme +:+ host +:+ ext +:+ tail) ext)) as Hc.
  { apply find_is_Some. exists (scheme +:+ host), tail.
    rewrite !app_assoc_str. reflexivity. }
  unfold play_extensions in Hext. rewrite !elem_of_cons, elem_of_nil in Hext.
  destruct Hext as [->|[->|[->|[->|[->|[]]]]]];
    rewrite (bool_decide_eq_true_2 _ Hc), ?orb_true_r; reflexivity.
Qed.

Lemma demo_bare_play_url : bare_play_url "https://cdn.test/v.m3u8".
Proof.
  split; [reflexivity|].
  exists "https://", "cdn.test/v", ".m3u8", EmptyString.
  split; [reflexivity|].
  split; [apply list_elem_of_further, list_elem_of_here|].
  split; [discriminate|apply list_elem_of_here].
Defined.

(** X11 on the address of the demo page, between its quotes. *)
Lemma X11_bare_play_url_round_trip_witness :
  bare_play_url "https://cdn.test/v.m3u8" /\
  stands_alone ("<video src=" +:+ DQ) (DQ +:+ "></video>") = true /\
  "https://cdn.test/v.m3u8"
    ∈ nativeExtractPlayUrls "https://x.com/page"
        (("<video src=" +:+ DQ) +:+ "https://cdn.test/v.m3u8" +:+ (DQ +:+ "></video>")) /\
  nativeValidatePlayUrl "https://cdn.test/v.m3u8" = true.
Proof.
  refine (conj demo_bare_play_url (conj eq_refl _)).
  exact (X11_bare_play_url_round_trip "https://x.com/page" ("<video src=" +:+ DQ)
           "https://cdn.test/v.m3u8" (DQ +:+ "></video>") demo_bare_play_url eq_refl).
Defined.

(** X12. A page that holds a bare play URL anywhere does not give the
    empty list. *)
Theorem X12_page_with_a_play_url_gives_one (url html u : string) :
  bare_play_url u -> contains u html ->
  exists v l, nativeExtractPlayUrls url html = v :: l.
Proof. apply bare_play_url_found. Qed.

Lemma demo_holds_play_url : contains "https://cdn.test/v.m3u8" demo_html.
Proof.
  exists ("<title>Demo</title><video src=" +:+ DQ), (DQ +:+ "></video>").
  reflexivity.
Defined.

(** X12 on the demo page. *)
Lemma X12_page_with_a_play_url_gives_one_witness :
  bare_play_url "https://cdn.test/v.m3u8" /\
  contains "https://cdn.test/v.m3u8" demo_html /\
  exists v l, nativeExtractPlayUrls "https://x.com/page" demo_html = v :: l.
Proof.
  refine (conj demo_bare_play_url (conj demo_holds_play_url _)).
  exact (X12_page_with_a_play_url_gives_one "https://x.com/page" demo_html
           "https://cdn.test/v.m3u8" demo_bare_play_url demo_holds_play_url).
Defined.

Lemma gap_char_class (c : ascii) :
  gap_char c = true ->
  class_matches icase_flag false [CChar (ascii_of_nat 34); CSpace true] c = true.
Proof.
  assert (forallb (fun c => implb (gap_char c)
                     (class_matches icase_flag false
                        [CChar (ascii_of_nat 34); CSpace true] c))
            all_ascii = true) as H by (vm_compute; reflexivity).
  apply (forallb_all_ascii _ c) in H. cbv beta in H. intros Hc. rewrite Hc in H.
  exact H.
Qed.

(** A metadata entry is a word of the pattern of its name. *)
Lemma metadata_node_matches (key v e s : string) :
  key ∈ metadata_keys -> metadata_entry key v e ->
  Matches icase_flag (metadata_node key) e s.
Proof.
  intros Hkey (name & gap1 & sep & gap2 & -> & Hname & Hg1 & Hsep & Hg2 & Hv & Hvc).
  unfold metadata_node. apply Matches_lits.
  { rewrite Hname. unfold metadata_keys in Hkey.
    rewrite !elem_of_cons, elem_of_nil in Hkey.
    destruct Hkey as [->|[->|[->|[->|[->|[->|[]]]]]]]; reflexivity. }
  apply M_Seq.
  { apply Matches_star_class. eapply all_chars_ext, Hg1. apply gap_char_class. }
  apply M_Seq.
  { rewrite !elem_of_cons, elem_of_nil in Hsep.
    destruct Hsep as [->|[->|[]]]; apply M_Class; reflexivity. }
  apply M_Seq.
  { apply Matches_star_class. eapply all_chars_ext, Hg2. apply gap_char_class. }
  change v with (EmptyString +:+ v). apply M_Seq; [apply M_AltR, M_Empty|].
  cbn [String.append]. apply Matches_seq_empty, M_Group, Matches_seq_empty.
  unfold value_class. apply Matches_plus_class; [exact Hv|].
  eapply all_chars_ext, Hvc. apply value_char_class.
Qed.

(** A name stays in the map of [extractMetadata] once it is there, and
    gets there when its pattern is found. *)
Lemma metadata_fold_keeps (html : string) (l : list (string * regex))
    (md : gmap string string) (k : string) :
  is_Some (md !! k) ->
  is_Some (foldl (fun (md : gmap string string) (p : string * regex) =>
                    match regex_search (snd p) html with
                    | Some m => <[fst p := m_str m 1]> md
                    | None => md
                    end) md l !! k).
Proof.
  revert md. induction l as [|q l IH]; intros md Hmd; [exact Hmd|].
  cbn [foldl]. apply IH. destruct (regex_search (snd q) html); [|exact Hmd].
  destruct (decide (fst q = k)) as [<-|Hne].
  - rewrite lookup_insert_eq. eauto.
  - rewrite lookup_insert_ne by exact Hne. exact Hmd.
Qed.

Lemma metadata_fold_finds (html : string) (l : list (string * regex))
    (md : gmap string string) (k : string) (re : regex) :
  (k, re) ∈ l -> is_Some (regex_search re html) ->
  is_Some (foldl (fun (md : gmap string string) (p : string * regex) =>
                    match regex_search (snd p) html with
                    | Some m => <[fst p := m_str m 1]> md
                    | None => md
                    end) md l !! k).
Proof.
  intros Hin [m Hm]. revert md.
  induction l as [|q l IH]; intros md; [apply elem_of_nil in Hin; contradiction|].
  cbn [foldl]. apply elem_of_cons in Hin as [<-|Hin]; [|apply IH, Hin].
  cbn [fst snd]. rewrite Hm. apply metadata_fold_keeps.
  rewrite lookup_insert_eq. eauto.
Qed.

(** X13. A page that holds an entry for one of the six names, the name
    in any case, then a colon or an equals sign and then a value, with
    nothing but double quotes and white space between them, has the
    name in the map [extractMetadata] gives. *)
Theorem X13_metadata_entry_is_found (html key v e : string) :
  key ∈ metadata_keys -> metadata_entry key v e -> contains e html ->
  exists md w, extractMetadata html = Ok md /\ md !! key = Some w.
Proof.
  intros Hkey He (a & b & ->).
  unfold extractMetadata.
  pose proof metadata_patterns_nodes as Hnodes. unfold compiled in Hnodes.
  destruct metadata_patterns_compile as (ps & Hps & _). rewrite Hps in Hnodes |- *.
  cbn [bind]. eexists.
  set (re := {| re_node := metadata_node key; re_flags := icase_flag;
                mark_count := 1 |}).
  assert ((key, re) ∈ zip metadata_keys ps) as Hin.
  { rewrite Hnodes. unfold re. clear -Hkey.
    unfold metadata_keys in *. rewrite !elem_of_cons, elem_of_nil in Hkey.
    cbn [fmap list_fmap zip zip_with].
    destruct Hkey as [->|[->|[->|[->|[->|[->|[]]]]]]];
      rewrite !elem_of_cons; tauto. }
  assert (is_Some (regex_search re (a +:+ e +:+ b))) as Hs.
  { apply regex_search_occurs. exists a, e, b. split; [reflexivity|].
    eapply metadata_node_matches; eassumption. }
  destruct (metadata_fold_finds (a +:+ e +:+ b) _ ∅ key re Hin Hs) as [w Hw].
  exists w. split; [reflexivity|exact Hw].
Qed.

Lemma demo_metadata_entry :
  metadata_entry "duration" "93" ("Duration" +:+ DQ +:+ ": " +:+ DQ +:+ "93").
Proof.
  exists "Duration", DQ, ":", (" " +:+ DQ).
  split; [reflexivity|]. split; [reflexivity|]. split; [reflexivity|].
  split; [apply list_elem_of_here|]. split; [reflexivity|].
  split; [discriminate|reflexivity].
Defined.

(** X13 on an entry written with a capital, quotes and a blank. *)
Lemma X13_metadata_entry_is_found_witness :
  "duration" ∈ metadata_keys /\
  metadata_entry "duration" "93" ("Duration" +:+ DQ +:+ ": " +:+ DQ +:+ "93") /\
  exists md w,
    extractMetadata
      (("{" +:+ DQ) +:+ ("Duration" +:+ DQ +:+ ": " +:+ DQ +:+ "93") +:+ (DQ +:+ "}"))
    = Ok md /\ md !! "duration" = Some w.
Proof.
  refine (conj (list_elem_of_here _ _) (conj demo_metadata_entry _)).
  exact (X13_metadata_entry_is_found _ "duration" "93" _ (list_elem_of_here _ _)
           demo_metadata_entry
           (ex_intro _ ("{" +:+ DQ) (ex_intro _ (DQ +:+ "}") eq_refl))).
Defined.

(** *** The title element *)

Section RunInversion.

Variable f : flags.

Lemma Run_lits (t : string) (r : node) (st st' : mstate) :
  Run f (lits t r) st st' ->
  exists w st1, rest st = w +:+ rest st1 /\
    translate_all f w = translate_all f t /\ caps st1 = caps st /\
    Run f r st1 st'.
Proof.
  revert st. induction t as [|c t IH]; intros st Hrun; cbn [lits] in Hrun.
  - exists EmptyString, st. auto.
  - inversion Hrun as [| | | | |a0 b0 st0 st1 st2 Hrun1 Hrun2| | | | |]; subst.
    inversion Hrun1 as [|c0 x tl st0 Hrest Hx| | | | | | | | |]; subst.
    destruct (IH _ Hrun2) as (w & st2 & Hw & Ht & Hc & Hr).
    exists (String x w), st2. cbn [String.append translate_all].
    split; [rewrite Hrest; f_equal; exact Hw|].
    split; [|split; [exact Hc|exact Hr]].
    unfold char_matches in Hx. apply Ascii.eqb_eq in Hx. congruence.
Qed.

Lemma Run_star_class (negated : bool) (items : list class_item) (st st' : mstate) :
  Run f (Star (Class negated items)) st st' ->
  exists w, rest st = w +:+ rest st' /\
    all_chars (class_matches f negated items) w = true /\ caps st' = caps st.
Proof.
  remember (Star (Class negated items)) as r eqn:Hr. intros Hrun.
  induction Hrun as [st|c x tl st Hrest Hp|x tl st Hrest Hp|neg its x tl st Hrest Hp
                    |st Hrest|a b st st1 st2 _ IH1 _ IH2|a b st st' _ IH|a b st st' _ IH
                    |i a st st' _ IH|a st|a st st1 st2 Hrun1 _ Hrun2 IH2];
    try discriminate.
  - exists EmptyString. auto.
  - injection Hr as ->. specialize (IH2 eq_refl).
    destruct IH2 as (w & Hw & Hall & Hc).
    inversion Hrun1 as [| | |neg its x tl st0 Hrest Hx| | | | | | |]; subst.
    cbn [clear_caps groups foldr rest] in Hrest.
    cbn [advance rest caps clear_caps groups foldr] in Hw, Hc.
    exists (String x w). cbn [String.append].
    split; [rewrite Hrest; f_equal; exact Hw|]. split; [|exact Hc].
    unfold all_chars in *. cbn [list_ascii_of_string forallb]. rewrite Hx. exact Hall.
Qed.

End RunInversion.

Lemma translate_all_length (f : flags) (s : string) :
  String.length (translate_all f s) = String.length s.
Proof. induction s as [|c s IH]; [reflexivity|]. cbn. rewrite IH. reflexivity. Qed.

Lemma app_same_length (a b c d : string) :
  a +:+ b = c +:+ d -> String.length a = String.length c -> a = c /\ b = d.
Proof.
  revert c. induction a as [|x a IH]; intros [|y c] H Hlen; try discriminate.
  - auto.
  - cbn [String.append] in H. injection H as -> H. injection Hlen as Hlen.
    destruct (IH c H Hlen) as [-> ->]. auto.
Qed.

Lemma not_gt_class (c : ascii) :
  class_matches icase_flag true [CChar ">"] c = not_gt c.
Proof.
  assert (forallb (fun c => Bool.eqb (class_matches icase_flag true [CChar ">"] c)
                              (not_gt c)) all_ascii = true) as H
    by (vm_compute; reflexivity).
  apply (forallb_all_ascii _ c) in H. apply eqb_prop in H. exact H.
Qed.

Lemma not_lt_class (c : ascii) :
  class_matches icase_flag true [CChar "<"] c = not_lt c.
Proof.
  assert (forallb (fun c => Bool.eqb (class_matches icase_flag true [CChar "<"] c)
                              (not_lt c)) all_ascii = true) as H
    by (vm_compute; reflexivity).
  apply (forallb_all_ascii _ c) in H. apply eqb_prop in H. exact H.
Qed.

Lemma translate_to (x : ascii) (c : ascii) :
  (c = "<" \/ c = ">")%char -> translate icase_flag x = c -> x = c.
Proof.
  intros Hc.
  assert (forallb (fun x => implb (Ascii.eqb (translate icase_flag x) "<"
                                   || Ascii.eqb (translate icase_flag x) ">")
                              (Ascii.eqb (translate icase_flag x) x)) all_ascii = true)
    as H by (vm_compute; reflexivity).
  apply (forallb_all_ascii _ x) in H. cbv beta in H. intros Hx.
  rewrite Hx in H.
  destruct Hc as [-> | ->];
    [change (implb true (Ascii.eqb "<" x) = true) in H
    |change (implb true (Ascii.eqb ">" x) = true) in H];
    cbn [implb] in H; apply Ascii.eqb_eq in H; congruence.
Qed.

Lemma all_chars_eq (p q : ascii -> bool) (s : string) :
  (forall c, p c = q c) -> all_chars p s = all_chars q s.
Proof.
  intros H. unfold all_chars. induction (list_ascii_of_string s) as [|c l IH];
    [reflexivity|].
  cbn [forallb]. rewrite H, IH. reflexivity.
Qed.

Lemma title_head :
  exists ps, sequence title_patterns
             = Ok ({| re_node := title_node; re_flags := icase_flag; mark_count := 1 |}
                     :: ps).
Proof. vm_compute. eexists. reflexivity. Qed.

(** What an attempt of the first title pattern captures at a title
    element is the text of the element. *)
Lemma title_capture (t e post : string) (st' : mstate) :
  title_element t e ->
  Run icase_flag title_node {| rest := e +:+ post; caps := ∅ |} st' ->
  caps st' !! 1 = Some t.
Proof.
  intros (name & attrs & close & -> & Hname & Hattrs & Ht & Hclose) Hrun.
  unfold title_node in Hrun.
  apply Run_lits in Hrun as (w & st1 & Hw & Hwt & _ & Hrun). cbn [rest] in Hw.
  rewrite !app_assoc_str in Hw.
  assert (name = w /\ attrs +:+ ">" +:+ t +:+ close +:+ post = rest st1) as [<- H1].
  { apply app_same_length; [exact Hw|].
    rewrite <- (translate_all_length icase_flag name),
            <- (translate_all_length icase_flag w), Hname, Hwt. reflexivity. }
  clear Hw Hwt.
  inversion Hrun as [| | | | |a0 b0 st0 st2 st3 Hstar Hrun2| | | | |]; subst.
  apply Run_star_class in Hstar as (a1 & Ha1 & Hall1 & _).
  inversion Hrun2 as [| | | | |a0 b0 st0 st3 st4 Hgt Hrun3| | | | |]; subst.
  inversion Hgt as [|c0 x tl st0 Hrest Hx| | | | | | | | |]; subst.
  unfold char_matches in Hx. apply Ascii.eqb_eq in Hx.
  assert (x = ">"%char) as -> by (apply translate_to; [right; reflexivity|rewrite <- Hx; reflexivity]).
  rewrite Ha1, Hrest in H1.
  assert (a1 = attrs) as ->.
  { apply (maximal_run_unique not_gt a1 attrs (String ">" tl)
             (">" +:+ t +:+ close +:+ post)).
    - rewrite <- Hall1. apply all_chars_eq. intros c. symmetry. apply not_gt_class.
    - exact Hattrs.
    - symmetry. exact H1.
    - intros c [= <-]. reflexivity.
    - intros c [= <-]. reflexivity. }
  apply app_same_length in H1 as [_ H1]; [|reflexivity].
  cbn [String.append] in H1. injection H1 as H1.
  inversion Hrun3 as [| | | | |a0 b0 st0 st4 st5 Hgroup Hrun4| | | | |]; subst.
  inversion Hgroup as [| | | | | | | |j0 a0 st0 st5 Hbody| |]; subst.
  apply (Run_lits _ "</title>" Empty) in Hrun4
    as (wc & st6 & Hwc & Hwct & Hcaps & Hrun5).
  inversion Hrun5; subst. rewrite Hcaps. cbn [set_cap caps rest] in Hwc |- *.
  rewrite lookup_insert_eq. f_equal.
  apply Run_word in Hbody as (w & Hw & HM).
  rewrite (consumed_app _ _ w Hw). cbn [advance rest] in Hw.
  destruct wc as [|x wc]; [discriminate|]. cbn [translate_all] in Hwct.
  injection Hwct as Hx' _.
  assert (x = "<"%char) as -> by (apply translate_to; [left; reflexivity|exact Hx']).
  destruct close as [|y close]; [discriminate|]. cbn [translate_all] in Hclose.
  injection Hclose as Hy _.
  assert (y = "<"%char) as -> by (apply translate_to; [left; reflexivity|exact Hy]).
  apply (maximal_run_unique not_lt w t (rest st5) (String "<" close +:+ post)).
  - eapply reads_sound; [exact HM|]. vm_compute. reflexivity.
  - exact Ht.
  - symmetry. exact Hw.
  - rewrite Hwc. intros c [= <-]. reflexivity.
  - intros c [= <-]. reflexivity.
Qed.

(** A title element is a word of the first title pattern. *)
Lemma title_node_matches (t e s : string) :
  title_element t e -> t <> EmptyString ->
  Matches icase_flag title_node e s.
Proof.
  intros (name & attrs & close & -> & Hname & Hattrs & Ht & Hclose) Hne.
  unfold title_node. apply Matches_lits; [rewrite Hname; reflexivity|].
  apply M_Seq.
  { apply Matches_star_class.
    rewrite (all_chars_eq _ not_gt attrs not_gt_class). exact Hattrs. }
  change (">" +:+ t +:+ close) with (String ">" EmptyString +:+ (t +:+ close)).
  apply M_Seq; [apply M_Char; reflexivity|].
  apply M_Seq.
  - apply M_Group, Matches_seq_empty, Matches_plus_class; [exact Hne|].
    rewrite (all_chars_eq _ not_lt t not_lt_class). exact Ht.
  - rewrite <- (app_nil_r_str close). apply Matches_lits; [|apply M_Empty].
    rewrite Hclose. reflexivity.
Qed.

Lemma starts_ci_translate (t w y : string) :
  translate_all icase_flag w = t -> starts_ci t (w +:+ y) = true.
Proof.
  revert w. induction t as [|c t IH]; intros w H; [reflexivity|].
  destruct w as [|x w]; [discriminate|]. cbn [translate_all] in H.
  injection H as Hx H. cbn [String.append starts_ci].
  rewrite Hx, Ascii.eqb_refl. apply IH, H.
Qed.

Lemma holds_ci_suffix (t a b : string) :
  holds_ci t (a +:+ b) = false -> starts_ci t b = false.
Proof.
  induction a as [|x a IH]; cbn [String.append].
  - destruct b; cbn [holds_ci]; intros H; apply orb_false_iff in H as [H _]; exact H.
  - cbn [holds_ci]. intros H. apply orb_false_iff in H as [_ H]. apply IH, H.
Qed.

(** The opening tag is not read across the end of what stands in front
    of it. *)
Lemma title_straddle (p name z : string) :
  translate_all icase_flag name = "<title" -> p <> EmptyString ->
  starts_ci "<title" (p +:+ name +:+ z) = true -> starts_ci "<title" p = true.
Proof.
  intros Hname Hp H.
  destruct name as [|n0 name]; [discriminate|]. cbn [translate_all] in Hname.
  injection Hname as Hn0 _.
  destruct p as [|c0 p]; [contradiction|]. clear Hp.
  cbn [String.append starts_ci] in H |- *.
  apply andb_true_iff in H as [H0 H]. rewrite H0. cbn [andb].
  destruct p as [|c1 p]; cbn [String.append starts_ci] in H |- *.
  { apply andb_true_iff in H as [H1 _]. apply Ascii.eqb_eq in H1.
    rewrite Hn0 in H1. discriminate. }
  apply andb_true_iff in H as [H1 H]. rewrite H1. cbn [andb].
  destruct p as [|c2 p]; cbn [String.append starts_ci] in H |- *.
  { apply andb_true_iff in H as [H2 _]. apply Ascii.eqb_eq in H2.
    rewrite Hn0 in H2. discriminate. }
  apply andb_true_iff in H as [H2 H]. rewrite H2. cbn [andb].
  destruct p as [|c3 p]; cbn [String.append starts_ci] in H |- *.
  { apply andb_true_iff in H as [H3 _]. apply Ascii.eqb_eq in H3.
    rewrite Hn0 in H3. discriminate. }
  apply andb_true_iff in H as [H3 H]. rewrite H3. cbn [andb].
  destruct p as [|c4 p]; cbn [String.append starts_ci] in H |- *.
  { apply andb_true_iff in H as [H4 _]. apply Ascii.eqb_eq in H4.
    rewrite Hn0 in H4. discriminate. }
  apply andb_true_iff in H as [H4 H]. rewrite H4. cbn [andb].
  destruct p as [|c5 p]; cbn [String.append starts_ci] in H |- *.
  { apply andb_true_iff in H as [H5 _]. apply Ascii.eqb_eq in H5.
    rewrite Hn0 in H5. discriminate. }
  exact H.
Qed.

Lemma Matches_lits_inv (f : flags) (t : string) (r : node) (w s : string) :
  Matches f (lits t r) w s ->
  exists w1 w2, w = w1 +:+ w2 /\ translate_all f w1 = translate_all f t.
Proof.
  revert w. induction t as [|c t IH]; intros w H; cbn [lits] in H.
  - exists EmptyString, w. auto.
  - inversion H as [| | | | |a b w1 w2 s0 Hc Hr| | | | |]; subst.
    inversion Hc as [|c0 x s0 Hx| | | | | | | | |]; subst.
    destruct (IH _ Hr) as (v1 & v2 & -> & Hv).
    exists (String x v1), v2. split; [reflexivity|].
    cbn [translate_all]. unfold char_matches in Hx. apply Ascii.eqb_eq in Hx.
    congruence.
Qed.

(** The first title pattern matches nowhere in front of the first
    opening tag. *)
Lemma title_not_before (re : regex) (p1 p2 name z : string) :
  re_node re = title_node -> re_flags re = icase_flag ->
  holds_ci "<title" (p1 +:+ p2) = false ->
  translate_all icase_flag name = "<title" -> p2 <> EmptyString ->
  match_at re false (p2 +:+ name +:+ z) = None.
Proof.
  intros Hnode Hflags Hpre Hname Hp2.
  destruct (match_at re false (p2 +:+ name +:+ z)) as [m|] eqn:H; [|reflexivity].
  exfalso. apply match_at_sound in H as [Hs HM].
  rewrite Hnode, Hflags in HM. unfold title_node in HM.
  apply Matches_lits_inv in HM as (w1 & w2 & Hw & Hw1).
  rewrite Hw, app_assoc_str in Hs.
  pose proof (starts_ci_translate "<title" w1 (w2 +:+ m_suffix m) Hw1) as Hstart.
  rewrite <- Hs in Hstart. apply title_straddle in Hstart; [|exact Hname|exact Hp2].
  rewrite (holds_ci_suffix _ _ _ Hpre) in Hstart. discriminate.
Qed.

Lemma regex_search_skip (re : regex) (pre r : string) (m : smatch) :
  (forall p1 p2, pre = p1 +:+ p2 -> p2 <> EmptyString ->
     match_at re false (p2 +:+ r) = None) ->
  regex_search re r = Some m ->
  exists m', regex_search re (pre +:+ r) = Some m' /\ m_sub m' = m_sub m.
Proof.
  intros Hnone Hr. induction pre as [|c pre IH]; cbn [String.append].
  - eauto.
  - cbn [regex_search].
    pose proof (Hnone EmptyString (String c pre) eq_refl ltac:(discriminate)) as H0.
    cbn [String.append] in H0. rewrite H0.
    destruct IH as (m' & -> & Hsub).
    + intros p1 p2 -> Hp2. apply (Hnone (String c p1) p2 eq_refl Hp2).
    + exists (with_prefix c m'). split; [reflexivity|exact Hsub].
Qed.

Lemma not_lt_plain (t : string) : all_chars not_lt t = true -> holds_tag t = false.
Proof.
  unfold all_chars. induction t as [|c t IH]; [reflexivity|].
  cbn [list_ascii_of_string forallb holds_tag]. intros H.
  apply andb_true_iff in H as [Hc H]. rewrite (IH H).
  unfold not_lt in Hc. apply negb_true_iff in Hc. rewrite Hc. reflexivity.
Qed.

(** X14. A page whose first opening title tag, in any case, opens a
    title element whose text holds no opening angle bracket and is
    longer than two bytes once trimmed has that trimmed text as the
    title [extractTitle] gives. *)
Theorem X14_title_round_trip (pre t e post : string) :
  title_element t e -> holds_ci "<title" pre = false ->
  2 < String.length (trim t) ->
  extractTitle (pre +:+ e +:+ post) = Ok (trim t).
Proof.
  intros He Hpre Hlen.
  assert (t <> EmptyString) as Hne by (intros ->; vm_compute in Hlen; lia).
  unfold extractTitle. destruct title_head as (ps & ->). cbn [bind first_title].
  set (re := {| re_node := title_node; re_flags := icase_flag; mark_count := 1 |}).
  destruct (match_at_finds re e post (title_node_matches t e post He Hne)) as [m Hm].
  pose proof (match_at_runs re false _ m Hm) as (st' & Hrun & Hsub & _).
  pose proof (title_capture t e post st' He Hrun) as Hcap.
  destruct (regex_search_skip re pre (e +:+ post) m) as (m' & Hm' & Hsub').
  { intros p1 p2 -> Hp2. pose proof He as (name & attrs & close & -> & Hname & _).
    rewrite !app_assoc_str.
    apply (title_not_before re p1 p2 name); auto. }
  { apply regex_search_hit, Hm. }
  rewrite Hm'. cbn [m_str]. rewrite Hsub', Hsub, Hcap. cbn [default].
  destruct He as (name & attrs & close & _ & _ & _ & Ht & _).
  change (id t) with t.
  destruct (stripHtmlTags_spec t) as (r & -> & _ & _ & Hfixed). cbn [bind].
  rewrite (Hfixed (not_lt_plain t Ht)).
  replace (2 <? String.length (trim t)) with true by (symmetry; apply Nat.ltb_lt, Hlen).
  destruct (trim t); [cbn in Hlen; lia|]. reflexivity.
Qed.

Lemma demo_title_element : title_element " Demo " "<TITLE lang=en> Demo </title>".
Proof.
  exists "<TITLE", " lang=en", "</title>".
  split; [reflexivity|]. split; [reflexivity|]. split; [reflexivity|].
  split; reflexivity.
Defined.

(** X14 on a title element written with capitals, an attribute and
    blanks around its text. *)
Lemma X14_title_round_trip_witness :
  title_element " Demo " "<TITLE lang=en> Demo </title>" /\
  holds_ci "<title" "<html>" = false /\
  2 < String.length (trim " Demo ") /\
  extractTitle ("<html>" +:+ "<TITLE lang=en> Demo </title>" +:+ "</html>")
  = Ok (trim " Demo ").
Proof.
  refine (conj demo_title_element (conj eq_refl _)).
  refine ((fun H => conj H
             (X14_title_round_trip "<html>" " Demo " "<TITLE lang=en> Demo </title>"
                "</html>" demo_title_element eq_refl H)) _).
  vm_compute. apply le_S, le_n.
Defined.

(** *** More on URL resolution *)

(** Resolution puts something in front of the candidate and leaves the
    candidate as it is. *)
Lemma makeAbsoluteUrl_suffix (base u : string) :
  exists p, makeAbsoluteUrl base u = Ok (p +:+ u).
Proof.
  unfold makeAbsoluteUrl.
  destruct (starts_with "http" u); [exists EmptyString; reflexivity|].
  destruct (starts_with "//" u); [exists "https:"; reflexivity|].
  assert (exists p,
            match find_last_of base "/" with
            | Some lastSlash => Ok (substr base 0 (lastSlash + 1) +:+ u)
            | None => Ok u
            end = Ok (p +:+ u)) as Hrel.
  { destruct (find_last_of base "/"); [eexists; reflexivity|].
    exists EmptyString. reflexivity. }
  destruct (starts_with "/" u); [|exact Hrel].
  destruct domainRegex_shape as (re & tail & -> & _ & _). cbn [bind].
  destruct (regex_search re base); [eexists; reflexivity|exact Hrel].
Qed.

(** X15. [makeAbsoluteUrl] returns for every base and candidate, and the
    result ends with the candidate as written: resolution only puts a
    prefix in front, it never normalises or cuts the candidate. The prefix
    is empty for a candidate that begins with [http] and [https:] for one
    that begins with two slashes. *)
Theorem X15_resolution_only_prepends (base u : string) :
  (exists p, makeAbsoluteUrl base u = Ok (p +:+ u)) /\
  (starts_with "http" u = true -> makeAbsoluteUrl base u = Ok u) /\
  (starts_with "http" u = false -> starts_with "//" u = true ->
   makeAbsoluteUrl base u = Ok ("https:" +:+ u)).
Proof.
  split; [apply makeAbsoluteUrl_suffix|].
  unfold makeAbsoluteUrl. split.
  - intros ->. reflexivity.
  - intros -> ->. reflexivity.
Qed.

(** X16. Against an absolute base, resolving the result of a resolution
    again changes nothing. *)
Theorem X16_resolution_is_idempotent (base u r : string) :
  absolute base -> makeAbsoluteUrl base u = Ok r -> makeAbsoluteUrl base r = Ok r.
Proof.
  intros Hbase Hr. destruct (makeAbsoluteUrl_absolute base u r Hbase Hr) as [Hhttp _].
  unfold makeAbsoluteUrl. rewrite Hhttp. reflexivity.
Qed.

(** X16 on a relative candidate. *)
Lemma X16_resolution_is_idempotent_witness :
  absolute "https://x.com/c/d" /\
  makeAbsoluteUrl "https://x.com/c/d" "e.mp4" = Ok "https://x.com/c/e.mp4" /\
  makeAbsoluteUrl "https://x.com/c/d" "https://x.com/c/e.mp4"
  = Ok "https://x.com/c/e.mp4".
Proof.
  assert (absolute "https://x.com/c/d") as H1 by (right; reflexivity).
  assert (makeAbsoluteUrl "https://x.com/c/d" "e.mp4" = Ok "https://x.com/c/e.mp4")
    as H2 by (vm_compute; reflexivity).
  exact (conj H1 (conj H2 (X16_resolution_is_idempotent _ _ _ H1 H2))).
Defined.

Lemma find_last_of_none (s : string) (c : ascii) :
  all_chars (fun x => negb (Ascii.eqb x c)) s = true -> find_last_of s c = None.
Proof.
  unfold all_chars. induction s as [|x s IH];
    cbn [list_ascii_of_string forallb find_last_of]; [reflexivity|].
  intros H. apply andb_true_iff in H as [Hx H]. rewrite (IH H).
  apply negb_true_iff in Hx. rewrite Hx. reflexivity.
Qed.

Lemma absolute_has_slash (w : string) :
  absolute w -> all_chars (fun x => negb (Ascii.eqb x "/")) w = false.
Proof. intros [H|H]; apply starts_with_spec in H as [post ->]; reflexivity. Qed.

(** X17. With a base URL that holds no slash there is nothing to resolve
    against: a candidate that does not begin with two slashes comes back as
    it is, also when it is root-relative or relative. *)
Theorem X17_resolution_without_a_slash_in_the_base (base u : string) :
  all_chars (fun x => negb (Ascii.eqb x "/")) base = true ->
  starts_with "//" u = false ->
  makeAbsoluteUrl base u = Ok u.
Proof.
  intros Hbase Hrel. unfold makeAbsoluteUrl. rewrite Hrel.
  destruct (starts_with "http" u); [reflexivity|].
  rewrite (find_last_of_none base "/" Hbase).
  destruct (starts_with "/" u); [|reflexivity].
  destruct domainRegex_shape as (re & tail & -> & Hflags & Hnode). cbn [bind].
  destruct (regex_search re base) as [m|] eqn:Hs; [|reflexivity].
  exfalso. pose proof (regex_search_split re base m Hs) as Hsplit.
  apply regex_search_from_attempt, from_attempt_whole in Hs.
  rewrite Hflags, Hnode in Hs. apply scheme_then_absolute, absolute_has_slash in Hs.
  rewrite Hsplit, !all_chars_app, Hs, andb_false_l, andb_false_r in Hbase.
  discriminate.
Qed.

(** X17 on a root-relative candidate. *)
Lemma X17_resolution_without_a_slash_in_the_base_witness :
  makeAbsoluteUrl "page" "/a/b.mp4" = Ok "/a/b.mp4".
Proof.
  exact (X17_resolution_without_a_slash_in_the_base "page" "/a/b.mp4"
           eq_refl eq_refl).
Defined.

(** *** The thumbnail *)

Lemma imageRegex_shape :
  exists re exts,
    std_regex "\.(jpg|jpeg|png|gif|bmp|webp)(\?|$)" icase_flag = Ok re /\
    re_flags re = icase_flag /\
    re_node re
    = Seq (Char ".")
        (Seq (Group 1 exts)
           (Seq (Group 2 (Alt (Seq (Char "?") Empty) (Seq AssertEnd Empty))) Empty)) /\
    words_of (Seq (Char ".") (Group 1 exts)) = Some image_extensions /\
    star_free (re_node re) = true.
Proof. vm_compute. eexists _, _. repeat split. Qed.

Lemma question_mark (x : ascii) : char_matches icase_flag "?" x = true -> x = "?"%char.
Proof.
  intros H. destruct x as [[] [] [] [] [] [] [] []]; vm_compute in H;
    first [discriminate|reflexivity].
Qed.

(** The words of the image pattern. *)
Lemma image_words (exts : node) (w s : string) :
  words_of (Seq (Char ".") (Group 1 exts)) = Some image_extensions ->
  Matches icase_flag
    (Seq (Char ".")
       (Seq (Group 1 exts)
          (Seq (Group 2 (Alt (Seq (Char "?") Empty) (Seq AssertEnd Empty))) Empty)))
    w s ->
  exists ext q, w = ext +:+ q /\
    translate_all icase_flag ext ∈ image_extensions /\
    (q = "?" \/ (q = EmptyString /\ s = EmptyString)).
Proof.
  intros Hwords H.
  inversion H as [| | | | |a b w1 w23 s' Hdot H23| | | | |]; subst.
  inversion H23 as [| | | | |a b w2 w3 s' Hext H3| | | | |]; subst.
  inversion H3 as [| | | | |a b w3' w4 s' Hend H4| | | | |]; subst.
  inversion H4; subst.
  assert (Matches icase_flag (Seq (Char ".") (Group 1 exts)) (w1 +:+ w2)
            ((w3' +:+ EmptyString) +:+ s)) as Hde.
  { apply M_Seq; [|exact Hext]. inversion Hdot; subst. apply M_Char. assumption. }
  destruct (words_of_sound _ _ _ _ Hde _ Hwords) as (t & Ht & He).
  exists (w1 +:+ w2), w3'. rewrite !app_nil_r_str, app_assoc_str.
  split; [reflexivity|].
  split.
  - replace (translate_all icase_flag (w1 +:+ w2)) with t; [exact Ht|].
    rewrite He. clear - Ht. unfold image_extensions in Ht.
    rewrite !elem_of_cons, elem_of_nil in Ht.
    destruct Ht as [->|[->|[->|[->|[->|[->|[]]]]]]]; reflexivity.
  - inversion Hend as [| | | | | | | |i a w' s' Halt| |]; subst.
    inversion Halt as [| | | | | |a b w' s' Hq|a b w' s' He'| | |]; subst.
    + left. inversion Hq as [| | | | |a b q1 q2 s' Hc Hemp| | | | |]; subst.
      inversion Hemp; subst. inversion Hc as [|c x s' Hx| | | | | | | | |]; subst.
      apply question_mark in Hx as ->. reflexivity.
    + right. inversion He' as [| | | | |a b q1 q2 s' Ha Hemp| | | | |]; subst.
      inversion Hemp; subst. apply Matches_AssertEnd in Ha as [-> Hs].
      cbn [String.append] in Hs. subst s. split; reflexivity.
Qed.

(** What [isImageUrl] accepts has the shape of an image URL. *)
Lemma isImageUrl_image (u : string) : isImageUrl u = Ok true -> image_url u.
Proof.
  unfold isImageUrl.
  destruct imageRegex_shape as (re & exts & -> & Hflags & Hnode & Hwords & _).
  cbn [bind]. intros [= H]. apply bool_decide_eq_true in H as [m Hm].
  pose proof (regex_search_split re u m Hm) as Hsplit.
  apply regex_search_from_attempt, from_attempt_whole in Hm.
  rewrite Hflags, Hnode in Hm.
  destruct (image_words exts _ _ Hwords Hm) as (ext & q & Hw & Hext & Hq).
  exists (m_prefix m), ext, (q +:+ m_suffix m).
  split; [rewrite Hsplit, Hw, !app_assoc_str; reflexivity|].
  split; [exact Hext|].
  destruct Hq as [->|[-> ->]]; [right; reflexivity|left; reflexivity].
Qed.

Lemma image_url_app (p u : string) : image_url u -> image_url (p +:+ u).
Proof.
  intros (pre & ext & post & -> & H). exists (p +:+ pre), ext, post.
  split; [rewrite app_assoc_str; reflexivity|exact H].
Qed.

(** An image URL is accepted by [isImageUrl]. *)
Lemma image_isImageUrl (u : string) : image_url u -> isImageUrl u = Ok true.
Proof.
  intros (pre & ext & post & -> & Hext & Hpost). unfold isImageUrl.
  destruct imageRegex_shape as (re & exts & -> & Hflags & Hnode & Hwords & Hfree).
  cbn [bind]. f_equal. apply bool_decide_eq_true. apply regex_search_finds.
  assert (exists st', Run icase_flag (re_node re)
                        {| rest := ext +:+ post; caps := ∅ |} st') as [st' Hrun].
  { assert (translate_all icase_flag ext
            = translate_all icase_flag (translate_all icase_flag ext)) as Hidem.
    { revert Hext. generalize (translate_all icase_flag ext) as t. intros t Ht.
      unfold image_extensions in Ht. rewrite !elem_of_cons, elem_of_nil in Ht.
      destruct Ht as [->|[->|[->|[->|[->|[->|[]]]]]]]; reflexivity. }
    destruct (words_of_run icase_flag _ _ _ ext Hwords Hext Hidem
                {| rest := ext +:+ post; caps := ∅ |} post eq_refl)
      as (st1 & Hrun1 & Hr1).
    inversion Hrun1 as [| | | | |a b s0 s1 s2 Hdot Hgroup| | | | |]; subst.
    rewrite Hnode.
    destruct Hpost as [Hp|Hq].
    - eexists. eapply R_Seq; [exact Hdot|]. eapply R_Seq; [exact Hgroup|].
      eapply R_Seq; [|apply R_Empty]. apply R_Group, R_AltR.
      eapply R_Seq; [apply R_AssertEnd; exact Hp|apply R_Empty].
    - destruct (rest st1) as [|q post] eqn:Hr; [discriminate|]. injection Hq as ->.
      eexists. eapply R_Seq; [exact Hdot|]. eapply R_Seq; [exact Hgroup|].
      eapply R_Seq; [|apply R_Empty]. apply R_Group, R_AltL.
      eapply R_Seq; [|apply R_Empty]. eapply R_Char; [exact Hr|reflexivity]. }
  rewrite <- Hflags in Hrun. eapply match_at_complete; eassumption.
Qed.

(** X18. [isImageUrl] answers true exactly for the strings that hold a
    dot and one of [jpg], [jpeg], [png], [gif], [bmp], [webp], in any mix
    of upper and lower case, followed by a question mark or by the end of
    the string; for every other string it answers false. The extension
    need not end the path: what follows the question mark is not looked
    at. *)
Theorem X18_isImageUrl_characterised (u : string) :
  (isImageUrl u = Ok true <-> image_url u) /\
  (isImageUrl u = Ok false <-> ~ image_url u).
Proof.
  split; [split; [apply isImageUrl_image|apply image_isImageUrl]|].
  split.
  - intros Hf Hi. apply image_isImageUrl in Hi. congruence.
  - intros Hn. destruct (isImageUrl_ok u) as [[|] Hb]; [|exact Hb].
    apply isImageUrl_image in Hb. contradiction.
Qed.

Lemma first_thumbnail_image (html base : string) (ps : list regex) (t : string) :
  first_thumbnail html base ps = Ok t -> t = EmptyString \/ image_url t.
Proof.
  induction ps as [|p ps IH]; cbn [first_thumbnail].
  - intros [= <-]. left. reflexivity.
  - destruct (regex_search p html) as [m|]; [|exact IH].
    destruct (isImageUrl (m_str m 1)) as [[|]|e] eqn:Himg; cbn [bind];
      [|exact IH|discriminate].
    destruct (makeAbsoluteUrl_suffix base (m_str m 1)) as [pre ->].
    intros [= <-]. right. apply image_url_app, isImageUrl_image, Himg.
Qed.

(** X19. [extractThumbnail] returns for every page and base, and the
    thumbnail is empty or holds a dot and one of [jpg], [jpeg], [png],
    [gif], [bmp], [webp], in any mix of upper and lower case, with either
    a question mark after it or nothing at all. *)
Theorem X19_thumbnail_is_an_image_address (html base : string) :
  exists t, extractThumbnail html base = Ok t /\ (t = EmptyString \/ image_url t).
Proof.
  destruct (extractThumbnail_ok html base) as [t Ht]. exists t. split; [exact Ht|].
  unfold extractThumbnail in Ht. destruct thumbnail_patterns_compile as (ps & Hps & _).
  rewrite Hps in Ht. cbn [bind] in Ht. eapply first_thumbnail_image, Ht.
Qed.

(** *** Header lines and the body of a transfer *)

Lemma find_char (name rest : string) (c : ascii) :
  all_chars (fun x => negb (Ascii.eqb x c)) name = true ->
  find (name +:+ String c rest) (String c EmptyString) = Some (String.length name).
Proof.
  unfold all_chars. induction name as [|x name IH];
    cbn [list_ascii_of_string forallb String.append String.length]; intros H;
    rewrite find_unfold.
  - replace (String.prefix (String c EmptyString) (String c rest)) with true;
      [reflexivity|].
    symmetry. apply prefix_app. exists rest. reflexivity.
  - apply andb_true_iff in H as [Hx H].
    destruct (String.prefix (String c EmptyString) (String x (name +:+ String c rest)))
      eqn:Hp.
    + apply prefix_app in Hp as [post Hp]. injection Hp as -> _.
      rewrite Ascii.eqb_refl in Hx. discriminate.
    + rewrite (IH H). reflexivity.
Qed.

Lemma find_none (s : string) (c : ascii) :
  all_chars (fun x => negb (Ascii.eqb x c)) s = true ->
  find s (String c EmptyString) = None.
Proof.
  unfold all_chars. induction s as [|x s IH];
    cbn [list_ascii_of_string forallb]; intros H; rewrite find_unfold.
  - reflexivity.
  - apply andb_true_iff in H as [Hx H].
    destruct (String.prefix (String c EmptyString) (String x s)) eqn:Hp.
    + apply prefix_app in Hp as [post Hp]. injection Hp as -> _.
      rewrite Ascii.eqb_refl in Hx. discriminate.
    + rewrite (IH H). reflexivity.
Qed.

Lemma erase_strips (x : string) :
  stripped_of x
    (erase_back (erase_front x (String " " (String TAB EmptyString))) whitespace).
Proof.
  destruct (erase_front_spec x (String " " (String TAB EmptyString)))
    as (l & Hl & Hlw & Hfirst).
  destruct (erase_back_spec (erase_front x (String " " (String TAB EmptyString)))
              whitespace) as (r & Hr & Hrw & Hlast).
  exists l, r. split; [rewrite <- Hr; exact Hl|].
  split; [exact Hlw|]. split; [exact Hrw|]. split; [|exact Hlast].
  intros c Hc. apply Hfirst. eapply erase_back_first, Hc.
Qed.

(** X20. [HeaderCallback] splits a header line at its first colon: for a
    line [name:rest] with no colon in [name] it stores under the key the
    value, where the key is [name] and the value is [rest], each without
    its leading blanks and tabs and without its trailing white space; it
    sets the content type to the value when the key is [Content-Type] or
    [content-type], in these two spellings only, and leaves the body alone.
    A line without a colon changes nothing. *)
Theorem X20_header_line_is_split_at_the_first_colon (name rest : string)
    (response : HttpResponse.t) :
  all_chars (fun x => negb (Ascii.eqb x ":")) name = true ->
  HeaderCallback name response = response /\
  exists key value,
    stripped_of name key /\ stripped_of rest value /\
    HttpResponse.headers (HeaderCallback (name +:+ ":" +:+ rest) response)
    = <[key := value]> (HttpResponse.headers response) /\
    HttpResponse.contentType (HeaderCallback (name +:+ ":" +:+ rest) response)
    = (if String.eqb key "Content-Type" || String.eqb key "content-type"
       then value else HttpResponse.contentType response) /\
    HttpResponse.data (HeaderCallback (name +:+ ":" +:+ rest) response)
    = HttpResponse.data response /\
    HttpResponse.responseCode (HeaderCallback (name +:+ ":" +:+ rest) response)
    = HttpResponse.responseCode response.
Proof.
  intros Hname. split.
  { unfold HeaderCallback. rewrite (find_none name ":" Hname). reflexivity. }
  unfold HeaderCallback.
  change (name +:+ ":" +:+ rest) with (name +:+ String ":" rest).
  rewrite (find_char name rest ":" Hname). cbv zeta.
  assert (substr (name +:+ String ":" rest) 0 (String.length name) = name) as ->
    by apply substring_app.
  assert (substr (name +:+ String ":" rest) (String.length name + 1)
            (String.length (name +:+ String ":" rest) - (String.length name + 1))
          = rest) as ->.
  { unfold substr. change (name +:+ String ":" rest) with (name +:+ ":" +:+ rest).
    rewrite <- app_assoc_str, length_app_str.
    replace (String.length name + 1) with (String.length (name +:+ ":"))
      by (rewrite length_app_str; reflexivity).
    rewrite Nat.add_comm, Nat.add_sub. apply substring_drop. }
  eexists _, _. split; [apply erase_strips|]. split; [apply erase_strips|].
  cbn [HttpResponse.headers HttpResponse.contentType HttpResponse.data
       HttpResponse.responseCode].
  repeat split.
Qed.

(** X20 on a content type line as a server sends it. *)
Lemma X20_header_line_is_split_at_the_first_colon_witness :
  all_chars (fun x => negb (Ascii.eqb x ":")) "Content-Type" = true /\
  HeaderCallback "Content-Type" HttpResponse.init = HttpResponse.init.
Proof.
  refine (conj eq_refl _).
  exact (proj1 (X20_header_line_is_split_at_the_first_colon "Content-Type"
                  (" text/html" +:+ String CR (String LF EmptyString))
                  HttpResponse.init eq_refl)).
Defined.

Lemma deliver_content_type (r : HttpResponse.t) (ev : curl_event) :
  content_type_inv r -> content_type_inv (deliver r ev).
Proof.
  unfold content_type_inv. intros H. destruct ev as [buffer|contents]; cbn [deliver].
  - unfold HeaderCallback. destruct (find buffer ":") as [colonPos|]; [|exact H].
    cbv zeta. cbn [HttpResponse.contentType HttpResponse.headers].
    set (key := erase_back _ whitespace). set (value := erase_back _ whitespace).
    destruct (String.eqb key "Content-Type") eqn:H1.
    { apply String.eqb_eq in H1 as ->. right; left. apply lookup_insert_eq. }
    destruct (String.eqb key "content-type") eqn:H2.
    { apply String.eqb_eq in H2 as ->. right; right. apply lookup_insert_eq. }
    apply String.eqb_neq in H1, H2. cbn [orb].
    rewrite !lookup_insert_ne by assumption. exact H.
  - exact H.
Qed.

(** X21. In every response [performHttpRequest] returns, whatever the
    transport delivered and whether or not it failed, the content type is
    empty or is the value stored in the headers under [Content-Type] or
    under [content-type]. *)
Theorem X21_content_type_is_a_stored_header (curl : Curl) (request : HttpRequest.t) :
  content_type_inv (performHttpRequest curl request).
Proof.
  unfold performHttpRequest.
  destruct (curl_easy_init curl); cbn [negb]; [|left; reflexivity].
  destruct (curl_easy_perform curl request) as [events result].
  assert (content_type_inv (foldl deliver HttpResponse.init events)) as H.
  { generalize HttpResponse.init,
      (or_introl eq_refl : content_type_inv HttpResponse.init).
    induction events as [|ev events IH]; intros r Hr; [exact Hr|].
    cbn [foldl]. apply IH, deliver_content_type, Hr. }
  destruct result as [code|e]; [destruct (negb (code =? CURLE_OK)%Z)|]; exact H.
Qed.

Lemma foldl_deliver_data (events : list curl_event) (r : HttpResponse.t) :
  HttpResponse.data (foldl deliver r events)
  = HttpResponse.data r +:+ body_of events.
Proof.
  revert r. induction events as [|ev events IH]; intros r; cbn [foldl body_of foldr].
  - symmetry. apply app_nil_r_str.
  - rewrite IH. fold (body_of events). destruct ev as [buffer|contents]; cbn [deliver].
    + f_equal. unfold HeaderCallback. destruct (find buffer ":"); reflexivity.
    + cbn [WriteCallback HttpResponse.data]. apply app_assoc_str.
Qed.

Lemma HeaderCallback_meta (buffer : string) (r r' : HttpResponse.t) :
  HttpResponse.headers r = HttpResponse.headers r' ->
  HttpResponse.contentType r = HttpResponse.contentType r' ->
  HttpResponse.headers (HeaderCallback buffer r)
  = HttpResponse.headers (HeaderCallback buffer r') /\
  HttpResponse.contentType (HeaderCallback buffer r)
  = HttpResponse.contentType (HeaderCallback buffer r').
Proof.
  intros Hh Hc. unfold HeaderCallback. destruct (find buffer ":"); [|auto].
  cbv zeta. cbn [HttpResponse.headers HttpResponse.contentType].
  rewrite Hh, Hc. auto.
Qed.

Lemma foldl_deliver_meta (events : list curl_event) (r r' : HttpResponse.t) :
  HttpResponse.headers r = HttpResponse.headers r' ->
  HttpResponse.contentType r = HttpResponse.contentType r' ->
  HttpResponse.headers (foldl deliver r events)
  = HttpResponse.headers (foldl deliver r' (header_lines events)) /\
  HttpResponse.contentType (foldl deliver r events)
  = HttpResponse.contentType (foldl deliver r' (header_lines events)).
Proof.
  revert r r'. induction events as [|ev events IH]; intros r r' Hh Hc; [auto|].
  destruct ev as [buffer|contents]; cbn [foldl header_lines List.filter deliver].
  - apply IH; apply HeaderCallback_meta; assumption.
  - apply IH; assumption.
Qed.

(** X22. What [performHttpRequest] makes of a transfer, given a handle:
    the headers and the content type are those of the header lines alone,
    in the order they came, whether or not the transfer failed; when the
    transfer ends with [CURLE_OK] the data is the body chunks one after the
    other and the status is the one libcurl reports; when it ends with
    another code or an exception the status is -1 and the data is the error
    text, the body received so far being dropped. *)
Theorem X22_transfer_result (curl : Curl) (request : HttpRequest.t)
    (events : list curl_event) (result : res Z) :
  curl_easy_init curl = true ->
  curl_easy_perform curl request = (events, result) ->
  let r := performHttpRequest curl request in
  let h := foldl deliver HttpResponse.init (header_lines events) in
  HttpResponse.headers r = HttpResponse.headers h /\
  HttpResponse.contentType r = HttpResponse.contentType h /\
  match result with
  | Ok code =>
      if (code =? CURLE_OK)%Z then
        HttpResponse.data r = body_of events /\
        HttpResponse.responseCode r = CURLINFO_RESPONSE_CODE curl request
      else
        HttpResponse.data r = "ERROR: " +:+ curl_easy_strerror curl code /\
        HttpResponse.responseCode r = (-1)%Z
  | Throw e =>
      HttpResponse.data r = "ERROR: " +:+ what e /\
      HttpResponse.responseCode r = (-1)%Z
  end.
Proof.
  intros Hinit Hperform. cbv zeta. unfold performHttpRequest.
  rewrite Hinit, Hperform. cbn [negb].
  destruct (foldl_deliver_meta events HttpResponse.init HttpResponse.init
              eq_refl eq_refl) as [Hh Hc].
  destruct result as [code|e]; [destruct (code =? CURLE_OK)%Z; cbn [negb]|];
    cbn [failed HttpResponse.headers HttpResponse.contentType HttpResponse.data
         HttpResponse.responseCode];
    (split; [exact Hh|]); (split; [exact Hc|]); try (split; reflexivity).
  split; [|reflexivity]. rewrite foldl_deliver_data. reflexivity.
Qed.

(** X22 on the transport that answers with one header line and one
    chunk. *)
Lemma X22_transfer_result_witness :
  curl_easy_init curl_flaky = true /\
  curl_easy_perform curl_flaky
    {| HttpRequest.url := "https://up.test/"; HttpRequest.method := "GET";
       HttpRequest.data := EmptyString; HttpRequest.headers := ∅;
       HttpRequest.timeout := 15000 |}
  = ([HeaderLine "Content-Type: text/plain"; BodyChunk "hello"], Ok CURLE_OK) /\
  HttpResponse.data
    (performHttpRequest curl_flaky
       {| HttpRequest.url := "https://up.test/"; HttpRequest.method := "GET";
          HttpRequest.data := EmptyString; HttpRequest.headers := ∅;
          HttpRequest.timeout := 15000 |}) = "hello".
Proof.
  refine (conj eq_refl (conj eq_refl _)).
  exact (proj1 (proj2 (proj2
    (X22_transfer_result curl_flaky
       {| HttpRequest.url := "https://up.test/"; HttpRequest.method := "GET";
          HttpRequest.data := EmptyString; HttpRequest.headers := ∅;
          HttpRequest.timeout := 15000 |}
       [HeaderLine "Content-Type: text/plain"; BodyChunk "hello"] (Ok CURLE_OK)
       eq_refl eq_refl)))).
Defined.

(** *** The request of an HTTP function *)

Lemma wrap32_range (z : Z) : (- 2 ^ 31 <= wrap 32 z < 2 ^ 31)%Z.
Proof.
  unfold wrap. change (2 ^ (32 - 1))%Z with (2 ^ 31)%Z.
  pose proof (Z.mod_pos_bound (z + 2 ^ 31) (2 ^ 32) ltac:(lia)) as H.
  change (2 ^ 32)%Z with (2 * 2 ^ 31)%Z in *. lia.
Qed.

(** The headers of the caller are added to those that are set, none is
    taken away. *)
Lemma add_headers_keeps (E : Engine) (props : list (JSAtom E)) (obj : JSValue)
    (hs : gmap string string) (ctx : JSContext E) (k : string) :
  is_Some (hs !! k) -> is_Some (fst (add_headers E props obj hs ctx) !! k).
Proof.
  revert hs ctx. induction props as [|atom props IH]; intros hs ctx Hk; [exact Hk|].
  cbn [add_headers].
  destruct (JS_AtomToString E atom ctx) as [key ctx1].
  destruct (JS_GetProperty E obj atom ctx1) as [value ctx2].
  destruct (JS_ToCString E key ctx2) as [keyStr ctx3].
  destruct (JS_ToCString E value ctx3) as [valueStr ctx4].
  apply IH. destruct keyStr as [k'|]; [|exact Hk].
  destruct valueStr as [v|]; [|exact Hk].
  destruct (decide (k' = k)) as [->|Hne];
    [rewrite lookup_insert_eq; eauto|rewrite lookup_insert_ne by exact Hne; exact Hk].
Qed.

Lemma parse_headers_keeps (E : Engine) (arg : option JSValue) (rq : HttpRequest.t)
    (ctx : JSContext E) :
  let rq' := fst (parse_headers E arg rq ctx) in
  HttpRequest.method rq' = HttpRequest.method rq /\
  HttpRequest.timeout rq' = HttpRequest.timeout rq /\
  forall k, is_Some (HttpRequest.headers rq !! k) ->
            is_Some (HttpRequest.headers rq' !! k).
Proof.
  cbv zeta. unfold parse_headers. destruct arg as [obj|]; [|auto].
  destruct (JS_IsObject obj); [|auto].
  destruct (JS_GetOwnPropertyNames E obj ctx) as [[props|] ctx1]; [|auto].
  pose proof (add_headers_keeps E props obj (HttpRequest.headers rq) ctx1) as Hk.
  destruct (add_headers E props obj (HttpRequest.headers rq) ctx1) as [hs ctx2].
  cbn [fst with_headers HttpRequest.method HttpRequest.timeout HttpRequest.headers]
    in *.
  auto.
Qed.

(** X23. A call of one of the eight HTTP functions either raises a type
    error for its arguments, whatever the transport, without a request; or
    it makes exactly one request and returns the response object for it, or
    the internal error with the function's text when the transport throws.
    The timeout of that request is positive; unless the function is
    [httpRequest] the method is the function's own, the timeout is 15000,
    and the headers the function sets by default are all there, whatever
    headers the caller adds. *)
Theorem X23_http_function_makes_one_request (E : Engine) (name : http_name)
    (argv : list JSValue) (ctx : JSContext E) :
  (exists msg ctx', forall perform,
     initHttp E perform name argv ctx = throw_type_error E msg ctx')
  \/ exists rq ctx',
       (forall perform,
          initHttp E perform name argv ctx
          = respond E perform (response_object (shape_of name)) (failure_text name)
              rq ctx') /\
       (0 < HttpRequest.timeout rq < 2 ^ 31)%Z /\
       (forall m, verb name = Some m ->
          HttpRequest.method rq = m /\ HttpRequest.timeout rq = 15000%Z) /\
       (forall k, k ∈ default_keys name -> is_Some (HttpRequest.headers rq !! k)).
Proof.
  destruct name;
    cbn [initHttp shape_of response_object failure_text verb default_keys];
    unfold js_http_get_async, js_http_post_async, js_http_get, js_http_post,
      js_http_put, js_http_delete, js_http_head, js_http_request.
  all: repeat
    match goal with
    | |- context [match ?l with [] => _ | _ :: _ => _ end] =>
        destruct l; [left; eexists _, _; intros; reflexivity|]
    | |- context [match ?l with [] => _ | _ :: _ => _ end] =>
        destruct l; [|left; eexists _, _; intros; reflexivity]
    | |- context [JS_ToCString _ ?v ?c] =>
        destruct (JS_ToCString _ v c) as [[?|] ?]
    | |- context [JS_GetPropertyStr _ ?v ?k ?c] =>
        destruct (JS_GetPropertyStr _ v k c) as [? ?]
    | |- context [JS_ToInt32 _ ?v ?c] =>
        destruct (JS_ToInt32 _ v c) as [? ?]
    | |- context [negb (JS_IsObject ?v)] => destruct (JS_IsObject v); cbn [negb]
    end;
    try (left; eexists _, _; intros; reflexivity).
  all: right.
  all: try match goal with
       | |- context [parse_headers ?e ?a ?r ?c] =>
           pose proof (parse_headers_keeps e a r c) as (Hm & Ht & Hk);
           destruct (parse_headers e a r c) as [rq' c'];
           cbn [fst HttpRequest.timeout HttpRequest.method HttpRequest.headers]
             in Hm, Ht, Hk;
           exists rq', c'; split; [intros; reflexivity|];
           rewrite Hm, Ht
       end.
  all: try (eexists _, _; split; [intros; reflexivity|];
            cbn [HttpRequest.timeout HttpRequest.method HttpRequest.headers]).
  all: split;
    [repeat match goal with
       | |- context [(0 <? wrap 32 ?t)%Z] =>
           pose proof (wrap32_range t); destruct (0 <? wrap 32 t)%Z eqn:?
       | |- context [match ?o with Some _ => _ | None => _ end] => destruct o
       end; cbn [HttpRequest.timeout HttpRequest.init];
     try match goal with H : (0 <? _)%Z = true |- _ => apply Z.ltb_lt in H end; lia|].
  all: split; [try discriminate; intros m [= <-]; split; reflexivity|].
  all: intros k Hk'; rewrite ?elem_of_cons, elem_of_nil in Hk'; try tauto.
  all: try apply Hk.
  all: repeat (destruct Hk' as [->|Hk']); try tauto;
    repeat first [rewrite lookup_insert_eq | rewrite lookup_insert_ne by discriminate];
    eauto.
Qed.

(** *** More on the registry *)

Section RegistryMore.

Variable E : Engine.

Lemma touches_only_cases (id : Z) (reg reg' : Registry E) :
  reg' = reg \/
  (exists w ctx, g_contexts E reg !! id = Some w /\ reg' = store E id ctx reg) ->
  touches_only E id reg reg'.
Proof.
  intros [->|(w & ctx & Hw & ->)].
  - repeat split; auto.
  - split; [reflexivity|]. split.
    + cbn [store g_contexts]. rewrite lookup_insert_eq, Hw. split; eauto.
    + intros id' Hne. cbn [store g_contexts]. apply lookup_insert_ne. congruence.
Qed.



End RegistryMore.

(** X24. A call of [nativeEvaluateScript], [nativeCallFunction] or
    [nativeHasFunction] on a context leaves the counter, the set of
    identities in use and the entry of every other context as they were,
    whatever the script does and also when the call fails. *)
Theorem X24_contexts_are_isolated (E : Engine) (lock : res unit) (id : Z)
    (reg : Registry E) :
  (forall script,
     touches_only E id reg (snd (nativeEvaluateScript E lock id script reg))) /\
  (forall f args,
     touches_only E id reg (snd (nativeCallFunction E lock id f args reg))) /\
  (forall f, touches_only E id reg (snd (nativeHasFunction E lock id f reg))).
Proof.
  split; [|split]; intros; apply touches_only_cases.
  - apply nativeEvaluateScript_registry.
  - apply nativeCallFunction_registry.
  - apply nativeHasFunction_registry.
Qed.


(** X26. In a registry that satisfies the invariant below the range of
    the counter, creating a context and destroying it again, with the lock
    of the registry taken, gives back the map as it was, while the counter
    has moved on by one: the identity is not handed out a second time. A
    destruction that cannot take the lock leaves the new context in the
    map. *)
Theorem X26_create_then_destroy (E : Engine) (ctx : JSContext E)
    (reg : Registry E) (n : Z) :
  registry_inv E reg n -> (n < INT64_MAX)%Z ->
  let created := createJSContext E (Ok (Some ctx)) reg in
  fst created = g_next_context_id E reg /\
  g_contexts E (snd created) !! fst created
    = Some {| context := ctx; isValid := true |} /\
  g_contexts E (destroyJSContext E (Ok tt) (fst created) (snd created))
    = g_contexts E reg /\
  (forall lock,
     g_next_context_id E (destroyJSContext E lock (fst created) (snd created))
     = (g_next_context_id E reg + 1)%Z) /\
  (forall e, destroyJSContext E (Throw e) (fst created) (snd created) = snd created).
Proof.
  intros [Hc Hk] Hn created. subst created. rewrite createJSContext_success.
  cbn [fst snd]. rewrite destroyJSContext_taken. cbn [g_contexts g_next_context_id].
  rewrite lookup_insert_eq.
  split; [reflexivity|]. split; [reflexivity|]. unfold INT64_MAX in Hn. split.
  - apply delete_insert_id.
    destruct (g_contexts E reg !! g_next_context_id E reg) eqn:H; [|reflexivity].
    apply Hk in H. lia.
  - split; [|reflexivity]. intros lock. rewrite destroyJSContext_counter.
    cbn [g_next_context_id]. apply wrap_small. lia.
Qed.

(** X26 on the empty registry. *)
Lemma X26_create_then_destroy_witness :
  registry_inv toy (initial toy) 1 /\ (1 < INT64_MAX)%Z /\
  g_contexts toy
    (destroyJSContext toy (Ok tt)
       (fst (createJSContext toy (Ok (Some ["main"])) (initial toy)))
       (snd (createJSContext toy (Ok (Some ["main"])) (initial toy))))
  = g_contexts toy (initial toy).
Proof.
  refine (conj (initial_inv toy) (conj eq_refl _)).
  exact (proj1 (proj2 (proj2
    (X26_create_then_destroy toy ["main"] (initial toy) 1
       (initial_inv toy) eq_refl)))).
Defined.





(** *** The embedding at work *)

Example title_of_heading :
  extractTitle "<TITLE> x </TITLE><h1 class='t'>  Big Buck Bunny </h1>"
  = Ok "Big Buck Bunny".
Proof. vm_compute. reflexivity. Qed.

Example title_of_key :
  extractTitle "var title = 'Some <i>long</i> name';" = Ok "Some long name".
Proof. vm_compute. reflexivity. Qed.

Example play_urls_in_pattern_order :
  extractPlayUrls
    ("a https://h/1.mp4 b https://h/2.m3u8?t=1 c https://h/1.mp4 <x src='3.mp4'>")
  = Ok ["https://h/2.m3u8?t=1"; "https://h/1.mp4"; "3.mp4"].
Proof. vm_compute. reflexivity. Qed.

Example metadata_of_keys :
  (fun md => (md !! "duration", md !! "fps", md !! "size"))
    <$> match extractMetadata "Duration: 93, fps=24" with
        | Ok md => Some md
        | Throw _ => None
        end
  = Some (Some "93", Some "24", None).
Proof. vm_compute. reflexivity. Qed.

Example iterator_after_an_empty_match :
  (fun re => (fun m => (m_str m 1, m_prefix m)) <$> sregex_iterator re "axxb")
    <$> match std_regex "(x*)" ECMAScript with Ok re => Some re | Throw _ => None end
  = Some [(EmptyString, EmptyString); ("xx", "a");
          (EmptyString, EmptyString); (EmptyString, "b")].
Proof. vm_compute. reflexivity. Qed.

Example get_without_libcurl :
  own_property
    (fst (initHttp toy without_curl httpGet [JS_String "https://x.test/"] []))
    "status"
  = Some (JS_Int32 200).
Proof. vm_compute. reflexivity. Qed.

Example header_line_is_split :
  HttpResponse.headers
    (HeaderCallback ("Content-Type:  text/html " +:+ String CR (String LF EmptyString))
       HttpResponse.init) !! "Content-Type"
  = Some "text/html".
Proof. vm_compute. reflexivity. Qed.
